(** * ArrayBase: the growable contiguous buffer of juce_core

    A shallow embedding of [juce::ArrayBase<ElementType, ...>]
    (modules/juce_core/containers/juce_ArrayBase.h) and the properties
    of its capacity management, positional edits and comparisons.
    The playback renderer of the ARA sample project, which reads the
    audio sources of its playback regions into the audio buffer, follows
    the container.

    Conventions of the embedding.
    - A C++ [int] is a [Z]; every arithmetic operation on [int]s goes
      through [wrap], the two's complement wrap-around on 32 bits.
    - The storage block owned by [HeapBlock<ElementType> elements] is a
      [list slot]: one [slot] per element-sized cell of the block, the
      null pointer being the empty block.  Pointers into the block are
      [Z] offsets from [elements].
    - An access outside the block, reading a cell that holds no object,
      or running a destructor on a cell that holds no object is
      undefined behaviour; the embedding returns [None] there.
    - [jassert] only reports in debug builds and never changes control
      flow; it has no counterpart in the embedding.
    - The two compile-time properties the class dispatches on,
      [std::is_trivially_copyable] and [std::is_move_assignable], are
      the booleans [trivially_copyable] and [move_assignable]. *)

From stdpp Require Import base tactics option list numbers gmap.

Local Open Scope Z_scope.

(** ** 32-bit [int] arithmetic *)

Definition INT_MIN : Z := -2147483648.
Definition INT_MAX : Z := 2147483647.

Definition wrap (z : Z) : Z := (z + 2147483648) `mod` 4294967296 - 2147483648.

Definition int_add (a b : Z) : Z := wrap (a + b).
Definition int_sub (a b : Z) : Z := wrap (a - b).
Definition int_neg (a : Z) : Z := wrap (- a).

(** [a / 2] on [int]s truncates toward zero. *)
Definition int_div (a b : Z) : Z := wrap (a ÷ b).

(** [a & ~7]: on two's complement numbers [~7] is [-8]. *)
Definition int_and_not7 (a : Z) : Z := Z.land a (Z.lnot 7).

(** Modelled from the spec: [isPositiveAndBelow] is declared in
    juce_MathsFunctions.h, which is not part of the sources at hand; the
    specification reads it as "the index is within [0, limit)". *)
Definition isPositiveAndBelow (valueToTest upperLimit : Z) : bool :=
  bool_decide (0 ≤ valueToTest) && bool_decide (valueToTest < upperLimit).

(** The reading of "round up to a multiple of 8" in the capacity rule of
    the specification: the least multiple of 8 that is not below [x]. *)
Definition round_up_to_multiple_of_8 (x : Z) : Z := 8 * ((x + 7) `div` 8).

(** What [(x) & ~7] computes: the greatest multiple of 8 not above [x]. *)
Definition round_down_to_multiple_of_8 (x : Z) : Z := 8 * (x `div` 8).

(** A request for [minNumElements] cells is served without leaving the
    range of [int]: either the block is already large enough, or the
    grown size [min + min / 2 + 8] is representable. *)
Definition growth_fits (cap minNumElements : Z) : Prop :=
  minNumElements ≤ cap ∨ minNumElements + minNumElements ÷ 2 + 8 ≤ INT_MAX.

Section ArrayBaseModel.

Context {T : Type}.

(** One cell of the storage block. *)
Inductive slot : Type :=
  | Raw            (* no object: never constructed, or destroyed *)
  | Obj (v : T)    (* a live object holding [v] *)
  | Moved.         (* a live object that has been moved from *)

Definition is_live (x : slot) : bool :=
  match x with Raw => false | Obj _ | Moved => true end.

Definition live (x : slot) : Prop := is_live x = true.

(** The fields of the class, and the trace of destructor calls made on
    cells of [elements] (a ghost field: the index of each cell whose
    destructor ran, in program order). *)
Record ArrayBase : Type := mkArrayBase {
  elements : list slot;
  numAllocated : Z;
  numUsed : Z;
  destructorCalls : list Z
}.

Definition set_elements (m : list slot) (a : ArrayBase) : ArrayBase :=
  mkArrayBase m (numAllocated a) (numUsed a) (destructorCalls a).
Definition set_numAllocated (n : Z) (a : ArrayBase) : ArrayBase :=
  mkArrayBase (elements a) n (numUsed a) (destructorCalls a).
Definition set_numUsed (n : Z) (a : ArrayBase) : ArrayBase :=
  mkArrayBase (elements a) (numAllocated a) n (destructorCalls a).

(** [ArrayBase() = default] *)
Definition empty : ArrayBase := mkArrayBase [] 0 0 [].

Definition size (a : ArrayBase) : Z := numUsed a.
Definition capacity (a : ArrayBase) : Z := numAllocated a.

(** ** Access to the cells of a block *)

Definition in_block (m : list slot) (i : Z) : bool :=
  bool_decide (0 ≤ i < Z.of_nat (length m)).

Definition peek (m : list slot) (i : Z) : option slot :=
  if in_block m i then m !! Z.to_nat i else None.

Definition poke (m : list slot) (i : Z) (x : slot) : option (list slot) :=
  if in_block m i then Some (<[Z.to_nat i := x]> m) else None.

(** Reading the value of the object in a cell; a moved-from object has
    no value of its own to give. *)
Definition peek_live (m : list slot) (i : Z) : option slot :=
  x ← peek m i; if is_live x then Some x else None.

(** [memmove (elements + dst, elements + src, n * sizeof (ElementType))];
    [memcpy] inside one block is used by the class on disjoint cells only
    and coincides with it. A negative [n] becomes a huge [size_t]. *)
Definition memmove (dst src n : Z) (m : list slot) : option (list slot) :=
  if bool_decide (0 ≤ n ∧ 0 ≤ src ∧ src + n ≤ Z.of_nat (length m)
                  ∧ 0 ≤ dst ∧ dst + n ≤ Z.of_nat (length m))
  then Some (take (Z.to_nat dst) m
             ++ take (Z.to_nat n) (drop (Z.to_nat src) m)
             ++ drop (Z.to_nat (dst + n)) m)
  else None.

(** ** Element lifecycle *)

(** [new (elements + i) ElementType (v)] *)
Definition construct_at (i : Z) (v : T) (a : ArrayBase) : option ArrayBase :=
  m ← poke (elements a) i (Obj v); Some (set_elements m a).

(** [elements[i].~ElementType()] *)
Definition destroy_at (i : Z) (a : ArrayBase) : option ArrayBase :=
  _ ← peek_live (elements a) i;
  m ← poke (elements a) i Raw;
  Some (mkArrayBase m (numAllocated a) (numUsed a) (destructorCalls a ++ [i])).

(** [new (elements + dst) ElementType (std::move (elements[src]))] *)
Definition move_construct_at (dst src : Z) (a : ArrayBase) : option ArrayBase :=
  x ← peek_live (elements a) src;
  m1 ← poke (elements a) dst x;
  m2 ← poke m1 src Moved;
  Some (set_elements m2 a).

(** [elements[dst] = std::move (elements[src])] *)
Definition move_assign_at (dst src : Z) (a : ArrayBase) : option ArrayBase :=
  _ ← peek_live (elements a) dst;
  move_construct_at dst src a.

Variable trivially_copyable : bool.
Variable move_assignable : bool.

(** [moveAssignElement (elements + dst, std::move (elements[src]))] *)
Definition moveAssignElement (dst src : Z) (a : ArrayBase) : option ArrayBase :=
  if move_assignable then move_assign_at dst src a
  else a1 ← destroy_at dst a; move_construct_at dst src a1.

(** [moveAssignElement (elements + dst, std::move (tempCopy))] where the
    local [tempCopy] holds [x]. *)
Definition moveAssignElementFromTemp (dst : Z) (x : slot) (a : ArrayBase)
  : option ArrayBase :=
  if move_assignable then
    _ ← peek_live (elements a) dst;
    m ← poke (elements a) dst x; Some (set_elements m a)
  else
    a1 ← destroy_at dst a;
    m ← poke (elements a1) dst x; Some (set_elements m a1).

(** ** Capacity *)

(** Modelled from the spec: [HeapBlock] (juce_HeapBlock.h) is not part of
    the sources at hand.  [elements.realloc (n)] keeps the cells that fit
    and leaves the new ones raw, [HeapBlock<ElementType> b (n)] is a
    fresh raw block of [n] cells, and [elements.free()] releases the
    block.  An allocation that cannot be served is fatal and is not
    modelled: allocation succeeds. *)
Definition HeapBlock_realloc (n : Z) (m : list slot) : list slot :=
  resize (Z.to_nat n) Raw m.
Definition HeapBlock_new (n : Z) : list slot := replicate (Z.to_nat n) Raw.
Definition HeapBlock_free : list slot := [].

(** The loop of the non-trivially-copyable [setAllocatedSizeInternal]:
    [new (newElements + i) ElementType (std::move (elements[i]));
     elements[i].~ElementType();] for [i] from [i] on, [n] times. *)
Fixpoint relocate_loop (n : nat) (i : Z) (newElements : list slot) (a : ArrayBase)
  : option (list slot * ArrayBase) :=
  match n with
  | O => Some (newElements, a)
  | S n' =>
      x ← peek_live (elements a) i;
      new1 ← poke newElements i x;
      old1 ← poke (elements a) i Moved;
      a1 ← destroy_at i (set_elements old1 a);
      relocate_loop n' (i + 1) new1 a1
  end.

Definition setAllocatedSizeInternal (numElements : Z) (a : ArrayBase)
  : option ArrayBase :=
  if trivially_copyable then
    Some (set_elements (HeapBlock_realloc numElements (elements a)) a)
  else
    '(newElements, a1) ← relocate_loop (Z.to_nat (numUsed a)) 0
                                        (HeapBlock_new numElements) a;
    Some (set_elements newElements a1).

Definition setAllocatedSize (numElements : Z) (a : ArrayBase) : option ArrayBase :=
  a1 ← (if bool_decide (numAllocated a ≠ numElements) then
          if bool_decide (numElements > 0)
          then setAllocatedSizeInternal numElements a
          else Some (set_elements HeapBlock_free a)
        else Some a);
  Some (set_numAllocated numElements a1).

Definition ensureAllocatedSize (minNumElements : Z) (a : ArrayBase)
  : option ArrayBase :=
  if bool_decide (minNumElements > numAllocated a) then
    setAllocatedSize
      (int_and_not7 (int_add (int_add minNumElements (int_div minNumElements 2)) 8))
      a
  else Some a.

Definition shrinkToNoMoreThan (maxNumElements : Z) (a : ArrayBase)
  : option ArrayBase :=
  if bool_decide (maxNumElements < numAllocated a)
  then setAllocatedSize maxNumElements a
  else Some a.

(** [for (int i = 0; i < numUsed; ++i) elements[i].~ElementType();] *)
Fixpoint destroy_loop (n : nat) (i : Z) (a : ArrayBase) : option ArrayBase :=
  match n with
  | O => Some a
  | S n' => a1 ← destroy_at i a; destroy_loop n' (i + 1) a1
  end.

Definition clear (a : ArrayBase) : option ArrayBase :=
  a1 ← destroy_loop (Z.to_nat (numUsed a)) 0 a;
  Some (set_numUsed 0 a1).

(** ** Appending *)

(** [new (elements + numUsed++) ElementType (element)] *)
Definition addAssumingCapacityIsReady (element : T) (a : ArrayBase)
  : option ArrayBase :=
  a1 ← construct_at (numUsed a) element a;
  Some (set_numUsed (int_add (numUsed a1) 1) a1).

(** The variadic overloads: the first element, then the rest of the
    pack, in order.  The same loop serves the range-based [for] of the
    [addArray] overloads. *)
Fixpoint addAssumingCapacityIsReady_pack (es : list T) (a : ArrayBase)
  : option ArrayBase :=
  match es with
  | [] => Some a
  | e :: es' =>
      a1 ← addAssumingCapacityIsReady e a;
      addAssumingCapacityIsReady_pack es' a1
  end.

(** [add (const ElementType&)] and [add (ElementType&&)] *)
Definition add (newElement : T) (a : ArrayBase) : option ArrayBase :=
  a1 ← ensureAllocatedSize (int_add (numUsed a) 1) a;
  addAssumingCapacityIsReady newElement a1.

(** [add (firstNewElement, otherElements...)] *)
Definition add_pack (firstNewElement : T) (otherElements : list T)
    (a : ArrayBase) : option ArrayBase :=
  a1 ← ensureAllocatedSize
         (int_add (int_add (numUsed a) 1)
                  (wrap (Z.of_nat (length otherElements)))) a;
  addAssumingCapacityIsReady_pack (firstNewElement :: otherElements) a1.

(** [memcpy (elements + dst, otherElements, n * sizeof (ElementType))]
    from an array outside the block, given by the elements found at
    [otherElements]. *)
Definition memcpy_from (dst : Z) (otherElements : list T) (n : Z)
    (m : list slot) : option (list slot) :=
  if bool_decide (0 ≤ n ≤ Z.of_nat (length otherElements)
                  ∧ 0 ≤ dst ∧ dst + n ≤ Z.of_nat (length m))
  then Some (take (Z.to_nat dst) m
             ++ (Obj <$> take (Z.to_nat n) otherElements)
             ++ drop (Z.to_nat (dst + n)) m)
  else None.

(** [while (--numElements >= 0) new (start++) ElementType (otherElements[k++]);] *)
Fixpoint copy_construct_loop (n : nat) (start : Z) (otherElements : list T)
    (a : ArrayBase) : option ArrayBase :=
  match n with
  | O => Some a
  | S n' =>
      match otherElements with
      | [] => None
      | e :: rest =>
          a1 ← construct_at start e a;
          copy_construct_loop n' (start + 1) rest a1
      end
  end.

(** The source elements have type [ElementType], so overload resolution
    picks the [memcpy] overload for trivially copyable elements. *)
Definition addArrayInternal (otherElements : list T) (numElements : Z)
    (a : ArrayBase) : option ArrayBase :=
  if trivially_copyable then
    m ← memcpy_from (numUsed a) otherElements numElements (elements a);
    Some (set_elements m a)
  else
    copy_construct_loop (Z.to_nat numElements) (numUsed a) otherElements a.

(** [addArray (const Type* elementsToAdd, int numElementsToAdd)] *)
Definition addArray (elementsToAdd : list T) (numElementsToAdd : Z)
    (a : ArrayBase) : option ArrayBase :=
  a1 ← ensureAllocatedSize (int_add (numUsed a) numElementsToAdd) a;
  a2 ← addArrayInternal elementsToAdd numElementsToAdd a1;
  Some (set_numUsed (int_add (numUsed a2) numElementsToAdd) a2).

(** [addArray (const std::initializer_list<TypeToCreateFrom>& items)] *)
Definition addArray_items (items : list T) (a : ArrayBase) : option ArrayBase :=
  a1 ← ensureAllocatedSize
         (int_add (numUsed a) (wrap (Z.of_nat (length items)))) a;
  addAssumingCapacityIsReady_pack items a1.

(** [addArray (const OtherArrayType& arrayToAddFrom)] *)
Definition addArray_from (arrayToAddFrom : list T) (a : ArrayBase)
  : option ArrayBase :=
  a1 ← ensureAllocatedSize
         (int_add (numUsed a) (wrap (Z.of_nat (length arrayToAddFrom)))) a;
  addAssumingCapacityIsReady_pack arrayToAddFrom a1.

(** [addArray (arrayToAddFrom, startIndex, numElementsToAdd)], which
    returns the number of elements it added. *)
Definition addArray_range (arrayToAddFrom : list T)
    (startIndex numElementsToAdd : Z) (a : ArrayBase)
  : option (Z * ArrayBase) :=
  let startIndex := if bool_decide (startIndex < 0) then 0 else startIndex in
  let sz := wrap (Z.of_nat (length arrayToAddFrom)) in
  let numElementsToAdd :=
    if bool_decide (numElementsToAdd < 0)
       || bool_decide (int_add startIndex numElementsToAdd > sz)
    then int_sub sz startIndex else numElementsToAdd in
  a1 ← addArray (drop (Z.to_nat startIndex) arrayToAddFrom) numElementsToAdd a;
  Some (numElementsToAdd, a1).

(** ** Insertion *)

(** The loop of the non-trivially-copyable [createInsertSpaceInternal]:
    [--newEnd; --end; new (newEnd) ElementType (std::move (end[0])); end->~ElementType();] *)
Fixpoint shift_right_loop (n : nat) (end_ newEnd : Z) (a : ArrayBase)
  : option ArrayBase :=
  match n with
  | O => Some a
  | S n' =>
      let newEnd := newEnd - 1 in
      let end_ := end_ - 1 in
      a1 ← move_construct_at newEnd end_ a;
      a2 ← destroy_at end_ a1;
      shift_right_loop n' end_ newEnd a2
  end.

Definition createInsertSpaceInternal (indexToInsertAt numElements : Z)
    (a : ArrayBase) : option ArrayBase :=
  let numElementsToShift := int_sub (numUsed a) indexToInsertAt in
  if trivially_copyable then
    m ← memmove (indexToInsertAt + numElements) indexToInsertAt
                numElementsToShift (elements a);
    Some (set_elements m a)
  else
    shift_right_loop (Z.to_nat numElementsToShift)
                     (numUsed a) (numUsed a + numElements) a.

(** Returns the offset of the first cell of the gap. *)
Definition createInsertSpace (indexToInsertAt numElements : Z) (a : ArrayBase)
  : option (Z * ArrayBase) :=
  a1 ← ensureAllocatedSize (int_add (numUsed a) numElements) a;
  if negb (isPositiveAndBelow indexToInsertAt (numUsed a1))
  then Some (numUsed a1, a1)
  else
    a2 ← createInsertSpaceInternal indexToInsertAt numElements a1;
    Some (indexToInsertAt, a2).

(** [for (int i = 0; i < n; ++i) new (space++) ElementType (newElement);] *)
Fixpoint fill_loop (n : nat) (space : Z) (newElement : T) (a : ArrayBase)
  : option ArrayBase :=
  match n with
  | O => Some a
  | S n' =>
      a1 ← construct_at space newElement a;
      fill_loop n' (space + 1) newElement a1
  end.

Definition insert (indexToInsertAt : Z) (newElement : T)
    (numberOfTimesToInsertIt : Z) (a : ArrayBase) : option ArrayBase :=
  '(space, a1) ← createInsertSpace indexToInsertAt numberOfTimesToInsertIt a;
  a2 ← fill_loop (Z.to_nat numberOfTimesToInsertIt) space newElement a1;
  Some (set_numUsed (int_add (numUsed a2) numberOfTimesToInsertIt) a2).

Definition insertArray (indexToInsertAt : Z) (newElements : list T)
    (numberOfElements : Z) (a : ArrayBase) : option ArrayBase :=
  '(space, a1) ← createInsertSpace indexToInsertAt numberOfElements a;
  a2 ← copy_construct_loop (Z.to_nat numberOfElements) space newElements a1;
  Some (set_numUsed (int_add (numUsed a2) numberOfElements) a2).

(** ** Removal *)

(** [moveAssignElement (destination++, std::move (source[k]));] *)
Fixpoint shift_left_loop (n : nat) (destination source : Z) (a : ArrayBase)
  : option ArrayBase :=
  match n with
  | O => Some a
  | S n' =>
      a1 ← moveAssignElement destination source a;
      shift_left_loop n' (destination + 1) (source + 1) a1
  end.

Definition removeElementsInternal (indexToRemoveAt numElementsToRemove : Z)
    (a : ArrayBase) : option ArrayBase :=
  let numElementsToShift :=
    int_sub (numUsed a) (int_add indexToRemoveAt numElementsToRemove) in
  if trivially_copyable then
    m ← memmove indexToRemoveAt (indexToRemoveAt + numElementsToRemove)
                numElementsToShift (elements a);
    Some (set_elements m a)
  else
    let destination := indexToRemoveAt in
    let source := destination + numElementsToRemove in
    a1 ← shift_left_loop (Z.to_nat numElementsToShift) destination source a;
    destroy_loop (Z.to_nat numElementsToRemove)
                 (destination + Z.of_nat (Z.to_nat numElementsToShift)) a1.

Definition removeElements (indexToRemoveAt numElementsToRemove : Z)
    (a : ArrayBase) : option ArrayBase :=
  if bool_decide (numElementsToRemove > 0) then
    a1 ← removeElementsInternal indexToRemoveAt numElementsToRemove a;
    Some (set_numUsed (int_sub (numUsed a1) numElementsToRemove) a1)
  else Some a.

(** ** Swapping and moving *)

(** [std::swap (elements[index1], elements[index2])] *)
Definition swap (index1 index2 : Z) (a : ArrayBase) : option ArrayBase :=
  if isPositiveAndBelow index1 (numUsed a)
     && isPositiveAndBelow index2 (numUsed a)
  then
    x ← peek_live (elements a) index1;
    y ← peek_live (elements a) index2;
    m1 ← poke (elements a) index1 y;
    m2 ← poke m1 index2 x;
    Some (set_elements m2 a)
  else Some a.

(** [moveAssignElement (e, std::move (e[1])); ++e;]; returns [e]. *)
Fixpoint walk_up_loop (n : nat) (e : Z) (a : ArrayBase) : option (Z * ArrayBase) :=
  match n with
  | O => Some (e, a)
  | S n' =>
      a1 ← moveAssignElement e (e + 1) a;
      walk_up_loop n' (e + 1) a1
  end.

(** [moveAssignElement (e, std::move (e[-1])); --e;]; returns [e]. *)
Fixpoint walk_down_loop (n : nat) (e : Z) (a : ArrayBase) : option (Z * ArrayBase) :=
  match n with
  | O => Some (e, a)
  | S n' =>
      a1 ← moveAssignElement e (e - 1) a;
      walk_down_loop n' (e - 1) a1
  end.

Definition moveInternal (currentIndex newIndex : Z) (a : ArrayBase)
  : option ArrayBase :=
  if trivially_copyable then
    tempCopy ← peek (elements a) currentIndex;
    m1 ← (if bool_decide (newIndex > currentIndex)
          then memmove currentIndex (currentIndex + 1)
                       (int_sub newIndex currentIndex) (elements a)
          else memmove (newIndex + 1) newIndex
                       (int_sub currentIndex newIndex) (elements a));
    m2 ← poke m1 newIndex tempCopy;
    Some (set_elements m2 a)
  else
    let e := currentIndex in
    tempCopy ← peek_live (elements a) e;
    m0 ← poke (elements a) e Moved;
    let delta := int_sub newIndex currentIndex in
    '(e, a1) ← (if bool_decide (delta > 0)
                then walk_up_loop (Z.to_nat delta) e (set_elements m0 a)
                else walk_down_loop (Z.to_nat (int_neg delta)) e
                                    (set_elements m0 a));
    moveAssignElementFromTemp e tempCopy a1.

Definition move (currentIndex newIndex : Z) (a : ArrayBase) : option ArrayBase :=
  if isPositiveAndBelow currentIndex (numUsed a) then
    let newIndex :=
      if negb (isPositiveAndBelow newIndex (numUsed a))
      then int_sub (numUsed a) 1 else newIndex in
    moveInternal currentIndex newIndex a
  else Some a.

(** ** Comparison *)

(** [ElementType]'s [operator==]. *)
Variable eqT : T → T → bool.

(** [for (auto& o : other) if (! (e[k++] == o)) return false; return true;]
    The result comes with the number of element comparisons the loop
    made before it returned. *)
Fixpoint equals_loop (e : Z) (other : list T) (m : list slot)
  : option (bool * nat) :=
  match other with
  | [] => Some (true, O)
  | o :: rest =>
      x ← peek m e;
      match x with
      | Obj v =>
          if eqT v o
          then '(r, c) ← equals_loop (e + 1) rest m; Some (r, S c)
          else Some (false, 1%nat)
      | _ => None
      end
  end.

(** [operator== (const OtherArrayType& other)], the other container
    being given by the sequence of its elements. *)
Definition operator_eq (a : ArrayBase) (other : list T) : option (bool * nat) :=
  if bool_decide (size a ≠ wrap (Z.of_nat (length other)))
  then Some (false, O)
  else equals_loop 0 other (elements a).

Definition operator_ne (a : ArrayBase) (other : list T) : option bool :=
  '(r, _) ← operator_eq a other; Some (negb r).

(** ** Sequences, as the specification describes the edits *)

(** Where [createInsertSpace] opens the gap: at the index asked for when
    it lies within the sequence, at the end otherwise. *)
Definition gap_index (indexToInsertAt len : Z) : Z :=
  if isPositiveAndBelow indexToInsertAt len then indexToInsertAt else len.

(** The index [move] moves to: the one asked for when it lies within the
    sequence, the last index otherwise. *)
Definition clamped_index (newIndex len : Z) : Z :=
  if isPositiveAndBelow newIndex len then newIndex else len - 1.

(** The sequence after its element at index [from] has been taken out
    and put back at index [to]. *)
Definition relocate (from to : nat) (l : list T) : list T :=
  match l !! from with
  | Some x => let rest := delete from l in take to rest ++ x :: drop to rest
  | None => l
  end.

(** The sequence with the elements at two valid indices exchanged. *)
Definition exchange (i j : nat) (l : list T) : list T :=
  match l !! i, l !! j with
  | Some x, Some y => <[j := x]> (<[i := y]> l)
  | _, _ => l
  end.

(** ** The sequence held by a container *)

(** [represents a l]: the container [a] holds the sequence [l].  The
    first [numUsed] cells of the block are live objects with the values
    of [l] in order, the block has [numAllocated] cells, and both
    counters are [int]s. *)
Definition represents (a : ArrayBase) (l : list T) : Prop :=
  numUsed a = Z.of_nat (length l)
  ∧ numAllocated a = Z.of_nat (length (elements a))
  ∧ numAllocated a ≤ INT_MAX
  ∧ take (length l) (elements a) = Obj <$> l.

(** The invariant [0 <= len <= capacity]. *)
Definition len_within_capacity (a : ArrayBase) : Prop :=
  0 ≤ size a ≤ capacity a.

(** ** Sequences of operations *)

Inductive operation : Type :=
  | Add (newElement : T)
  | AddPack (firstNewElement : T) (otherElements : list T)
  | AddArray (elementsToAdd : list T) (numElementsToAdd : Z)
  | AddArrayItems (items : list T)
  | AddArrayFrom (arrayToAddFrom : list T)
  | AddArrayRange (arrayToAddFrom : list T) (startIndex numElementsToAdd : Z)
  | Insert (indexToInsertAt : Z) (newElement : T) (numberOfTimesToInsertIt : Z)
  | InsertArray (indexToInsertAt : Z) (newElements : list T) (numberOfElements : Z)
  | RemoveElements (indexToRemoveAt numElementsToRemove : Z)
  | Swap (index1 index2 : Z)
  | Move (currentIndex newIndex : Z)
  | Clear
  | EnsureAllocatedSize (minNumElements : Z)
  | SetAllocatedSize (numElements : Z)
  | ShrinkToNoMoreThan (maxNumElements : Z).

Definition perform (o : operation) (a : ArrayBase) : option ArrayBase :=
  match o with
  | Add e => add e a
  | AddPack e es => add_pack e es a
  | AddArray src n => addArray src n a
  | AddArrayItems items => addArray_items items a
  | AddArrayFrom arr => addArray_from arr a
  | AddArrayRange arr start n => snd <$> addArray_range arr start n a
  | Insert i e n => insert i e n a
  | InsertArray i src n => insertArray i src n a
  | RemoveElements i n => removeElements i n a
  | Swap i j => swap i j a
  | Move i j => move i j a
  | Clear => clear a
  | EnsureAllocatedSize n => ensureAllocatedSize n a
  | SetAllocatedSize n => setAllocatedSize n a
  | ShrinkToNoMoreThan n => shrinkToNoMoreThan n a
  end.

(** The states after each operation of a sequence, in order. *)
Fixpoint run (ops : list operation) (a : ArrayBase) : option (list ArrayBase) :=
  match ops with
  | [] => Some []
  | o :: ops' =>
      a1 ← perform o a;
      rest ← run ops' a1;
      Some (a1 :: rest)
  end.

(** What each operation asks of its arguments in the state it is called
    in: counts are not negative and do not exceed the source they read,
    the range to remove lies within the sequence, a capacity is set or
    shrunk to no less than the length, the grown size is an [int], and
    a gap of no cells is not opened in the middle of non-trivially
    copyable elements. *)
Definition precondition (o : operation) (a : ArrayBase) : Prop :=
  let fits n := growth_fits (numAllocated a) (numUsed a + n) in
  let gap_ok i n :=
    n = 0 → trivially_copyable = false → isPositiveAndBelow i (numUsed a) = false in
  match o with
  | Add _ => fits 1
  | AddPack _ es => fits (1 + Z.of_nat (length es))
  | AddArray src n => 0 ≤ n ≤ Z.of_nat (length src) ∧ fits n
  | AddArrayItems items => fits (Z.of_nat (length items))
  | AddArrayFrom arr => fits (Z.of_nat (length arr))
  | AddArrayRange arr start n =>
      start ≤ Z.of_nat (length arr) ∧ Z.of_nat (length arr) ≤ INT_MAX
      ∧ n ≤ INT_MAX - Z.of_nat (length arr)
      ∧ fits (Z.of_nat (length arr) - Z.max 0 start)
  | Insert i _ n => 0 ≤ n ∧ fits n ∧ gap_ok i n
  | InsertArray i src n => 0 ≤ n ≤ Z.of_nat (length src) ∧ fits n ∧ gap_ok i n
  | RemoveElements i n => 0 ≤ i ∧ 0 ≤ n ∧ i + n ≤ numUsed a
  | Swap _ _ | Move _ _ | Clear => True
  | EnsureAllocatedSize n => growth_fits (numAllocated a) n
  | SetAllocatedSize n => numUsed a ≤ n ≤ INT_MAX
  | ShrinkToNoMoreThan n => n < numAllocated a → numUsed a ≤ n
  end.

(** Every operation of the sequence is called within its precondition,
    in the state the operations before it have led to. *)
Fixpoint admissible (ops : list operation) (a : ArrayBase) : Prop :=
  match ops with
  | [] => True
  | o :: ops' =>
      precondition o a
      ∧ match perform o a with
        | Some a1 => admissible ops' a1
        | None => True
        end
  end.

End ArrayBaseModel.

(** ** Reading elements, and containers as objects in a store *)

Section ArrayBaseObjects.

Context {T : Type}.

(** [ElementType()], the value the tolerant accessors fall back to. *)
Variable default_value : T.

(** Reading the value of [elements[index]]: the cell has to lie in the
    block and hold an object with a value. *)
Definition read_element (a : @ArrayBase T) (index : Z) : option T :=
  x ← peek (elements a) index;
  match x with Obj v => Some v | Raw | Moved => None end.

(** [operator[]]: [return elements[index];] *)
Definition operator_index (a : @ArrayBase T) (index : Z) : option T :=
  read_element a index.

Definition getValueWithDefault (a : @ArrayBase T) (index : Z) : option T :=
  if isPositiveAndBelow index (numUsed a)
  then read_element a index else Some default_value.

Definition getFirst (a : @ArrayBase T) : option T :=
  if bool_decide (numUsed a > 0) then read_element a 0 else Some default_value.

Definition getLast (a : @ArrayBase T) : option T :=
  if bool_decide (numUsed a > 0)
  then read_element a (int_sub (numUsed a) 1) else Some default_value.

(** The callers' loop [for (auto& e : es) array.add (e);]. *)
Fixpoint add_each (trivially_copyable : bool) (es : list T) (a : @ArrayBase T)
  : option (@ArrayBase T) :=
  match es with
  | [] => Some a
  | e :: es' => a1 ← add trivially_copyable e a; add_each trivially_copyable es' a1
  end.

(** Containers live at addresses; a reference to a container is its
    address, and two references may name the same container.  The trace
    of destructor calls stays with the object whose member functions
    made the calls. *)
Definition swap_members (a b : @ArrayBase T) : (@ArrayBase T) * (@ArrayBase T) :=
  (mkArrayBase (elements b) (numAllocated b) (numUsed b) (destructorCalls a),
   mkArrayBase (elements a) (numAllocated a) (numUsed a) (destructorCalls b)).

(** [swapWith (ArrayBase& other)]: [elements.swapWith (other.elements);
    std::swap (numAllocated, other.numAllocated);
    std::swap (numUsed, other.numUsed);] *)
Definition swapWith (this other : nat) (s : gmap nat (@ArrayBase T))
  : option (gmap nat (@ArrayBase T)) :=
  a ← s !! this;
  b ← s !! other;
  let '(a', b') := swap_members a b in
  Some (<[other := b']> (<[this := a']> s)).

(** Modelled from the spec: the move constructor of [HeapBlock]
    (juce_HeapBlock.h, not part of the sources at hand) hands the block
    over and leaves the source with none.

    [ArrayBase (ArrayBase&& other)]: the new object and what is left of
    [other]. *)
Definition move_constructed (other : @ArrayBase T) : (@ArrayBase T) * (@ArrayBase T) :=
  (mkArrayBase (elements other) (numAllocated other) (numUsed other) [],
   mkArrayBase HeapBlock_free 0 0 (destructorCalls other)).

(** [~ArrayBase()]: [clear();], then the block is released with the
    [HeapBlock] member.  Returns the object as it was left. *)
Definition destructor (a : @ArrayBase T) : option (@ArrayBase T) :=
  a1 ← clear a;
  Some (set_elements HeapBlock_free a1).

(** [operator= (ArrayBase&& other)]: [if (this != &other)
    { auto tmp (std::move (other)); swapWith (tmp); }].  The local [tmp]
    is not in the store; it is returned as its destructor left it. *)
Definition move_assign (this other : nat) (s : gmap nat (@ArrayBase T))
  : option (gmap nat (@ArrayBase T) * option (@ArrayBase T)) :=
  if bool_decide (this ≠ other) then
    b ← s !! other;
    let '(tmp, b') := move_constructed b in
    let s1 := <[other := b']> s in
    a ← s1 !! this;
    let '(a', tmp') := swap_members a tmp in
    tmp'' ← destructor tmp';
    Some (<[this := a']> s1, Some tmp'')
  else Some (s, None).

(** ** The operations on the sequence a container holds *)

(** The number of elements [addArray (arrayToAddFrom, startIndex,
    numElementsToAdd)] takes from an array of [size] elements. *)
Definition clipped_count (size startIndex numElementsToAdd : Z) : Z :=
  let start := Z.max 0 startIndex in
  if bool_decide (numElementsToAdd < 0 ∨ size < start + numElementsToAdd)
  then size - start else numElementsToAdd.

(** What each operation does to the sequence. *)
Definition effect (o : @operation T) (l : list T) : list T :=
  let len := Z.of_nat (length l) in
  match o with
  | Add e => l ++ [e]
  | AddPack e es => l ++ e :: es
  | AddArray src n => l ++ take (Z.to_nat n) src
  | AddArrayItems items => l ++ items
  | AddArrayFrom arr => l ++ arr
  | AddArrayRange arr start n =>
      l ++ take (Z.to_nat (clipped_count (Z.of_nat (length arr)) start n))
                (drop (Z.to_nat start) arr)
  | Insert i e n =>
      let g := Z.to_nat (gap_index i len) in
      take g l ++ replicate (Z.to_nat n) e ++ drop g l
  | InsertArray i src n =>
      let g := Z.to_nat (gap_index i len) in
      take g l ++ take (Z.to_nat n) src ++ drop g l
  | RemoveElements i n => take (Z.to_nat i) l ++ drop (Z.to_nat (i + n)) l
  | Swap i j =>
      if isPositiveAndBelow i len && isPositiveAndBelow j len
      then exchange (Z.to_nat i) (Z.to_nat j) l else l
  | Move i j =>
      if isPositiveAndBelow i len
      then relocate (Z.to_nat i) (Z.to_nat (clamped_index j len)) l else l
  | Clear => []
  | EnsureAllocatedSize _ | SetAllocatedSize _ | ShrinkToNoMoreThan _ => l
  end.

(** The sequences after each operation of a list of operations. *)
Fixpoint sequences_after (ops : list (@operation T)) (l : list T)
  : list (list T) :=
  match ops with
  | [] => []
  | o :: ops' => effect o l :: sequences_after ops' (effect o l)
  end.

(** An operation that may lower the capacity. *)
Definition sets_capacity (o : @operation T) : bool :=
  match o with
  | SetAllocatedSize _ | ShrinkToNoMoreThan _ => true
  | _ => false
  end.

(** The fields an operation on the cells leaves alone. *)
Definition same_fields (a a' : @ArrayBase T) : Prop :=
  numAllocated a' = numAllocated a ∧ numUsed a' = numUsed a.

(** No cell outside the sequence holds an object. *)
Definition tail_is_raw (a : @ArrayBase T) : Prop :=
  drop (Z.to_nat (numUsed a)) (elements a)
    = replicate (length (elements a) - Z.to_nat (numUsed a)) Raw.

End ArrayBaseObjects.

(** ** The playback renderer of the sample project

    [ARASampleProjectPlaybackRenderer] (examples/ARA/ARASampleProject/
    Source/ARASampleProjectPlaybackRenderer.cpp).  [ARASamplePosition] is
    a 64-bit integer. *)

Definition wrap64 (z : Z) : Z :=
  (z + 9223372036854775808) `mod` 18446744073709551616 - 9223372036854775808.

Definition i64_add (a b : Z) : Z := wrap64 (a + b).
Definition i64_sub (a b : Z) : Z := wrap64 (a - b).

Section PlaybackRenderer.

Context {Rate Reader : Type}.

(** [!=] on sample rates. *)
Variable rate_ne : Rate → Rate → bool.

(** Modelled from the spec: the classes of the ARA library are not part
    of the sources at hand.  An audio source and a playback region are
    given by the values their getters return, the positions of a region
    in the song being those at the sample rate of the renderer; a sample
    rate is a value of a type with the comparison [!=]; objects are told
    apart by their addresses. *)
Record AudioSource : Type := mkAudioSource {
  sourceAddress : nat;
  getSampleCount : Z;
  isSampleAccessEnabled : bool;
  getChannelCount : Z;
  getSampleRate : Rate
}.

(** Modelled from the spec: [ARA::PlugIn::PlaybackRegion], by its
    getters; [getAudioSource] stands for
    [getAudioModification()->getAudioSource()]. *)
Record PlaybackRegion : Type := mkPlaybackRegion {
  regionAddress : nat;
  getAudioSource : AudioSource;
  getStartInPlaybackSamples : Z;
  getEndInPlaybackSamples : Z;
  getStartInAudioModificationSamples : Z;
  getEndInAudioModificationSamples : Z
}.

(** What one region makes [processBlock] ask of the reader of its audio
    source: [AudioSourceChannelInfo (&buffer, startSample, numSamples)],
    after [setNextReadPosition (nextReadPosition)]. *)
Record ReadRequest : Type := mkReadRequest {
  readerOf : nat;
  startSample : Z;
  numSamples : Z;
  nextReadPosition : Z
}.

(** The body of the loop over the playback regions; [None] is
    [continue]. *)
Definition region_request (audioSourceReaders : gmap nat Reader)
    (numChannels : Z) (sampleRate : Rate) (sampleStart sampleEnd : Z)
    (playbackRegion : PlaybackRegion) : option ReadRequest :=
  let audioSource := getAudioSource playbackRegion in
  if bool_decide (audioSourceReaders !! sourceAddress audioSource = None) then None
  else if negb (isSampleAccessEnabled audioSource) then None
  else if bool_decide (getChannelCount audioSource ≠ numChannels)
          || rate_ne (getSampleRate audioSource) sampleRate then None
  else
    let regionStartSample := getStartInPlaybackSamples playbackRegion in
    if bool_decide (sampleEnd ≤ regionStartSample) then None
    else
      let regionEndSample := getEndInPlaybackSamples playbackRegion in
      if bool_decide (regionEndSample ≤ sampleStart) then None
      else
        let startSongSample := Z.max regionStartSample sampleStart in
        let endSongSample := Z.min regionEndSample sampleEnd in
        let offsetToPlaybackRegion :=
          i64_sub (getStartInAudioModificationSamples playbackRegion)
                  regionStartSample in
        let startAvailableSourceSamples :=
          Z.max 0 (getStartInAudioModificationSamples playbackRegion) in
        let endAvailableSourceSamples :=
          Z.min (getSampleCount audioSource)
                (getEndInAudioModificationSamples playbackRegion) in
        let startSongSample :=
          Z.max startSongSample
                (i64_sub startAvailableSourceSamples offsetToPlaybackRegion) in
        let endSongSample :=
          Z.min endSongSample
                (i64_sub endAvailableSourceSamples offsetToPlaybackRegion) in
        Some (mkReadRequest
                (sourceAddress audioSource)
                (wrap (i64_sub startSongSample sampleStart))
                (wrap (i64_sub endSongSample startSongSample))
                (i64_add startSongSample offsetToPlaybackRegion)).

(** Sample positions for which the 64-bit arithmetic of [processBlock]
    does not wrap around. *)
Definition in_song_range (z : Z) : Prop := - 2 ^ 60 ≤ z ≤ 2 ^ 60.

(** A region that plays a part of its audio source as it is, without
    time stretching: the range in the audio modification lies within the
    samples of the source and is as long as the range in the song. *)
Definition plays_unstretched (playbackRegion : PlaybackRegion) : Prop :=
  0 ≤ getStartInAudioModificationSamples playbackRegion
  ∧ getEndInAudioModificationSamples playbackRegion
    ≤ getSampleCount (getAudioSource playbackRegion)
  ∧ getStartInPlaybackSamples playbackRegion
    < getEndInPlaybackSamples playbackRegion
  ∧ getEndInAudioModificationSamples playbackRegion
    - getStartInAudioModificationSamples playbackRegion
    = getEndInPlaybackSamples playbackRegion
      - getStartInPlaybackSamples playbackRegion
  ∧ in_song_range (getStartInPlaybackSamples playbackRegion)
  ∧ in_song_range (getEndInPlaybackSamples playbackRegion)
  ∧ getSampleCount (getAudioSource playbackRegion) ≤ 2 ^ 60.

(** What [processBlock] does to the buffer: it clears every channel, or
    it lets the readers fill in the requests, in the order of the
    regions. *)
Inductive rendering : Type :=
  | Cleared
  | Reads (requests : list ReadRequest).

Definition processBlock (audioSourceReaders : gmap nat Reader)
    (playbackRegions : list PlaybackRegion)
    (numChannels numSamplesInBuffer : Z) (sampleRate : Rate)
    (timeInSamples : Z) (isPlayingBack : bool) : rendering :=
  if negb isPlayingBack then Cleared
  else
    let sampleStart := timeInSamples in
    let sampleEnd := i64_add timeInSamples numSamplesInBuffer in
    Reads (omap (region_request audioSourceReaders numChannels sampleRate
                                sampleStart sampleEnd) playbackRegions).

(** [createBufferingAudioSourceReader] of the document controller and
    [prepareToPlay] of the reader, with [getMaxSamplesPerBlock()]. *)
Variable createBufferingAudioSourceReader : AudioSource → Z → Reader.
Variable prepareToPlay : Z → Rate → Reader → Reader.
Variable maxSamplesPerBlock : Z.

Definition didAddPlaybackRegion (playbackRegion : PlaybackRegion)
    (audioSourceReaders : gmap nat Reader) : gmap nat Reader :=
  let audioSource := getAudioSource playbackRegion in
  if bool_decide (audioSourceReaders !! sourceAddress audioSource = None) then
    let emplaced :=
      <[sourceAddress audioSource :=
          createBufferingAudioSourceReader audioSource maxSamplesPerBlock]>
        audioSourceReaders in
    alter (prepareToPlay maxSamplesPerBlock (getSampleRate audioSource))
          (sourceAddress audioSource) emplaced
  else audioSourceReaders.

(** The loop of [willRemovePlaybackRegion]: does another region of the
    renderer use the audio source? *)
Fixpoint shares_audio_source (playbackRegion : PlaybackRegion)
    (playbackRegions : list PlaybackRegion) : bool :=
  match playbackRegions with
  | [] => false
  | otherPlaybackRegion :: rest =>
      if bool_decide (regionAddress playbackRegion
                      ≠ regionAddress otherPlaybackRegion)
         && bool_decide (sourceAddress (getAudioSource otherPlaybackRegion)
                         = sourceAddress (getAudioSource playbackRegion))
      then true
      else shares_audio_source playbackRegion rest
  end.

(** [playbackRegions] is [getPlaybackRegions()], which still has the
    region that is about to go. *)
Definition willRemovePlaybackRegion (playbackRegion : PlaybackRegion)
    (playbackRegions : list PlaybackRegion)
    (audioSourceReaders : gmap nat Reader) : gmap nat Reader :=
  if shares_audio_source playbackRegion playbackRegions
  then audioSourceReaders
  else delete (sourceAddress (getAudioSource playbackRegion)) audioSourceReaders.

(** The audio sources with a reader are the audio sources of the
    regions of the renderer. *)
Definition readers_match (playbackRegions : list PlaybackRegion)
    (audioSourceReaders : gmap nat Reader) : Prop :=
  ∀ address,
    is_Some (audioSourceReaders !! address)
    ↔ ∃ playbackRegion, playbackRegion ∈ playbackRegions
        ∧ sourceAddress (getAudioSource playbackRegion) = address.

(** Regions are objects: two regions at the same address are the same
    region. *)
Definition told_apart_by_address (playbackRegions : list PlaybackRegion)
  : Prop :=
  ∀ r1 r2, r1 ∈ playbackRegions → r2 ∈ playbackRegions →
    regionAddress r1 = regionAddress r2 → r1 = r2.

End PlaybackRenderer.

(** ** An audio source and two of its regions, used in the examples

    Sample rates are given in Hz, readers by a number. *)

Definition rate_differs (a b : Z) : bool := negb (a =? b).

Definition source_of_1000_samples : @AudioSource Z :=
  mkAudioSource 7 1000 true 2 44100.

(** Samples 50 to 250 of the source, played at samples 100 to 300 of the
    song. *)
Definition region_at_100 : @PlaybackRegion Z :=
  mkPlaybackRegion 1 source_of_1000_samples 100 300 50 250.

(** Samples 0 to 100 of the source, played at samples 400 to 500. *)
Definition region_at_400 : @PlaybackRegion Z :=
  mkPlaybackRegion 2 source_of_1000_samples 400 500 0 100.

(** ** Containers of integers used in the examples *)

(** The container the scenario of the specification reaches with
    [add (1); add (2); add (3); insert (1, 9, 1)]. *)
Definition scenario_1923 : @ArrayBase Z :=
  mkArrayBase [Obj 1; Obj 9; Obj 2; Obj 3; Raw; Raw; Raw; Raw] 8 4 [].

(** A container holding [1, 2, 3]. *)
Definition holding_123 : @ArrayBase Z :=
  mkArrayBase [Obj 1; Obj 2; Obj 3; Raw; Raw; Raw; Raw; Raw] 8 3 [].

(** A container holding the single element [5]. *)
Definition holding_5 : @ArrayBase Z :=
  mkArrayBase [Obj 5; Raw; Raw; Raw; Raw; Raw; Raw; Raw] 8 1 [].

(** An element type whose [operator==] is not reflexive, as that of
    [float] and [double] is not: [None] stands for a NaN, which differs
    from every value and from itself. *)
Definition eq_with_nan (x y : option Z) : bool :=
  match x, y with
  | Some u, Some v => u =? v
  | _, _ => false
  end.

(** A container holding a single NaN. *)
Definition holding_nan : @ArrayBase (option Z) :=
  mkArrayBase [Obj None; Raw; Raw; Raw; Raw; Raw; Raw; Raw] 8 1 [].

(** * Proof automation *)

(** [reduce_state] evaluates field updates and the bind of the option
    monad, [same_list] proves two arrangements of the same appended
    lists equal, [norm_length] pushes [length] through list operations,
    and [holds_sequence] proves [represents] for a concrete container. *)

Ltac reduce_state :=
  unfold set_elements, set_numUsed, set_numAllocated;
  cbn [elements numAllocated numUsed destructorCalls mbind option_bind].

Ltac same_list :=
  repeat (progress (rewrite <- ?app_assoc, ?fmap_app, ?fmap_cons; cbn [app]));
  reflexivity.

Ltac norm_length :=
  repeat (progress (rewrite ?length_app, ?length_fmap, ?length_replicate,
                            ?length_take, ?length_drop; cbn [length])).

Ltac holds_sequence :=
  unfold represents; cbn; unfold INT_MAX; repeat split; lia.

(** * Arithmetic on [int]s *)

Lemma wrap_id z : INT_MIN ≤ z ≤ INT_MAX → wrap z = z.
Proof.
  unfold wrap, INT_MIN, INT_MAX. intros H.
  rewrite Z.mod_small; lia.
Qed.

Lemma land_not7 x : int_and_not7 x = round_down_to_multiple_of_8 x.
Proof.
  unfold int_and_not7, round_down_to_multiple_of_8.
  change 8 with (2 ^ 3) at 1 2. rewrite Z.mul_comm.
  rewrite <- Z.shiftr_div_pow2, <- Z.shiftl_mul_pow2 by lia.
  apply Z.bits_inj'. intros n Hn.
  rewrite Z.land_spec, Z.lnot_spec, Z.shiftl_spec by lia.
  change 7 with (Z.ones 3). rewrite Z.testbit_ones_nonneg by lia.
  destruct (Z.ltb_spec n 3).
  - rewrite (Z.testbit_neg_r _ (n - 3)) by lia. simpl. apply andb_false_r.
  - rewrite Z.shiftr_spec by lia. simpl. rewrite andb_true_r. f_equal. lia.
Qed.

Lemma grown_size m :
  0 ≤ m → m + m ÷ 2 + 8 ≤ INT_MAX →
  int_and_not7 (int_add (int_add m (int_div m 2)) 8)
    = round_down_to_multiple_of_8 (m + m ÷ 2 + 8).
Proof.
  intros H0 H1. rewrite land_not7. unfold int_add, int_div.
  assert (0 ≤ m ÷ 2 ≤ m) by (rewrite Z.quot_div_nonneg by lia; split; [apply Z.div_pos; lia| apply Z.div_le_upper_bound; lia]).
  unfold INT_MAX in *.
  rewrite (wrap_id (m ÷ 2)) by (unfold INT_MIN, INT_MAX; lia).
  rewrite (wrap_id (m + _)) by (unfold INT_MIN, INT_MAX; lia).
  rewrite wrap_id by (unfold INT_MIN, INT_MAX; lia). done.
Qed.

Lemma round_down_bounds x :
  x - 8 < round_down_to_multiple_of_8 x ≤ x.
Proof.
  unfold round_down_to_multiple_of_8.
  pose proof (Z.div_mod x 8 ltac:(lia)). pose proof (Z.mod_pos_bound x 8 ltac:(lia)). lia.
Qed.

(** * Cells of a block

    The block is always split as [A ++ x :: R] around the cell at
    offset [length A]; the lemmas say what each access does there. *)

Section Cells.
Context {T : Type}.
Implicit Types (m A B M R : list (@slot T)) (x y : @slot T) (i : Z).

Lemma in_block_mid A x R i :
  i = Z.of_nat (length A) → in_block (A ++ x :: R) i = true.
Proof.
  intros ->. unfold in_block. apply bool_decide_eq_true_2.
  rewrite length_app. simpl. lia.
Qed.

Lemma peek_mid A x R i :
  i = Z.of_nat (length A) → peek (A ++ x :: R) i = Some x.
Proof.
  intros Hi. unfold peek. rewrite in_block_mid by done. subst i.
  rewrite Nat2Z.id. apply list_lookup_middle. done.
Qed.

Lemma poke_mid A x R i y :
  i = Z.of_nat (length A) → poke (A ++ x :: R) i y = Some (A ++ y :: R).
Proof.
  intros Hi. unfold poke. rewrite in_block_mid by done. subst i.
  rewrite Nat2Z.id. f_equal.
  rewrite insert_app_r_alt by lia. by rewrite Nat.sub_diag.
Qed.

Lemma peek_live_mid A x R i :
  i = Z.of_nat (length A) → is_live x = true →
  peek_live (A ++ x :: R) i = Some x.
Proof.
  intros Hi Hx. unfold peek_live. rewrite peek_mid by done. simpl. by rewrite Hx.
Qed.

Lemma construct_at_mid A x R i v c u lg :
  i = Z.of_nat (length A) →
  construct_at i v (mkArrayBase (A ++ x :: R) c u lg)
    = Some (mkArrayBase (A ++ Obj v :: R) c u lg).
Proof. intros Hi. unfold construct_at. simpl. by rewrite poke_mid. Qed.

Lemma destroy_at_mid A x R i c u lg :
  i = Z.of_nat (length A) → is_live x = true →
  destroy_at i (mkArrayBase (A ++ x :: R) c u lg)
    = Some (mkArrayBase (A ++ Raw :: R) c u (lg ++ [i])).
Proof.
  intros Hi Hx. unfold destroy_at. simpl.
  rewrite peek_live_mid by done. simpl. by rewrite poke_mid.
Qed.

(** Moving an object to a cell further up the block. *)
Lemma move_construct_at_up A x M y R dst src c u lg :
  src = Z.of_nat (length A) → dst = Z.of_nat (length A + 1 + length M) →
  is_live x = true →
  move_construct_at dst src (mkArrayBase (A ++ x :: M ++ y :: R) c u lg)
    = Some (mkArrayBase (A ++ Moved :: M ++ x :: R) c u lg).
Proof.
  intros Hs Hd Hx. unfold move_construct_at. simpl.
  rewrite peek_live_mid by done. simpl.
  replace (A ++ x :: M ++ y :: R) with ((A ++ x :: M) ++ y :: R)
    by (by rewrite <- app_assoc).
  rewrite poke_mid by (rewrite length_app; simpl; lia). simpl.
  rewrite <- !app_assoc. simpl. by rewrite poke_mid.
Qed.

(** Moving an object to a cell further down the block. *)
Lemma move_construct_at_down A y M x R dst src c u lg :
  dst = Z.of_nat (length A) → src = Z.of_nat (length A + 1 + length M) →
  is_live x = true →
  move_construct_at dst src (mkArrayBase (A ++ y :: M ++ x :: R) c u lg)
    = Some (mkArrayBase (A ++ x :: M ++ Moved :: R) c u lg).
Proof.
  intros Hd Hs Hx. unfold move_construct_at. simpl.
  replace (A ++ y :: M ++ x :: R) with ((A ++ y :: M) ++ x :: R)
    by (by rewrite <- app_assoc).
  rewrite peek_live_mid by (try done; rewrite length_app; simpl; lia). simpl.
  rewrite <- !app_assoc. simpl. rewrite poke_mid by done. simpl.
  replace (A ++ x :: M ++ x :: R) with ((A ++ x :: M) ++ x :: R)
    by (by rewrite <- app_assoc).
  rewrite poke_mid by (rewrite length_app; simpl; lia).
  by rewrite <- !app_assoc.
Qed.

Lemma moveAssignElement_up ma A x M y R dst src c u lg :
  src = Z.of_nat (length A) → dst = Z.of_nat (length A + 1 + length M) →
  is_live x = true → is_live y = true →
  ∃ lg', moveAssignElement ma dst src (mkArrayBase (A ++ x :: M ++ y :: R) c u lg)
    = Some (mkArrayBase (A ++ Moved :: M ++ x :: R) c u lg').
Proof.
  intros Hs Hd Hx Hy. unfold moveAssignElement. destruct ma.
  - exists lg. unfold move_assign_at. simpl.
    replace (A ++ x :: M ++ y :: R) with ((A ++ x :: M) ++ y :: R)
      by (by rewrite <- app_assoc).
    rewrite peek_live_mid by (try done; rewrite length_app; simpl; lia). simpl.
    rewrite <- !app_assoc. simpl. by apply move_construct_at_up.
  - exists (lg ++ [dst]).
    replace (A ++ x :: M ++ y :: R) with ((A ++ x :: M) ++ y :: R)
      by (by rewrite <- app_assoc).
    rewrite destroy_at_mid by (try done; rewrite length_app; simpl; lia). simpl.
    rewrite <- !app_assoc. simpl. by apply move_construct_at_up.
Qed.

Lemma moveAssignElement_down ma A y M x R dst src c u lg :
  dst = Z.of_nat (length A) → src = Z.of_nat (length A + 1 + length M) →
  is_live x = true → is_live y = true →
  ∃ lg', moveAssignElement ma dst src (mkArrayBase (A ++ y :: M ++ x :: R) c u lg)
    = Some (mkArrayBase (A ++ x :: M ++ Moved :: R) c u lg').
Proof.
  intros Hd Hs Hx Hy. unfold moveAssignElement. destruct ma.
  - exists lg. unfold move_assign_at. simpl.
    rewrite peek_live_mid by done. simpl. by apply move_construct_at_down.
  - exists (lg ++ [dst]).
    rewrite destroy_at_mid by done. simpl. by apply move_construct_at_down.
Qed.

Lemma moveAssignElementFromTemp_mid ma A y R dst x c u lg :
  dst = Z.of_nat (length A) → is_live y = true →
  ∃ lg', moveAssignElementFromTemp ma dst x (mkArrayBase (A ++ y :: R) c u lg)
    = Some (mkArrayBase (A ++ x :: R) c u lg').
Proof.
  intros Hd Hy. unfold moveAssignElementFromTemp. destruct ma; simpl.
  - exists lg. rewrite peek_live_mid by done. simpl. by rewrite poke_mid.
  - exists (lg ++ [dst]). rewrite destroy_at_mid by done. simpl.
    by rewrite poke_mid.
Qed.

(** A block move toward the front of the block: the moved cells [B] land
    right after [A]; the cells behind them keep what they held. *)
Lemma memmove_down A D B R dst src n :
  dst = Z.of_nat (length A) → src = Z.of_nat (length A + length D) →
  n = Z.of_nat (length B) →
  ∃ D', length D' = length D ∧
        memmove dst src n (A ++ D ++ B ++ R) = Some (A ++ B ++ D' ++ R).
Proof.
  intros -> -> ->. exists (drop (length B) (D ++ B)). split.
  { rewrite length_drop, length_app. lia. }
  unfold memmove. rewrite bool_decide_eq_true_2
    by (rewrite !length_app; lia).
  f_equal. rewrite !Nat2Z.id, take_app_length. f_equal.
  replace (A ++ D ++ B ++ R) with ((A ++ D) ++ B ++ R) at 1
    by (by rewrite <- !app_assoc).
  rewrite drop_app_length' by (rewrite length_app; lia).
  rewrite take_app_length. f_equal.
  replace (Z.to_nat (Z.of_nat (length A) + Z.of_nat (length B)))
    with (length A + length B)%nat by lia.
  rewrite <- drop_drop, drop_app_length.
  rewrite (app_assoc D B R), drop_app_le by (rewrite length_app; lia). done.
Qed.

(** A block move toward the back of the block: the moved cells [B] land
    right before [R]; the cells they leave keep what they held. *)
Lemma memmove_up A B X R dst src n :
  src = Z.of_nat (length A) → dst = Z.of_nat (length A + length X) →
  n = Z.of_nat (length B) →
  ∃ X', length X' = length X ∧
        memmove dst src n (A ++ B ++ X ++ R) = Some (A ++ X' ++ B ++ R).
Proof.
  intros -> -> ->. exists (take (length X) (B ++ X)). split.
  { rewrite length_take, length_app. lia. }
  unfold memmove. rewrite bool_decide_eq_true_2
    by (rewrite !length_app; lia).
  f_equal. rewrite !Nat2Z.id, drop_app_length, take_app_length.
  replace (Z.to_nat (Z.of_nat (length A + length X) + Z.of_nat (length B)))
    with (length A + (length B + length X))%nat by lia.
  rewrite <- drop_drop, drop_app_length.
  rewrite (app_assoc B X R), drop_app_length' by (rewrite length_app; lia).
  rewrite take_app_add' by done.
  rewrite take_app_le by (rewrite length_app; lia).
  by rewrite <- !app_assoc.
Qed.

End Cells.

(** * The loops of the class

    One lemma per loop, by induction on the cells the loop walks over,
    with the block split around them. *)

Section Loops.
Context {T : Type}.
Implicit Types (m A B G M R X D : list (@slot T)) (x y : @slot T) (i : Z).

Lemma seqZ_succ i (n : nat) :
  seqZ i (Z.of_nat (S n)) = i :: seqZ (i + 1) (Z.of_nat n).
Proof.
  rewrite seqZ_cons by lia. f_equal. f_equal; lia.
Qed.

Lemma Forall_live_cons x B : Forall live (x :: B) → live x ∧ Forall live B.
Proof. intros H. by inversion H. Qed.

Lemma Forall_live_snoc B x : Forall live (B ++ [x]) → Forall live B ∧ live x.
Proof.
  induction B as [|b B IH]; simpl; intros H.
  - by inversion H.
  - inversion H; subst. destruct IH as [? ?]; [done|]. split; [by constructor|done].
Qed.

Lemma Forall_live_snoc_2 B x : Forall live B → live x → Forall live (B ++ [x]).
Proof. induction 1; simpl; intros; by repeat constructor || auto. Qed.

Lemma destroy_loop_spec B : ∀ A R i c u lg,
  i = Z.of_nat (length A) → Forall live B →
  destroy_loop (length B) i (mkArrayBase (A ++ B ++ R) c u lg)
    = Some (mkArrayBase (A ++ replicate (length B) Raw ++ R) c u
                        (lg ++ seqZ i (Z.of_nat (length B)))).
Proof.
  induction B as [|x B IH]; intros A R i c u lg Hi HB.
  - simpl. by rewrite app_nil_r.
  - apply Forall_live_cons in HB as [Hx HB]. cbn [destroy_loop length app].
    rewrite destroy_at_mid by done. cbn [mbind option_bind].
    replace (A ++ Raw :: B ++ R) with ((A ++ [Raw]) ++ B ++ R)
      by same_list.
    rewrite IH by (try done; rewrite length_app; simpl; lia).
    rewrite seqZ_succ. by rewrite <- !app_assoc.
Qed.

Lemma fill_loop_spec v G : ∀ A R i c u lg,
  i = Z.of_nat (length A) →
  fill_loop (length G) i v (mkArrayBase (A ++ G ++ R) c u lg)
    = Some (mkArrayBase (A ++ replicate (length G) (Obj v) ++ R) c u lg).
Proof.
  induction G as [|x G IH]; intros A R i c u lg Hi.
  - done.
  - cbn [fill_loop length app].
    rewrite construct_at_mid by done. cbn [mbind option_bind].
    replace (A ++ Obj v :: G ++ R) with ((A ++ [Obj v]) ++ G ++ R)
      by same_list.
    rewrite IH by (rewrite length_app; simpl; lia).
    by rewrite <- !app_assoc.
Qed.

Lemma copy_construct_loop_spec G : ∀ (src : list T) A R i c u lg,
  i = Z.of_nat (length A) → (length G ≤ length src)%nat →
  copy_construct_loop (length G) i src (mkArrayBase (A ++ G ++ R) c u lg)
    = Some (mkArrayBase (A ++ (Obj <$> take (length G) src) ++ R) c u lg).
Proof.
  induction G as [|x G IH]; intros src A R i c u lg Hi Hlen.
  - done.
  - destruct src as [|e src]; [simpl in Hlen; lia|].
    cbn [copy_construct_loop length app].
    rewrite construct_at_mid by done. cbn [mbind option_bind].
    replace (A ++ Obj e :: G ++ R) with ((A ++ [Obj e]) ++ G ++ R)
      by same_list.
    rewrite IH by (try (rewrite length_app; simpl; lia); simpl in Hlen; lia).
    by rewrite <- !app_assoc.
Qed.

Lemma addAssumingCapacityIsReady_spec (e : T) A x R c u lg :
  u = Z.of_nat (length A) → u + 1 ≤ INT_MAX →
  addAssumingCapacityIsReady e (mkArrayBase (A ++ x :: R) c u lg)
    = Some (mkArrayBase (A ++ Obj e :: R) c (u + 1) lg).
Proof.
  intros Hu Hmax. unfold addAssumingCapacityIsReady. cbn [numUsed].
  rewrite construct_at_mid by done. reduce_state.
  unfold int_add. by rewrite wrap_id by (unfold INT_MIN; lia).
Qed.

Lemma addAssumingCapacityIsReady_pack_spec (es : list T) : ∀ G A R c u lg,
  u = Z.of_nat (length A) → length G = length es →
  u + Z.of_nat (length es) ≤ INT_MAX →
  addAssumingCapacityIsReady_pack es (mkArrayBase (A ++ G ++ R) c u lg)
    = Some (mkArrayBase (A ++ (Obj <$> es) ++ R) c
                        (u + Z.of_nat (length es)) lg).
Proof.
  induction es as [|e es IH]; intros G A R c u lg Hu Hlen Hmax.
  - destruct G; [|done]. simpl. by rewrite Z.add_0_r.
  - destruct G as [|x G]; [done|]. cbn [length] in Hlen, Hmax.
    cbn [addAssumingCapacityIsReady_pack app].
    rewrite addAssumingCapacityIsReady_spec by lia. cbn [mbind option_bind].
    replace (A ++ Obj e :: G ++ R) with ((A ++ [Obj e]) ++ G ++ R) by same_list.
    rewrite IH; [| rewrite length_app; cbn [length]; lia | lia | lia].
    rewrite <- !app_assoc. cbn [app fmap list_fmap length]. do 2 f_equal. lia.
Qed.

Lemma relocate_loop_spec B : ∀ A R NA G NR i c u lg,
  i = Z.of_nat (length A) → length NA = length A → length G = length B →
  Forall live B →
  relocate_loop (length B) i (NA ++ G ++ NR) (mkArrayBase (A ++ B ++ R) c u lg)
    = Some (NA ++ B ++ NR,
            mkArrayBase (A ++ replicate (length B) Raw ++ R) c u
                        (lg ++ seqZ i (Z.of_nat (length B)))).
Proof.
  induction B as [|x B IH]; intros A R NA G NR i c u lg Hi HNA HG HB.
  - destruct G; [|done]. simpl. by rewrite app_nil_r.
  - destruct G as [|g G]; [done|]. simpl in HG.
    apply Forall_live_cons in HB as [Hx HB].
    cbn [relocate_loop length app elements].
    rewrite peek_live_mid by done. cbn [mbind option_bind].
    rewrite poke_mid by lia. cbn [mbind option_bind].
    rewrite poke_mid by lia. cbn [mbind option_bind].
    unfold set_elements. cbn [numAllocated numUsed destructorCalls].
    rewrite destroy_at_mid by done. cbn [mbind option_bind].
    replace (A ++ Raw :: B ++ R) with ((A ++ [Raw]) ++ B ++ R)
      by same_list.
    replace (NA ++ x :: G ++ NR) with ((NA ++ [x]) ++ G ++ NR)
      by same_list.
    rewrite IH; [| rewrite length_app; simpl; lia | rewrite !length_app; simpl; lia | lia | done].
    rewrite seqZ_succ. by rewrite <- !app_assoc.
Qed.

(** Opening a gap for non-trivially-copyable elements, back to front. *)
Lemma shift_right_loop_spec B : ∀ A X R e ne c u lg,
  e = Z.of_nat (length A + length B) →
  ne = Z.of_nat (length A + length B + length X) →
  X ≠ [] → Forall live B →
  ∃ X' lg', length X' = length X ∧
    shift_right_loop (length B) e ne (mkArrayBase (A ++ B ++ X ++ R) c u lg)
      = Some (mkArrayBase (A ++ X' ++ B ++ R) c u lg').
Proof.
  induction B as [|b B IH] using rev_ind; intros A X R e ne c u lg He Hne HX HB.
  - exists X, lg. done.
  - destruct (exists_last HX) as (X0 & x & ->). clear HX.
    apply Forall_live_snoc in HB as [HB Hb].
    replace (length (B ++ [b])) with (S (length B)) by (rewrite length_app; simpl; lia).
    cbn [shift_right_loop].
    replace (A ++ (B ++ [b]) ++ (X0 ++ [x]) ++ R)
      with ((A ++ B) ++ b :: X0 ++ x :: R) by same_list.
    rewrite !length_app in He. rewrite !length_app in Hne. cbn [length] in He, Hne.
    rewrite move_construct_at_up; [| rewrite length_app; lia | rewrite length_app; lia | done].
    cbn [mbind option_bind].
    rewrite destroy_at_mid by (try done; rewrite length_app; lia).
    cbn [mbind option_bind].
    replace ((A ++ B) ++ Raw :: X0 ++ b :: R)
      with (A ++ B ++ (Raw :: X0) ++ (b :: R)) by same_list.
    destruct (IH A (Raw :: X0) (b :: R) (e - 1) (ne - 1) c u (lg ++ [e - 1]))
      as (X' & lg' & HX' & Hrun); [lia | simpl; lia | done | done |].
    exists X', lg'. split.
    + rewrite HX', length_app. simpl. lia.
    + rewrite Hrun. by rewrite <- !app_assoc.
Qed.

(** Closing a gap for non-trivially-copyable elements, front to back. *)
Lemma shift_left_loop_spec ma B : ∀ A D R dst src c u lg,
  dst = Z.of_nat (length A) → src = Z.of_nat (length A + length D) →
  D ≠ [] → Forall live D → Forall live B →
  ∃ D' lg', length D' = length D ∧ Forall live D' ∧
    shift_left_loop ma (length B) dst src (mkArrayBase (A ++ D ++ B ++ R) c u lg)
      = Some (mkArrayBase (A ++ B ++ D' ++ R) c u lg').
Proof.
  induction B as [|b B IH]; intros A D R dst src c u lg Hdst Hsrc HD HlD HB.
  - exists D, lg. done.
  - destruct D as [|d D]; [done|]. clear HD.
    apply Forall_live_cons in HB as [Hb HB]. apply Forall_live_cons in HlD as [Hd HlD].
    cbn [shift_left_loop length].
    replace (A ++ (d :: D) ++ (b :: B) ++ R)
      with (A ++ d :: D ++ b :: B ++ R) by same_list.
    destruct (moveAssignElement_down ma A d D b (B ++ R) dst src c u lg)
      as (lg1 & Hmv); [done | simpl in Hsrc; lia | done | done |].
    rewrite Hmv. cbn [mbind option_bind].
    replace (A ++ b :: D ++ Moved :: B ++ R)
      with ((A ++ [b]) ++ (D ++ [Moved]) ++ B ++ R) by same_list.
    destruct (IH (A ++ [b]) (D ++ [Moved]) R (dst + 1) (src + 1) c u lg1)
      as (D' & lg' & HD' & HlD' & Hrun).
    + rewrite length_app. simpl. lia.
    + rewrite !length_app. simpl in *. lia.
    + by destruct D.
    + by apply Forall_live_snoc_2.
    + done.
    + exists D', lg'. split; [|split; [done|]].
      * rewrite HD', length_app. simpl. lia.
      * rewrite Hrun. by rewrite <- !app_assoc.
Qed.

Lemma walk_up_loop_spec ma B : ∀ A x R e c u lg,
  e = Z.of_nat (length A) → is_live x = true → Forall live B →
  ∃ y lg', is_live y = true ∧
    walk_up_loop ma (length B) e (mkArrayBase (A ++ x :: B ++ R) c u lg)
      = Some (e + Z.of_nat (length B), mkArrayBase (A ++ B ++ y :: R) c u lg').
Proof.
  induction B as [|b B IH]; intros A x R e c u lg He Hx HB.
  - exists x, lg. split; [done|]. simpl. by rewrite Z.add_0_r.
  - apply Forall_live_cons in HB as [Hb HB]. cbn [walk_up_loop length].
    destruct (moveAssignElement_down ma A x [] b (B ++ R) e (e + 1) c u lg)
      as (lg1 & Hmv); [done | simpl; lia | done | done |].
    simpl in Hmv. replace (A ++ x :: (b :: B) ++ R) with (A ++ x :: b :: B ++ R) by done.
    rewrite Hmv. cbn [mbind option_bind].
    replace (A ++ b :: Moved :: B ++ R)
      with ((A ++ [b]) ++ Moved :: B ++ R) by same_list.
    destruct (IH (A ++ [b]) Moved R (e + 1) c u lg1)
      as (y & lg' & Hy & Hrun); [rewrite length_app; simpl; lia | done | done |].
    exists y, lg'. split; [done|]. rewrite Hrun. rewrite <- !app_assoc. simpl.
    do 2 f_equal. lia.
Qed.

Lemma walk_down_loop_spec ma B : ∀ A x R e c u lg,
  e = Z.of_nat (length A + length B) → is_live x = true → Forall live B →
  ∃ y lg', is_live y = true ∧
    walk_down_loop ma (length B) e (mkArrayBase (A ++ B ++ x :: R) c u lg)
      = Some (e - Z.of_nat (length B), mkArrayBase (A ++ y :: B ++ R) c u lg').
Proof.
  induction B as [|b B IH] using rev_ind; intros A x R e c u lg He Hx HB.
  - exists x, lg. split; [done|]. simpl. by rewrite Z.sub_0_r.
  - apply Forall_live_snoc in HB as [HB Hb].
    replace (length (B ++ [b])) with (S (length B)) in * by (rewrite length_app; simpl; lia).
    cbn [walk_down_loop].
    replace (A ++ (B ++ [b]) ++ x :: R)
      with ((A ++ B) ++ b :: [] ++ x :: R) by same_list.
    destruct (moveAssignElement_up ma (A ++ B) b [] x R e (e - 1) c u lg)
      as (lg1 & Hmv); [rewrite length_app; lia | rewrite length_app; simpl; lia | done | done |].
    rewrite Hmv. cbn [mbind option_bind].
    replace ((A ++ B) ++ Moved :: [] ++ b :: R)
      with (A ++ B ++ Moved :: b :: R) by same_list.
    destruct (IH A Moved (b :: R) (e - 1) c u lg1)
      as (y & lg' & Hy & Hrun); [lia | done | done |].
    exists y, lg'. split; [done|]. rewrite Hrun. rewrite <- !app_assoc. simpl.
    do 2 f_equal. lia.
Qed.

End Loops.

(** * Capacity

    [represents a l] unfolds to a block [(Obj <$> l) ++ tail]; changing
    the capacity changes the tail only. *)

Section Capacity.
Context {T : Type}.
Variable trivially_copyable : bool.
Implicit Types (a : @ArrayBase T) (l : list T) (tail G R : list (@slot T)).

Lemma Forall_live_Obj l : Forall live (Obj <$> l).
Proof. induction l; simpl; by constructor. Qed.

Lemma represents_intro l tail c u lg :
  c = Z.of_nat (length l + length tail) → u = Z.of_nat (length l) →
  c ≤ INT_MAX →
  represents (mkArrayBase ((Obj <$> l) ++ tail) c u lg) l.
Proof.
  intros -> -> Hmax. unfold represents. simpl.
  rewrite length_app, length_fmap. repeat split; [done|].
  apply take_app_length'. by rewrite length_fmap.
Qed.

Lemma represents_inv a l :
  represents a l →
  ∃ tail, a = mkArrayBase ((Obj <$> l) ++ tail)
                          (Z.of_nat (length l + length tail))
                          (Z.of_nat (length l)) (destructorCalls a)
          ∧ Z.of_nat (length l + length tail) ≤ INT_MAX.
Proof.
  destruct a as [m c u lg]. unfold represents. simpl.
  intros (-> & -> & Hmax & Htake).
  exists (drop (length l) m).
  assert (length l ≤ length m)%nat as Hle.
  { apply (f_equal length) in Htake. rewrite length_take, length_fmap in Htake. lia. }
  assert (m = (Obj <$> l) ++ drop (length l) m) as Hm.
  { rewrite <- Htake. by rewrite take_drop. }
  rewrite length_drop. replace (length l + (length m - length l))%nat with (length m) by lia.
  split; [|done]. by rewrite <- Hm.
Qed.

Lemma represents_len_within_capacity a l :
  represents a l → len_within_capacity a.
Proof.
  intros (tail & -> & _)%represents_inv.
  unfold len_within_capacity, size, capacity. simpl. lia.
Qed.

(** A container with room for [k] more elements behind its sequence. *)
Lemma represents_room a l k :
  represents a l → 0 ≤ k → Z.of_nat (length l) + k ≤ numAllocated a →
  ∃ G R, a = mkArrayBase ((Obj <$> l) ++ G ++ R)
                         (Z.of_nat (length l + length G + length R))
                         (Z.of_nat (length l)) (destructorCalls a)
         ∧ Z.of_nat (length G) = k
         ∧ Z.of_nat (length l + length G + length R) ≤ INT_MAX.
Proof.
  intros (tail & Ha & Hmax)%represents_inv Hk Hroom.
  rewrite Ha in Hroom. simpl in Hroom.
  exists (take (Z.to_nat k) tail), (drop (Z.to_nat k) tail).
  rewrite take_drop, length_take, length_drop.
  replace (length l + Z.to_nat k `min` length tail + (length tail - Z.to_nat k))%nat
    with (length l + length tail)%nat by lia.
  split; [done|]. split; [lia|done].
Qed.

Lemma setAllocatedSize_spec a l n :
  represents a l → Z.of_nat (length l) ≤ n ≤ INT_MAX →
  ∃ a', setAllocatedSize trivially_copyable n a = Some a'
        ∧ represents a' l ∧ numAllocated a' = n.
Proof.
  intros (tail & -> & Hmax)%represents_inv [Hn1 Hn2].
  unfold setAllocatedSize. cbn [numAllocated].
  case_bool_decide as Hne.
  - case_bool_decide as Hpos.
    + unfold setAllocatedSizeInternal. destruct trivially_copyable.
      * eexists. split; [done|]. reduce_state. split; [|done].
        unfold HeapBlock_realloc. rewrite resize_spec.
        rewrite take_app_ge by (rewrite length_fmap; lia).
        rewrite <- app_assoc. apply represents_intro; [|done|done].
        rewrite !length_app, length_take, length_replicate, length_fmap. lia.
      * cbn [numUsed]. rewrite Nat2Z.id.
        unfold HeapBlock_new.
        replace (Z.to_nat n) with (length l + (Z.to_nat n - length l))%nat by lia.
        rewrite replicate_add.
        pose proof (relocate_loop_spec (Obj <$> l) [] tail []
                      (replicate (length l) Raw)
                      (replicate (Z.to_nat n - length l) Raw) 0
                      (Z.of_nat (length l + length tail))
                      (Z.of_nat (length l)) (destructorCalls a)) as Hloop.
        rewrite length_fmap in Hloop. cbn [app] in Hloop.
        rewrite Hloop; [| done | done | by rewrite length_replicate
                        | apply Forall_live_Obj ].
        reduce_state. eexists. split; [done|]. split; [|done].
        apply represents_intro; [|done|done]. rewrite length_replicate. lia.
    + eexists. split; [done|]. reduce_state. split; [|done].
      assert (l = []) as -> by (destruct l; [done|simpl in Hn1; lia]).
      apply (represents_intro [] []); simpl; unfold INT_MAX; lia.
  - eexists. split; [done|]. reduce_state. split; [|done].
    apply represents_intro; [lia|done|lia].
Qed.

Lemma ensureAllocatedSize_spec a l m :
  represents a l → growth_fits (numAllocated a) m →
  ∃ a', ensureAllocatedSize trivially_copyable m a = Some a'
        ∧ represents a' l
        ∧ m ≤ numAllocated a'
        ∧ (m ≤ numAllocated a → a' = a)
        ∧ (numAllocated a < m →
           numAllocated a' = round_down_to_multiple_of_8 (m + m ÷ 2 + 8)).
Proof.
  intros Hrep Hfits. unfold ensureAllocatedSize.
  pose proof (represents_len_within_capacity _ _ Hrep) as Hinv.
  unfold len_within_capacity, size, capacity in Hinv.
  case_bool_decide as Hgrow.
  - destruct Hfits as [?|Hfits]; [lia|].
    rewrite grown_size by lia.
    pose proof (round_down_bounds (m + m ÷ 2 + 8)) as Hb.
    assert (0 ≤ m ÷ 2) by (apply Z.quot_pos; lia).
    destruct (setAllocatedSize_spec a l (round_down_to_multiple_of_8 (m + m ÷ 2 + 8)))
      as (a' & Hset & Hrep' & Hcap); [done| |].
    { destruct Hrep as (Hu & _). lia. }
    exists a'. rewrite Hcap. split; [done|]. split; [done|]. split; [lia|]. split; [lia|done].
  - exists a. split; [done|]. split; [done|]. split; [lia|]. split; [done|lia].
Qed.

Lemma shrinkToNoMoreThan_spec a l n :
  represents a l → (n < numAllocated a → Z.of_nat (length l) ≤ n) →
  ∃ a', shrinkToNoMoreThan trivially_copyable n a = Some a'
        ∧ represents a' l ∧ numAllocated a' = Z.min n (numAllocated a).
Proof.
  intros Hrep Hn. unfold shrinkToNoMoreThan. case_bool_decide as Hlt.
  - destruct (setAllocatedSize_spec a l n) as (a' & Hset & Hrep' & Hcap); [done| |].
    { destruct Hrep as (_ & _ & ? & _). lia. }
    exists a'. split; [done|]. split; [done|lia].
  - exists a. split; [done|]. split; [done|lia].
Qed.

End Capacity.

(** * Appending *)

Section Append.
Context {T : Type}.
Variable trivially_copyable : bool.
Implicit Types (a : @ArrayBase T) (l es : list T) (tail G R : list (@slot T)).

Lemma represents_mem l m R c u lg :
  m = (Obj <$> l) ++ R → c = Z.of_nat (length m) → u = Z.of_nat (length l) →
  c ≤ INT_MAX → represents (mkArrayBase m c u lg) l.
Proof.
  intros -> -> -> Hmax. apply represents_intro; [|done|done].
  by rewrite length_app, length_fmap.
Qed.

Lemma growth_fits_int c m :
  growth_fits c m → c ≤ INT_MAX → 0 ≤ m → m ≤ INT_MAX.
Proof.
  intros [?|Hfit] Hc Hm; [lia|].
  assert (0 ≤ m ÷ 2) by (apply Z.quot_pos; lia). lia.
Qed.

Lemma growth_fits_mono c m m' :
  growth_fits c m → 0 ≤ m' ≤ m → growth_fits c m'.
Proof.
  intros [?|Hfit] [H0 Hle]; [left; lia|right].
  assert (m' ÷ 2 ≤ m ÷ 2) by (apply Z.quot_le_mono; lia). lia.
Qed.

(** Reserving room for [k] more elements. *)
Lemma reserve_spec a l k m :
  represents a l → 0 ≤ k → m = Z.of_nat (length l) + k →
  growth_fits (numAllocated a) m →
  ∃ G R c lg,
    ensureAllocatedSize trivially_copyable m a
      = Some (mkArrayBase ((Obj <$> l) ++ G ++ R) c (Z.of_nat (length l)) lg)
    ∧ Z.of_nat (length G) = k
    ∧ c = Z.of_nat (length l + length G + length R)
    ∧ c ≤ INT_MAX
    ∧ (m ≤ numAllocated a → c = numAllocated a ∧ lg = destructorCalls a).
Proof.
  intros Hrep Hk -> Hfits.
  destruct (ensureAllocatedSize_spec trivially_copyable a l _ Hrep Hfits)
    as (a' & Hens & Hrep' & Hcap & Hsame & _).
  destruct (represents_room a' l k Hrep' Hk Hcap) as (G & R & Ha' & HG & Hmax).
  exists G, R, (numAllocated a'), (destructorCalls a').
  rewrite Hens. rewrite Ha' at 1. cbn [numAllocated destructorCalls].
  split; [by rewrite Ha' at 1 2|]. split; [done|].
  split; [by rewrite Ha' at 1|]. split; [by rewrite Ha' at 1|].
  intros Hle. by rewrite (Hsame Hle).
Qed.

Lemma represents_numUsed a l : represents a l → numUsed a = Z.of_nat (length l).
Proof. by intros (? & _). Qed.

Lemma represents_capacity_int a l : represents a l → numAllocated a ≤ INT_MAX.
Proof. by intros (_ & _ & ? & _). Qed.

Lemma add_spec a l e :
  represents a l → growth_fits (numAllocated a) (Z.of_nat (length l) + 1) →
  ∃ a', add trivially_copyable e a = Some a'
        ∧ represents a' (l ++ [e])
        ∧ (Z.of_nat (length l) + 1 ≤ numAllocated a →
           numAllocated a' = numAllocated a).
Proof.
  intros Hrep Hfits. unfold add.
  pose proof (growth_fits_int _ _ Hfits (represents_capacity_int _ _ Hrep)) as Hint.
  rewrite (represents_numUsed _ _ Hrep).
  unfold int_add at 1. rewrite wrap_id by (unfold INT_MIN; lia).
  destruct (reserve_spec a l 1 _ Hrep ltac:(lia) eq_refl Hfits)
    as (G & R & c & lg & -> & HG & Hc & Hmax & Hsame).
  cbn [mbind option_bind].
  destruct G as [|x [|??]]; cbn [length] in HG; try lia. cbn [app].
  rewrite addAssumingCapacityIsReady_spec by (rewrite ?length_fmap; lia).
  eexists. split; [done|]. split.
  - eapply (represents_mem _ _ R).
    + by rewrite fmap_app, <- app_assoc.
    + rewrite !length_app, !length_fmap. cbn [length] in *. lia.
    + rewrite length_app. cbn [length]. lia.
    + done.
  - intros Hle. simpl. by apply Hsame.
Qed.

Lemma add_pack_spec a l e es :
  represents a l →
  growth_fits (numAllocated a) (Z.of_nat (length l) + (1 + Z.of_nat (length es))) →
  ∃ a', add_pack trivially_copyable e es a = Some a'
        ∧ represents a' (l ++ e :: es).
Proof.
  intros Hrep Hfits. unfold add_pack.
  pose proof (growth_fits_int _ _ Hfits (represents_capacity_int _ _ Hrep)) as Hint.
  rewrite (represents_numUsed _ _ Hrep).
  unfold int_add. rewrite !wrap_id by (rewrite ?wrap_id; unfold INT_MIN; lia).
  rewrite <- Z.add_assoc.
  destruct (reserve_spec a l (1 + Z.of_nat (length es)) _ Hrep ltac:(lia)
              eq_refl Hfits)
    as (G & R & c & lg & -> & HG & Hc & Hmax & _).
  cbn [mbind option_bind].
  rewrite addAssumingCapacityIsReady_pack_spec;
    [| by rewrite length_fmap | cbn [length]; lia | cbn [length]; lia].
  eexists. split; [done|].
  eapply (represents_mem _ _ R).
  - by rewrite fmap_app, <- app_assoc.
  - rewrite !length_app, !length_fmap. cbn [length] in *. lia.
  - rewrite length_app. cbn [length]. lia.
  - done.
Qed.

Lemma append_list_spec a l es :
  represents a l →
  growth_fits (numAllocated a) (Z.of_nat (length l) + Z.of_nat (length es)) →
  ∃ a', (a1 ← ensureAllocatedSize trivially_copyable
                 (int_add (numUsed a) (wrap (Z.of_nat (length es)))) a;
         addAssumingCapacityIsReady_pack es a1) = Some a'
        ∧ represents a' (l ++ es).
Proof.
  intros Hrep Hfits.
  pose proof (growth_fits_int _ _ Hfits (represents_capacity_int _ _ Hrep)) as Hint.
  rewrite (represents_numUsed _ _ Hrep).
  unfold int_add. rewrite !wrap_id by (rewrite ?wrap_id; unfold INT_MIN; lia).
  destruct (reserve_spec a l (Z.of_nat (length es)) _ Hrep ltac:(lia)
              eq_refl Hfits)
    as (G & R & c & lg & -> & HG & Hc & Hmax & _).
  cbn [mbind option_bind].
  rewrite addAssumingCapacityIsReady_pack_spec;
    [| by rewrite length_fmap | lia | lia].
  eexists. split; [done|].
  eapply (represents_mem _ _ R).
  - by rewrite fmap_app, <- app_assoc.
  - rewrite !length_app, !length_fmap. lia.
  - rewrite length_app. lia.
  - done.
Qed.

Lemma addArray_items_spec a l items :
  represents a l →
  growth_fits (numAllocated a) (Z.of_nat (length l) + Z.of_nat (length items)) →
  ∃ a', addArray_items trivially_copyable items a = Some a'
        ∧ represents a' (l ++ items).
Proof. apply append_list_spec. Qed.

Lemma addArray_from_spec a l arr :
  represents a l →
  growth_fits (numAllocated a) (Z.of_nat (length l) + Z.of_nat (length arr)) →
  ∃ a', addArray_from trivially_copyable arr a = Some a'
        ∧ represents a' (l ++ arr).
Proof. apply append_list_spec. Qed.

Lemma memcpy_from_spec (A G R : list (@slot T)) (src : list T) dst n :
  dst = Z.of_nat (length A) → n = Z.of_nat (length G) →
  (length G ≤ length src)%nat →
  memcpy_from dst src n (A ++ G ++ R)
    = Some (A ++ (Obj <$> take (length G) src) ++ R).
Proof.
  intros -> -> Hlen. unfold memcpy_from.
  rewrite bool_decide_eq_true_2 by (rewrite !length_app; lia).
  rewrite !Nat2Z.id, take_app_length. do 3 f_equal.
  replace (Z.to_nat (Z.of_nat (length A) + Z.of_nat (length G)))
    with (length A + length G)%nat by lia.
  by rewrite <- drop_drop, !drop_app_length.
Qed.

Lemma addArrayInternal_spec (A G R : list (@slot T)) (src : list T) n c u lg :
  u = Z.of_nat (length A) → n = Z.of_nat (length G) →
  (length G ≤ length src)%nat →
  addArrayInternal trivially_copyable src n (mkArrayBase (A ++ G ++ R) c u lg)
    = Some (mkArrayBase (A ++ (Obj <$> take (length G) src) ++ R) c u lg).
Proof.
  intros Hu Hn Hlen. unfold addArrayInternal. cbn [numUsed elements].
  destruct trivially_copyable.
  - by rewrite memcpy_from_spec.
  - subst n. rewrite Nat2Z.id. by rewrite copy_construct_loop_spec.
Qed.

Lemma addArray_spec a l src n :
  represents a l → 0 ≤ n ≤ Z.of_nat (length src) →
  growth_fits (numAllocated a) (Z.of_nat (length l) + n) →
  ∃ a', addArray trivially_copyable src n a = Some a'
        ∧ represents a' (l ++ take (Z.to_nat n) src).
Proof.
  intros Hrep Hn Hfits. unfold addArray.
  pose proof (growth_fits_int _ _ Hfits (represents_capacity_int _ _ Hrep)) as Hint.
  rewrite (represents_numUsed _ _ Hrep).
  unfold int_add. rewrite (wrap_id (Z.of_nat (length l) + n)) by (unfold INT_MIN; lia).
  destruct (reserve_spec a l n _ Hrep ltac:(lia) eq_refl Hfits)
    as (G & R & c & lg & -> & HG & Hc & Hmax & _).
  cbn [mbind option_bind].
  rewrite addArrayInternal_spec by (rewrite ?length_fmap; lia).
  reduce_state. eexists. split; [done|].
  rewrite wrap_id by (unfold INT_MIN; lia).
  replace (Z.to_nat n) with (length G) by lia.
  eapply (represents_mem _ _ R).
  - by rewrite fmap_app, <- app_assoc.
  - rewrite !length_app, !length_fmap, length_take. lia.
  - rewrite length_app, length_take. lia.
  - done.
Qed.

Lemma addArray_range_spec a l arr start n :
  represents a l →
  start ≤ Z.of_nat (length arr) → Z.of_nat (length arr) ≤ INT_MAX →
  n ≤ INT_MAX - Z.of_nat (length arr) →
  growth_fits (numAllocated a)
              (Z.of_nat (length l) + (Z.of_nat (length arr) - Z.max 0 start)) →
  ∃ a' k, addArray_range trivially_copyable arr start n a = Some (k, a')
        ∧ 0 ≤ k ≤ Z.of_nat (length arr) - Z.max 0 start
        ∧ (0 ≤ n → Z.max 0 start + n ≤ Z.of_nat (length arr) → k = n)
        ∧ represents a' (l ++ take (Z.to_nat k) (drop (Z.to_nat start) arr)).
Proof.
  intros Hrep Hstart Hsz Hn Hfits. unfold addArray_range.
  rewrite (wrap_id (Z.of_nat (length arr))) by (unfold INT_MIN; lia).
  set (start' := if bool_decide (start < 0) then 0 else start).
  assert (start' = Z.max 0 start) as Hs' by (unfold start'; case_bool_decide; lia).
  set (k := if bool_decide (n < 0)
               || bool_decide (int_add start' n > Z.of_nat (length arr))
            then int_sub (Z.of_nat (length arr)) start' else n).
  assert (0 ≤ k ≤ Z.of_nat (length arr) - Z.max 0 start
          ∧ (0 ≤ n → Z.max 0 start + n ≤ Z.of_nat (length arr) → k = n)) as [Hk Hkn].
  { unfold k, int_sub, int_add.
    rewrite (wrap_id (_ - _)) by (unfold INT_MIN; lia).
    case_bool_decide as H1; cbn [orb]; [lia|].
    rewrite wrap_id by (unfold INT_MIN; lia).
    case_bool_decide as H2; lia. }
  destruct (addArray_spec a l (drop (Z.to_nat start') arr) k) as (a' & Hadd & Hrep');
    [done | rewrite length_drop; lia | |].
  { eapply growth_fits_mono; [exact Hfits|]. lia. }
  rewrite Hadd. cbn [mbind option_bind]. exists a', k.
  split; [done|]. split; [done|]. split; [done|].
  replace (Z.to_nat start) with (Z.to_nat start') by lia. done.
Qed.

End Append.

(** * Inserting and removing *)

Section Edit.
Context {T : Type}.
Variable trivially_copyable move_assignable : bool.
Implicit Types (a : @ArrayBase T) (l es : list T) (tail G R : list (@slot T)).

Lemma isPositiveAndBelow_true v n :
  isPositiveAndBelow v n = true ↔ 0 ≤ v < n.
Proof.
  unfold isPositiveAndBelow. rewrite andb_true_iff, !bool_decide_eq_true. lia.
Qed.

Lemma isPositiveAndBelow_false v n :
  isPositiveAndBelow v n = false ↔ ¬ (0 ≤ v < n).
Proof.
  rewrite <- isPositiveAndBelow_true. by destruct (isPositiveAndBelow v n).
Qed.

Lemma gap_index_bounds at_ len : 0 ≤ len → 0 ≤ gap_index at_ len ≤ len.
Proof.
  intros Hlen. unfold gap_index.
  destruct (isPositiveAndBelow at_ len) eqn:Hin; [|lia].
  apply isPositiveAndBelow_true in Hin. lia.
Qed.

Lemma createInsertSpaceInternal_spec (A B G R : list (@slot T)) at_ n c u lg :
  at_ = Z.of_nat (length A) → n = Z.of_nat (length G) →
  u = Z.of_nat (length A + length B) → u ≤ INT_MAX →
  (trivially_copyable = false → G ≠ []) → Forall live B →
  ∃ G' lg', length G' = length G ∧
    createInsertSpaceInternal trivially_copyable at_ n
        (mkArrayBase (A ++ B ++ G ++ R) c u lg)
      = Some (mkArrayBase (A ++ G' ++ B ++ R) c u lg').
Proof.
  intros Hat Hn Hu Hmax HG HB. unfold createInsertSpaceInternal.
  cbn [numUsed elements]. unfold int_sub.
  rewrite wrap_id by (unfold INT_MIN; lia).
  replace (u - at_) with (Z.of_nat (length B)) by lia.
  destruct trivially_copyable.
  - destruct (memmove_up A B G R (at_ + n) at_ (Z.of_nat (length B)))
      as (G' & HG' & Hmv); [done|lia|done|].
    rewrite Hmv. reduce_state. by exists G', lg.
  - rewrite Nat2Z.id.
    destruct (shift_right_loop_spec B A G R u (u + n) c u lg)
      as (G' & lg' & HG' & Hrun); [done|lia|by apply HG|done|].
    rewrite Hrun. by exists G', lg'.
Qed.

Lemma createInsertSpace_spec a l at_ n :
  represents a l → 0 ≤ n →
  growth_fits (numAllocated a) (Z.of_nat (length l) + n) →
  (n = 0 → trivially_copyable = false →
   isPositiveAndBelow at_ (Z.of_nat (length l)) = false) →
  let space := gap_index at_ (Z.of_nat (length l)) in
  ∃ G R c lg,
    createInsertSpace trivially_copyable at_ n a
      = Some (space,
              mkArrayBase ((Obj <$> take (Z.to_nat space) l) ++ G
                           ++ (Obj <$> drop (Z.to_nat space) l) ++ R)
                          c (Z.of_nat (length l)) lg)
    ∧ Z.of_nat (length G) = n
    ∧ c = Z.of_nat (length l + length G + length R)
    ∧ c ≤ INT_MAX.
Proof.
  intros Hrep Hn Hfits Hgap space. unfold createInsertSpace.
  pose proof (growth_fits_int _ _ Hfits (represents_capacity_int _ _ Hrep)) as Hint.
  rewrite (represents_numUsed _ _ Hrep).
  unfold int_add. rewrite wrap_id by (unfold INT_MIN; lia).
  destruct (reserve_spec trivially_copyable a l n _ Hrep ltac:(lia) eq_refl Hfits)
    as (G & R & c & lg & -> & HG & Hc & Hmax & _).
  cbn [mbind option_bind numUsed]. unfold space, gap_index.
  destruct (isPositiveAndBelow at_ (Z.of_nat (length l))) eqn:Hin; cbn [negb].
  - apply isPositiveAndBelow_true in Hin.
    replace ((Obj <$> l) ++ G ++ R)
      with ((Obj <$> take (Z.to_nat at_) l) ++ (Obj <$> drop (Z.to_nat at_) l) ++ G ++ R)
      by (by rewrite app_assoc, <- fmap_app, take_drop).
    destruct (createInsertSpaceInternal_spec
                (Obj <$> take (Z.to_nat at_) l) (Obj <$> drop (Z.to_nat at_) l)
                G R at_ n c (Z.of_nat (length l)) lg)
      as (G' & lg' & HG' & Hrun).
    + rewrite length_fmap, length_take. lia.
    + lia.
    + rewrite !length_fmap, length_take, length_drop. lia.
    + lia.
    + intros Htc ->. cbn [length] in HG.
      by specialize (Hgap ltac:(lia) Htc).
    + apply Forall_live_Obj.
    + rewrite Hrun. cbn [mbind option_bind].
      exists G', R, c, lg'. split; [done|]. rewrite HG'. done.
  - exists G, R, c, lg. rewrite Nat2Z.id, take_ge, drop_ge by lia.
    cbn [fmap list_fmap app]. done.
Qed.

(** [insert] puts the copies at the index asked for when it lies within
    the sequence and at the end otherwise.  A gap of no cells may not be
    opened inside a sequence of elements that are not trivially
    copyable: the last hypothesis. *)
Lemma insert_spec a l at_ e n :
  represents a l → 0 ≤ n →
  growth_fits (numAllocated a) (Z.of_nat (length l) + n) →
  (n = 0 → trivially_copyable = false →
   isPositiveAndBelow at_ (Z.of_nat (length l)) = false) →
  let space := Z.to_nat (gap_index at_ (Z.of_nat (length l))) in
  ∃ a', insert trivially_copyable at_ e n a = Some a'
        ∧ represents a' (take space l ++ replicate (Z.to_nat n) e ++ drop space l).
Proof.
  intros Hrep Hn Hfits Hgap space. unfold insert.
  pose proof (growth_fits_int _ _ Hfits (represents_capacity_int _ _ Hrep)) as Hint.
  destruct (createInsertSpace_spec a l at_ n Hrep Hn Hfits Hgap)
    as (G & R & c & lg & -> & HG & Hc & Hmax).
  cbn [mbind option_bind]. fold space.
  pose proof (gap_index_bounds at_ (Z.of_nat (length l)) ltac:(lia)) as Hg.
  assert (space ≤ length l)%nat as Hsp by (unfold space; lia).
  replace (Z.to_nat n) with (length G) by lia.
  rewrite fill_loop_spec by (rewrite length_fmap, length_take; unfold space; lia).
  reduce_state. eexists. split; [done|].
  unfold int_add. rewrite wrap_id by (unfold INT_MIN; lia).
  eapply (represents_mem _ _ R).
  - by rewrite !fmap_app, fmap_replicate, <- !app_assoc.
  - rewrite !length_app, !length_fmap, length_replicate, length_take, length_drop. lia.
  - rewrite !length_app, length_replicate, length_take, length_drop. lia.
  - done.
Qed.

Lemma insertArray_spec a l at_ src n :
  represents a l → 0 ≤ n ≤ Z.of_nat (length src) →
  growth_fits (numAllocated a) (Z.of_nat (length l) + n) →
  (n = 0 → trivially_copyable = false →
   isPositiveAndBelow at_ (Z.of_nat (length l)) = false) →
  let space := Z.to_nat (gap_index at_ (Z.of_nat (length l))) in
  ∃ a', insertArray trivially_copyable at_ src n a = Some a'
        ∧ represents a' (take space l ++ take (Z.to_nat n) src ++ drop space l).
Proof.
  intros Hrep Hn Hfits Hgap space. unfold insertArray.
  pose proof (growth_fits_int _ _ Hfits (represents_capacity_int _ _ Hrep)) as Hint.
  destruct (createInsertSpace_spec a l at_ n Hrep ltac:(lia) Hfits Hgap)
    as (G & R & c & lg & -> & HG & Hc & Hmax).
  cbn [mbind option_bind]. fold space.
  pose proof (gap_index_bounds at_ (Z.of_nat (length l)) ltac:(lia)) as Hg.
  assert (space ≤ length l)%nat as Hsp by (unfold space; lia).
  replace (Z.to_nat n) with (length G) by lia.
  rewrite copy_construct_loop_spec;
    [| rewrite length_fmap, length_take; unfold space; lia | lia].
  reduce_state. eexists. split; [done|].
  unfold int_add. rewrite wrap_id by (unfold INT_MIN; lia).
  eapply (represents_mem _ _ R).
  - by rewrite !fmap_app, <- !app_assoc.
  - rewrite !length_app, !length_fmap, !length_take, length_drop. lia.
  - rewrite !length_app, !length_take, length_drop. lia.
  - done.
Qed.

Lemma removeElementsInternal_spec (A D B R : list (@slot T)) at_ n c u lg :
  at_ = Z.of_nat (length A) → n = Z.of_nat (length D) →
  u = Z.of_nat (length A + length D + length B) → u ≤ INT_MAX →
  D ≠ [] → Forall live D → Forall live B →
  ∃ D' lg', length D' = length D ∧
    removeElementsInternal trivially_copyable move_assignable at_ n
        (mkArrayBase (A ++ D ++ B ++ R) c u lg)
      = Some (mkArrayBase (A ++ B ++ D' ++ R) c u lg').
Proof.
  intros Hat Hn Hu Hmax HD HlD HB. unfold removeElementsInternal.
  cbn [numUsed elements]. unfold int_sub, int_add.
  rewrite (wrap_id (at_ + n)) by (unfold INT_MIN; lia).
  rewrite wrap_id by (unfold INT_MIN; lia).
  replace (u - (at_ + n)) with (Z.of_nat (length B)) by lia.
  destruct trivially_copyable.
  - destruct (memmove_down A D B R at_ (at_ + n) (Z.of_nat (length B)))
      as (D' & HD' & Hmv); [done|lia|done|].
    rewrite Hmv. reduce_state. by exists D', lg.
  - rewrite Nat2Z.id.
    destruct (shift_left_loop_spec move_assignable B A D R at_ (at_ + n) c u lg)
      as (D' & lg' & HD' & HlD' & Hrun); [done|lia|done|done|done|].
    rewrite Hrun. cbn [mbind option_bind].
    replace (A ++ B ++ D' ++ R) with ((A ++ B) ++ D' ++ R) by same_list.
    replace (Z.to_nat n) with (length D') by lia.
    rewrite destroy_loop_spec by (try done; rewrite length_app; lia).
    exists (replicate (length D') Raw), (lg' ++ seqZ (at_ + Z.of_nat (length B)) (Z.of_nat (length D'))).
    split; [by rewrite length_replicate|].
    by rewrite <- !app_assoc.
Qed.

(** [removeElements] within its precondition, for both overloads of
    [removeElementsInternal]. *)
Lemma removeElements_spec a l at_ n :
  represents a l → 0 ≤ at_ → 0 ≤ n → at_ + n ≤ Z.of_nat (length l) →
  ∃ a', removeElements trivially_copyable move_assignable at_ n a = Some a'
        ∧ represents a' (take (Z.to_nat at_) l ++ drop (Z.to_nat (at_ + n)) l)
        ∧ numAllocated a' = numAllocated a.
Proof.
  intros Hrep Hat Hn Hend. unfold removeElements.
  case_bool_decide as Hpos.
  - destruct (represents_inv _ _ Hrep) as (tail & -> & Hmax).
    cbn [numAllocated].
    replace ((Obj <$> l) ++ tail)
      with ((Obj <$> take (Z.to_nat at_) l)
            ++ (Obj <$> take (Z.to_nat n) (drop (Z.to_nat at_) l))
            ++ (Obj <$> drop (Z.to_nat (at_ + n)) l) ++ tail).
    2:{ replace (Z.to_nat (at_ + n)) with (Z.to_nat at_ + Z.to_nat n)%nat by lia.
        rewrite <- drop_drop, !app_assoc, <- !fmap_app, <- app_assoc, !take_drop. done. }
    destruct (removeElementsInternal_spec
                (Obj <$> take (Z.to_nat at_) l)
                (Obj <$> take (Z.to_nat n) (drop (Z.to_nat at_) l))
                (Obj <$> drop (Z.to_nat (at_ + n)) l) tail at_ n
                (Z.of_nat (length l + length tail)) (Z.of_nat (length l))
                (destructorCalls a))
      as (D' & lg' & HD' & Hrun).
    + rewrite length_fmap, length_take. lia.
    + rewrite length_fmap, length_take, length_drop. lia.
    + rewrite !length_fmap, !length_take, !length_drop. lia.
    + lia.
    + intros HD. apply (f_equal length) in HD.
      rewrite length_fmap, length_take, length_drop in HD. simpl in HD. lia.
    + apply Forall_live_Obj.
    + apply Forall_live_Obj.
    + rewrite Hrun. reduce_state. eexists. split; [done|]. split; [|done].
      unfold int_sub. rewrite wrap_id by (unfold INT_MIN; lia).
      eapply (represents_mem _ _ (D' ++ tail)).
      * by rewrite !fmap_app, <- !app_assoc.
      * rewrite !length_app, !length_fmap, HD', !length_fmap, !length_take, !length_drop. lia.
      * rewrite !length_app, !length_take, !length_drop. lia.
      * done.
  - exists a. split; [done|]. split; [|done].
    assert (n = 0) as -> by lia. rewrite Z.add_0_r, take_drop. done.
Qed.

End Edit.

(** * Relocating one element of a sequence *)

Section Relocate.
Context {T : Type}.
Implicit Types (l La Lb Bl : list T) (x : T).

Lemma lookup_cons_S x l (i : nat) : (x :: l) !! S i = l !! i.
Proof. done. Qed.

Lemma relocate_up La x Bl Lb :
  relocate (length La) (length La + length Bl) (La ++ x :: Bl ++ Lb)
    = La ++ Bl ++ x :: Lb.
Proof.
  unfold relocate. rewrite list_lookup_middle by done.
  cbn zeta. rewrite delete_middle.
  rewrite (app_assoc La Bl Lb).
  rewrite take_app_length' by (rewrite length_app; lia).
  rewrite drop_app_length' by (rewrite length_app; lia).
  by rewrite <- app_assoc.
Qed.

Lemma relocate_down La Bl x Lb :
  relocate (length La + length Bl) (length La) (La ++ Bl ++ x :: Lb)
    = La ++ x :: Bl ++ Lb.
Proof.
  unfold relocate.
  rewrite (app_assoc La Bl (x :: Lb)).
  rewrite list_lookup_middle by (rewrite length_app; lia).
  cbn zeta.
  replace (length La + length Bl)%nat with (length (La ++ Bl))
    by (rewrite length_app; lia).
  rewrite delete_middle. rewrite <- app_assoc.
  by rewrite take_app_length, drop_app_length.
Qed.

Lemma split_up l (from to : nat) x :
  l !! from = Some x → (from ≤ to < length l)%nat →
  ∃ La Bl Lb, l = La ++ x :: Bl ++ Lb ∧ length La = from
              ∧ (length La + length Bl = to)%nat.
Proof.
  intros Hx Hto.
  exists (take from l), (take (to - from) (drop (S from) l)),
         (drop (to - from) (drop (S from) l)).
  rewrite take_drop, take_drop_middle by done.
  rewrite !length_take, length_drop. split; [done|]. split; lia.
Qed.

Lemma split_down l (from to : nat) x :
  l !! from = Some x → (to ≤ from)%nat →
  ∃ La Bl Lb, l = La ++ Bl ++ x :: Lb ∧ length La = to
              ∧ (length La + length Bl = from)%nat.
Proof.
  intros Hx Hto. apply lookup_lt_Some in Hx as Hlt.
  exists (take to l), (take (from - to) (drop to l)), (drop (S from) l).
  rewrite !length_take, length_drop. split; [|split; lia].
  rewrite app_assoc, take_take_drop.
  replace (to + (from - to))%nat with from by lia.
  by rewrite take_drop_middle.
Qed.

Lemma length_relocate from to l : length (relocate from to l) = length l.
Proof.
  unfold relocate. destruct (l !! from) as [x|] eqn:Hx; [|done].
  cbn zeta. rewrite length_app. cbn [length].
  rewrite length_take, length_drop.
  apply lookup_lt_Some in Hx.
  rewrite length_delete by (by apply lookup_lt_is_Some_2). lia.
Qed.

(** The moved element arrives at the new index. *)
Lemma relocate_lookup_target from to l :
  (from < length l)%nat → (to < length l)%nat →
  relocate from to l !! to = l !! from.
Proof.
  intros Hf Ht. destruct (lookup_lt_is_Some_2 l from Hf) as [x Hx].
  destruct (decide (from ≤ to)%nat).
  - destruct (split_up l from to x Hx ltac:(lia)) as (La & Bl & Lb & -> & <- & <-).
    rewrite relocate_up, Hx.
    rewrite (app_assoc La Bl). apply list_lookup_middle. rewrite length_app. lia.
  - destruct (split_down l from to x Hx ltac:(lia)) as (La & Bl & Lb & -> & <- & <-).
    rewrite relocate_down, Hx. by apply list_lookup_middle.
Qed.

(** Moving toward the back: the elements after the old index, up to and
    including the new one, each step one index toward the front. *)
Lemma relocate_lookup_shift_down from to l k :
  (from ≤ k < to)%nat → (to < length l)%nat →
  relocate from to l !! k = l !! S k.
Proof.
  intros Hk Ht.
  destruct (lookup_lt_is_Some_2 l from ltac:(lia)) as [x Hx].
  destruct (split_up l from to x Hx ltac:(lia)) as (La & Bl & Lb & -> & <- & <-).
  rewrite relocate_up.
  rewrite (lookup_app_r La _ k), (lookup_app_r La _ (S k)) by lia.
  replace (S k - length La)%nat with (S (k - length La)) by lia.
  rewrite lookup_cons_S.
  by rewrite (lookup_app_l Bl (x :: Lb)), (lookup_app_l Bl Lb) by lia.
Qed.

(** Moving toward the front: the elements from the new index up to the
    one before the old index each step one index toward the back. *)
Lemma relocate_lookup_shift_up from to l k :
  (to ≤ k < from)%nat → (from < length l)%nat →
  relocate from to l !! S k = l !! k.
Proof.
  intros Hk Hf.
  destruct (lookup_lt_is_Some_2 l from ltac:(lia)) as [x Hx].
  destruct (split_down l from to x Hx ltac:(lia)) as (La & Bl & Lb & -> & <- & <-).
  rewrite relocate_down.
  rewrite (lookup_app_r La _ k), (lookup_app_r La _ (S k)) by lia.
  replace (S k - length La)%nat with (S (k - length La)) by lia.
  rewrite lookup_cons_S.
  by rewrite (lookup_app_l Bl (x :: Lb)), (lookup_app_l Bl Lb) by lia.
Qed.

(** Elements outside the range between the two indices stay in place. *)
Lemma relocate_lookup_outside from to l k :
  (from < length l)%nat → (to < length l)%nat →
  (k < from `min` to ∨ from `max` to < k)%nat →
  relocate from to l !! k = l !! k.
Proof.
  intros Hf Ht Hk. destruct (lookup_lt_is_Some_2 l from Hf) as [x Hx].
  destruct (decide (from ≤ to)%nat).
  - destruct (split_up l from to x Hx ltac:(lia)) as (La & Bl & Lb & -> & <- & <-).
    rewrite relocate_up. destruct Hk as [Hk|Hk].
    + by rewrite (lookup_app_l La (Bl ++ _)), (lookup_app_l La (x :: _)) by lia.
    + rewrite (lookup_app_r La (Bl ++ _)), (lookup_app_r La (x :: _)) by lia.
      destruct (k - length La)%nat as [|k'] eqn:Hk'; [lia|]. rewrite lookup_cons_S.
      rewrite (lookup_app_r Bl (x :: _)), (lookup_app_r Bl Lb) by lia.
      replace (S k' - length Bl)%nat with (S (k' - length Bl)) by lia.
      by rewrite lookup_cons_S.
  - destruct (split_down l from to x Hx ltac:(lia)) as (La & Bl & Lb & -> & <- & <-).
    rewrite relocate_down. destruct Hk as [Hk|Hk].
    + by rewrite (lookup_app_l La (x :: _)), (lookup_app_l La (Bl ++ _)) by lia.
    + rewrite (lookup_app_r La (x :: _)), (lookup_app_r La (Bl ++ _)) by lia.
      destruct (k - length La)%nat as [|k'] eqn:Hk'; [lia|]. rewrite lookup_cons_S.
      rewrite (lookup_app_r Bl Lb), (lookup_app_r Bl (x :: _)) by lia.
      replace (S k' - length Bl)%nat with (S (k' - length Bl)) by lia.
      by rewrite lookup_cons_S.
Qed.


End Relocate.

(** * Moving an element *)

Section Move.
Context {T : Type}.
Variable trivially_copyable move_assignable : bool.
Implicit Types (a : @ArrayBase T) (l es : list T) (A B R tail : list (@slot T)).

Lemma moveInternal_up A (t : @slot T) B R cur new c u lg :
  cur = Z.of_nat (length A) → new = Z.of_nat (length A + length B) →
  B ≠ [] → new ≤ INT_MAX → live t → Forall live B →
  ∃ lg', moveInternal trivially_copyable move_assignable cur new
             (mkArrayBase (A ++ t :: B ++ R) c u lg)
         = Some (mkArrayBase (A ++ B ++ t :: R) c u lg').
Proof.
  intros Hcur Hnew HB Hmax Ht HlB. unfold moveInternal. cbn [elements].
  assert (0 < length B)%nat by (destruct B; [done|simpl; lia]).
  unfold int_sub. rewrite wrap_id by (unfold INT_MIN; lia).
  destruct trivially_copyable.
  - rewrite peek_mid by done. cbn [mbind option_bind].
    rewrite bool_decide_eq_true_2 by lia.
    destruct (memmove_down A [t] B R cur (cur + 1) (new - cur))
      as (D' & HD' & Hmv); [done|cbn [length]; lia|lia|].
    cbn [app] in Hmv. rewrite Hmv. cbn [mbind option_bind].
    destruct D' as [|d [|??]]; try done. cbn [app].
    replace (A ++ B ++ d :: R) with ((A ++ B) ++ d :: R) by same_list.
    rewrite poke_mid by (rewrite length_app; lia). cbn [mbind option_bind].
    exists lg. unfold set_elements. cbn. by rewrite <- !app_assoc.
  - rewrite peek_live_mid by done. cbn [mbind option_bind].
    rewrite poke_mid by done. cbn [mbind option_bind].
    rewrite bool_decide_eq_true_2 by lia.
    unfold set_elements. cbn [numAllocated numUsed destructorCalls].
    replace (Z.to_nat (new - cur)) with (length B) by lia.
    destruct (walk_up_loop_spec move_assignable B A Moved R cur c u lg)
      as (y & lg1 & Hy & Hrun); [done|done|done|].
    rewrite Hrun. cbn [mbind option_bind].
    replace (A ++ B ++ y :: R) with ((A ++ B) ++ y :: R) by same_list.
    destruct (moveAssignElementFromTemp_mid move_assignable (A ++ B) y R
                (cur + Z.of_nat (length B)) t c u lg1) as (lg' & Hfin);
      [rewrite length_app; lia|done|].
    rewrite Hfin. exists lg'. by rewrite <- !app_assoc.
Qed.

Lemma moveInternal_down A B (t : @slot T) R cur new c u lg :
  cur = Z.of_nat (length A + length B) → new = Z.of_nat (length A) →
  cur ≤ INT_MAX → live t → Forall live B →
  ∃ lg', moveInternal trivially_copyable move_assignable cur new
             (mkArrayBase (A ++ B ++ t :: R) c u lg)
         = Some (mkArrayBase (A ++ t :: B ++ R) c u lg').
Proof.
  intros Hcur Hnew Hmax Ht HlB. unfold moveInternal. cbn [elements].
  unfold int_sub, int_neg.
  rewrite (wrap_id (new - cur)), (wrap_id (- (new - cur))), (wrap_id (cur - new))
    by (unfold INT_MIN, INT_MAX in *; lia).
  replace (A ++ B ++ t :: R) with ((A ++ B) ++ t :: R) by same_list.
  destruct trivially_copyable.
  - rewrite peek_mid by (rewrite length_app; lia). cbn [mbind option_bind].
    rewrite bool_decide_eq_false_2 by lia.
    replace ((A ++ B) ++ t :: R) with (A ++ B ++ [t] ++ R) by same_list.
    destruct (memmove_up A B [t] R (new + 1) new (cur - new))
      as (X' & HX' & Hmv); [done|cbn [length]; lia|lia|].
    rewrite Hmv. cbn [mbind option_bind].
    destruct X' as [|d [|??]]; try done. cbn [app].
    rewrite poke_mid by done. cbn [mbind option_bind].
    exists lg. done.
  - rewrite peek_live_mid by (try done; rewrite length_app; lia).
    cbn [mbind option_bind].
    rewrite poke_mid by (rewrite length_app; lia). cbn [mbind option_bind].
    rewrite bool_decide_eq_false_2 by lia.
    unfold set_elements. cbn [numAllocated numUsed destructorCalls].
    replace (Z.to_nat (- (new - cur))) with (length B) by lia.
    replace ((A ++ B) ++ Moved :: R) with (A ++ B ++ Moved :: R) by same_list.
    destruct (walk_down_loop_spec move_assignable B A Moved R cur c u lg)
      as (y & lg1 & Hy & Hrun); [done|done|done|].
    rewrite Hrun. cbn [mbind option_bind].
    destruct (moveAssignElementFromTemp_mid move_assignable A y (B ++ R)
                (cur - Z.of_nat (length B)) t c u lg1) as (lg' & Hfin);
      [lia|done|].
    rewrite Hfin. by exists lg'.
Qed.

Lemma clamped_index_bounds new len :
  0 < len → 0 ≤ clamped_index new len < len.
Proof.
  intros Hlen. unfold clamped_index.
  destruct (isPositiveAndBelow new len) eqn:Hin; [|lia].
  by apply isPositiveAndBelow_true in Hin.
Qed.

(** [move], for both overloads of [moveInternal]. *)
Lemma move_spec a l from to :
  represents a l →
  ∃ a', move trivially_copyable move_assignable from to a = Some a'
        ∧ numAllocated a' = numAllocated a
        ∧ represents a'
            (if isPositiveAndBelow from (Z.of_nat (length l))
             then relocate (Z.to_nat from)
                           (Z.to_nat (clamped_index to (Z.of_nat (length l)))) l
             else l).
Proof.
  intros Hrep. unfold move. rewrite (represents_numUsed _ _ Hrep).
  destruct (isPositiveAndBelow from (Z.of_nat (length l))) eqn:Hin; [|by exists a].
  apply isPositiveAndBelow_true in Hin.
  pose proof (clamped_index_bounds to (Z.of_nat (length l)) ltac:(lia)) as Hto.
  pose proof (represents_capacity_int _ _ Hrep) as Hcap.
  destruct (represents_inv _ _ Hrep) as (tail & Ha & Hmax).
  assert ((if negb (isPositiveAndBelow to (Z.of_nat (length l)))
           then int_sub (Z.of_nat (length l)) 1 else to)
          = clamped_index to (Z.of_nat (length l))) as ->.
  { unfold clamped_index, int_sub.
    destruct (isPositiveAndBelow to _); cbn [negb]; [done|].
    apply wrap_id. unfold INT_MIN. lia. }
  set (to' := clamped_index to (Z.of_nat (length l))) in *.
  destruct (lookup_lt_is_Some_2 l (Z.to_nat from) ltac:(lia)) as [x Hx].
  rewrite Ha. cbn [numAllocated].
  destruct (decide (from < to')) as [Hlt|Hge].
  - destruct (split_up l (Z.to_nat from) (Z.to_nat to') x Hx ltac:(lia))
      as (La & Bl & Lb & Hl & HLa & HBl).
    replace (relocate (Z.to_nat from) (Z.to_nat to') l) with (La ++ Bl ++ x :: Lb)
      by (by rewrite Hl, <- HLa, <- HBl, relocate_up).
    replace ((Obj <$> l) ++ tail)
      with ((Obj <$> La) ++ Obj x :: (Obj <$> Bl) ++ (Obj <$> Lb) ++ tail)
      by (rewrite Hl, !fmap_app, fmap_cons, !fmap_app; same_list).
    apply (f_equal length) in Hl. rewrite !length_app in Hl. cbn [length] in Hl.
    rewrite length_app in Hl.
    destruct (moveInternal_up (Obj <$> La) (Obj x) (Obj <$> Bl)
                ((Obj <$> Lb) ++ tail) from to'
                (Z.of_nat (length l + length tail)) (Z.of_nat (length l))
                (destructorCalls a)) as (lg' & Hrun).
    + rewrite length_fmap. lia.
    + rewrite !length_fmap. lia.
    + destruct Bl; [simpl in HBl; lia|done].
    + lia.
    + done.
    + apply Forall_live_Obj.
    + rewrite Hrun. eexists. split; [done|]. split; [done|].
      eapply (represents_mem _ _ tail).
      * rewrite !fmap_app, fmap_cons. same_list.
      * norm_length. lia.
      * norm_length. lia.
      * lia.
  - destruct (split_down l (Z.to_nat from) (Z.to_nat to') x Hx ltac:(lia))
      as (La & Bl & Lb & Hl & HLa & HBl).
    replace (relocate (Z.to_nat from) (Z.to_nat to') l) with (La ++ x :: Bl ++ Lb)
      by (by rewrite Hl, <- HLa, <- HBl, relocate_down).
    replace ((Obj <$> l) ++ tail)
      with ((Obj <$> La) ++ (Obj <$> Bl) ++ Obj x :: (Obj <$> Lb) ++ tail)
      by (rewrite Hl, !fmap_app, fmap_cons; same_list).
    apply (f_equal length) in Hl. rewrite !length_app in Hl. cbn [length] in Hl.
    destruct (moveInternal_down (Obj <$> La) (Obj <$> Bl) (Obj x)
                ((Obj <$> Lb) ++ tail) from to'
                (Z.of_nat (length l + length tail)) (Z.of_nat (length l))
                (destructorCalls a)) as (lg' & Hrun).
    + rewrite !length_fmap. lia.
    + rewrite length_fmap. lia.
    + lia.
    + done.
    + apply Forall_live_Obj.
    + rewrite Hrun. eexists. split; [done|]. split; [done|].
      eapply (represents_mem _ _ tail).
      * rewrite !fmap_app, fmap_cons, !fmap_app. same_list.
      * norm_length. lia.
      * norm_length. lia.
      * lia.
Qed.

End Move.

(** * Swapping, clearing and comparing *)

Section SwapClearCompare.
Context {T : Type}.
Variable trivially_copyable move_assignable : bool.
Implicit Types (a : @ArrayBase T) (l es other : list T) (A B R tail : list (@slot T)).

Lemma peek_live_prefix l tail i x :
  0 ≤ i → l !! Z.to_nat i = Some x →
  peek_live ((Obj <$> l) ++ tail) i = Some (Obj x).
Proof.
  intros Hi Hx. apply lookup_lt_Some in Hx as Hlt.
  unfold peek_live, peek, in_block.
  rewrite bool_decide_eq_true_2 by (rewrite length_app, length_fmap; lia).
  rewrite lookup_app_l by (rewrite length_fmap; lia).
  by rewrite list_lookup_fmap, Hx.
Qed.

Lemma poke_prefix l tail i y :
  0 ≤ i < Z.of_nat (length l) →
  poke ((Obj <$> l) ++ tail) i (Obj y)
    = Some ((Obj <$> <[Z.to_nat i := y]> l) ++ tail).
Proof.
  intros Hi. unfold poke, in_block.
  rewrite bool_decide_eq_true_2 by (rewrite length_app, length_fmap; lia).
  rewrite insert_app_l by (rewrite length_fmap; lia).
  by rewrite list_fmap_insert.
Qed.

Lemma swap_spec a l i j :
  represents a l →
  ∃ a', swap i j a = Some a'
        ∧ numAllocated a' = numAllocated a
        ∧ represents a'
            (if isPositiveAndBelow i (Z.of_nat (length l))
                && isPositiveAndBelow j (Z.of_nat (length l))
             then exchange (Z.to_nat i) (Z.to_nat j) l else l).
Proof.
  intros Hrep. unfold swap. rewrite (represents_numUsed _ _ Hrep).
  destruct (isPositiveAndBelow i _) eqn:Hi; cbn [andb]; [|by exists a].
  destruct (isPositiveAndBelow j _) eqn:Hj; [|by exists a].
  apply isPositiveAndBelow_true in Hi, Hj.
  destruct (represents_inv _ _ Hrep) as (tail & Ha & Hmax).
  destruct (lookup_lt_is_Some_2 l (Z.to_nat i) ltac:(lia)) as [x Hx].
  destruct (lookup_lt_is_Some_2 l (Z.to_nat j) ltac:(lia)) as [y Hy].
  unfold exchange. rewrite Hx, Hy. rewrite Ha. cbn [elements numAllocated].
  rewrite (peek_live_prefix l tail i x), (peek_live_prefix l tail j y) by (done || lia).
  cbn [mbind option_bind].
  rewrite poke_prefix by lia. cbn [mbind option_bind].
  rewrite poke_prefix by (rewrite length_insert; lia). cbn [mbind option_bind].
  eexists. split; [done|]. split; [done|].
  apply represents_intro; rewrite ?length_insert; done.
Qed.

Lemma clear_spec a l :
  represents a l →
  ∃ a', clear a = Some a'
        ∧ numUsed a' = 0
        ∧ numAllocated a' = numAllocated a
        ∧ elements a' = replicate (length l) Raw ++ drop (length l) (elements a)
        ∧ destructorCalls a'
            = destructorCalls a ++ seqZ 0 (Z.of_nat (length l))
        ∧ represents a' [].
Proof.
  intros Hrep. destruct (represents_inv _ _ Hrep) as (tail & Ha & Hmax).
  unfold clear. rewrite Ha. cbn [numUsed elements numAllocated destructorCalls].
  rewrite Nat2Z.id.
  pose proof (destroy_loop_spec (Obj <$> l) [] tail 0
                (Z.of_nat (length l + length tail)) (Z.of_nat (length l))
                (destructorCalls a) eq_refl (Forall_live_Obj l)) as Hloop.
  rewrite length_fmap in Hloop. cbn [app] in Hloop. rewrite Hloop.
  reduce_state. eexists. split; [done|]. cbn [numUsed numAllocated elements destructorCalls].
  split; [done|]. split; [done|].
  split; [by rewrite drop_app_length' by (by rewrite length_fmap)|].
  split; [done|].
  apply (represents_intro [] (replicate (length l) Raw ++ tail)); [|done|done].
  rewrite length_app, length_replicate. cbn [length]. lia.
Qed.

Variable eqT : T → T → bool.

Lemma equals_loop_spec other : ∀ l A R e,
  e = Z.of_nat (length A) → length l = length other →
  ∃ r c, equals_loop eqT e other (A ++ (Obj <$> l) ++ R) = Some (r, c)
    ∧ (r = true ↔ Forall2 (λ x y, eqT x y = true) l other)
    ∧ (r = true → c = length other)
    ∧ (r = false →
       ∃ k x y, c = S k ∧ l !! k = Some x ∧ other !! k = Some y
                ∧ eqT x y = false
                ∧ Forall2 (λ x y, eqT x y = true) (take k l) (take k other)).
Proof.
  induction other as [|o other IH]; intros l A R e He Hlen.
  - destruct l; [|done]. exists true, O. cbn [equals_loop].
    split; [done|]. split; [by split; [constructor|]|]. split; done.
  - destruct l as [|v l]; [done|]. cbn [length] in Hlen.
    cbn [equals_loop fmap list_fmap app].
    rewrite peek_mid by done. cbn [mbind option_bind].
    destruct (eqT v o) eqn:Hvo.
    + replace (A ++ Obj v :: (Obj <$> l) ++ R)
        with ((A ++ [Obj v]) ++ (Obj <$> l) ++ R) by same_list.
      destruct (IH l (A ++ [Obj v]) R (e + 1)) as (r & c & Hrun & Htrue & Hcount & Hfalse);
        [rewrite length_app; cbn [length]; lia | lia |].
      rewrite Hrun. cbn [mbind option_bind].
      exists r, (S c). split; [done|]. split; [|split].
      * rewrite Htrue. split; [by constructor|]. by inversion 1.
      * intros Hr. cbn [length]. by rewrite (Hcount Hr).
      * intros Hr. destruct (Hfalse Hr) as (k & x & y & -> & Hx & Hy & Hxy & Hpre).
        exists (S k), x, y. split; [done|]. split; [done|]. split; [done|].
        split; [done|]. cbn [take]. by constructor.
    + exists false, 1%nat. split; [done|]. split; [|split; [done|]].
      * split; [done|]. inversion 1; subst. congruence.
      * intros _. exists O, v, o. split; [done|]. split; [done|]. split; [done|].
        split; [done|]. constructor.
Qed.

Lemma operator_eq_spec a l other :
  represents a l → Z.of_nat (length other) ≤ INT_MAX →
  ∃ r c, operator_eq eqT a other = Some (r, c)
    ∧ (r = true ↔ Forall2 (λ x y, eqT x y = true) l other)
    ∧ (length l ≠ length other → r = false ∧ c = O)
    ∧ (r = true → c = length other)
    ∧ (r = false → length l = length other →
       ∃ k x y, c = S k ∧ l !! k = Some x ∧ other !! k = Some y
                ∧ eqT x y = false
                ∧ Forall2 (λ x y, eqT x y = true) (take k l) (take k other)).
Proof.
  intros Hrep Hother. unfold operator_eq, size.
  rewrite (represents_numUsed _ _ Hrep).
  rewrite wrap_id by (unfold INT_MIN; lia).
  case_bool_decide as Hne.
  - exists false, O. split; [done|]. split; [|split; [done|split; [done|]]].
    + split; [done|]. intros HF. apply Forall2_length in HF. lia.
    + intros _ Hlen. lia.
  - assert (length l = length other) as Hlen by lia.
    destruct (represents_inv _ _ Hrep) as (tail & Ha & _).
    rewrite Ha. cbn [elements].
    destruct (equals_loop_spec other l [] tail 0 eq_refl Hlen)
      as (r & c & Hrun & Htrue & Hcount & Hfalse).
    cbn [app] in Hrun. rewrite Hrun. exists r, c.
    split; [done|]. split; [done|]. split; [done|]. split; [done|].
    intros Hr _. by apply Hfalse.
Qed.

End SwapClearCompare.

(** * Sequences of operations *)

Section Sequences.
Context {T : Type}.
Variable trivially_copyable move_assignable : bool.
Implicit Types (a : @ArrayBase T) (l : list T) (o : @operation T).

(** Within its precondition every operation returns, and the container
    it returns holds a sequence again. *)
Lemma perform_represents o a l :
  represents a l → precondition trivially_copyable o a →
  ∃ a' l', perform trivially_copyable move_assignable o a = Some a'
           ∧ represents a' l'.
Proof.
  intros Hrep Hpre. pose proof (represents_numUsed _ _ Hrep) as Hu.
  destruct o; cbn [perform precondition] in *; rewrite ?Hu in Hpre.
  - destruct (add_spec trivially_copyable a l newElement Hrep Hpre)
      as (a' & H & Hr & _). eauto.
  - destruct (add_pack_spec trivially_copyable a l firstNewElement otherElements
                Hrep Hpre) as (a' & H & Hr). eauto.
  - destruct Hpre as [Hn Hfit].
    destruct (addArray_spec trivially_copyable a l elementsToAdd numElementsToAdd
                Hrep Hn Hfit) as (a' & H & Hr). eauto.
  - destruct (addArray_items_spec trivially_copyable a l items Hrep Hpre)
      as (a' & H & Hr). eauto.
  - destruct (addArray_from_spec trivially_copyable a l arrayToAddFrom Hrep Hpre)
      as (a' & H & Hr). eauto.
  - destruct Hpre as (Hs & Hsz & Hn & Hfit).
    destruct (addArray_range_spec trivially_copyable a l arrayToAddFrom startIndex
                numElementsToAdd Hrep Hs Hsz Hn Hfit) as (a' & k & H & _ & _ & Hr).
    rewrite H. cbn. eauto.
  - destruct Hpre as (Hn & Hfit & Hgap).
    destruct (insert_spec trivially_copyable a l indexToInsertAt newElement
                numberOfTimesToInsertIt Hrep Hn Hfit Hgap) as (a' & H & Hr). eauto.
  - destruct Hpre as (Hn & Hfit & Hgap).
    destruct (insertArray_spec trivially_copyable a l indexToInsertAt newElements
                numberOfElements Hrep Hn Hfit Hgap) as (a' & H & Hr). eauto.
  - destruct Hpre as (Hi & Hn & Hend).
    destruct (removeElements_spec trivially_copyable move_assignable a l
                indexToRemoveAt numElementsToRemove Hrep Hi Hn Hend)
      as (a' & H & Hr & _). eauto.
  - destruct (swap_spec a l index1 index2 Hrep) as (a' & H & _ & Hr). eauto.
  - destruct (move_spec trivially_copyable move_assignable a l currentIndex newIndex
                Hrep) as (a' & H & _ & Hr). eauto.
  - destruct (clear_spec a l Hrep) as (a' & H & _ & _ & _ & _ & Hr). eauto.
  - destruct (ensureAllocatedSize_spec trivially_copyable a l minNumElements
                Hrep Hpre) as (a' & H & Hr & _). eauto.
  - destruct (setAllocatedSize_spec trivially_copyable a l numElements Hrep Hpre)
      as (a' & H & Hr & _). eauto.
  - destruct (shrinkToNoMoreThan_spec trivially_copyable a l maxNumElements Hrep Hpre)
      as (a' & H & Hr & _). eauto.
Qed.


Lemma represents_empty : represents (@empty T) [].
Proof. unfold represents, empty. cbn. unfold INT_MAX. repeat split; lia. Qed.

End Sequences.

(** * Properties of the operations *)

Section Properties.
Context {T : Type}.
Variable trivially_copyable move_assignable : bool.
Implicit Types (a : @ArrayBase T) (l : list T).

(** C1. For every container holding a sequence and every requested
    minimum [minNumElements] whose grown size is an [int]: when the
    minimum exceeds the capacity, [ensureAllocatedSize] sets the capacity
    to [minNumElements + minNumElements / 2 + 8] rounded down to a
    multiple of 8; otherwise it leaves the capacity unchanged; in both
    cases the capacity is at least the minimum afterwards. *)
Theorem ensureAllocatedSize_capacity a l minNumElements :
  represents a l → growth_fits (capacity a) minNumElements →
  ∃ a', ensureAllocatedSize trivially_copyable minNumElements a = Some a'
    ∧ (minNumElements > capacity a →
       capacity a' = round_down_to_multiple_of_8
                       (minNumElements + minNumElements ÷ 2 + 8))
    ∧ (minNumElements ≤ capacity a → capacity a' = capacity a)
    ∧ minNumElements ≤ capacity a'.
Proof.
  intros Hrep Hfits. unfold capacity in *.
  destruct (ensureAllocatedSize_spec trivially_copyable a l minNumElements Hrep Hfits)
    as (a' & Hens & _ & Hge & Hsame & Hgrow).
  exists a'. split; [done|]. split; [intros; apply Hgrow; lia|].
  split; [by intros ->%Hsame|lia].
Qed.


(** C4. With [0 <= indexToRemoveAt], [0 <= numElementsToRemove] and
    [indexToRemoveAt + numElementsToRemove <= len], [removeElements]
    leaves the sequence without the range: the elements before the range
    stay where they are, those behind it follow in their order, the
    length drops by the count, and a count of zero changes nothing. *)
Theorem removeElements_range a l indexToRemoveAt numElementsToRemove :
  represents a l →
  0 ≤ indexToRemoveAt → 0 ≤ numElementsToRemove →
  indexToRemoveAt + numElementsToRemove ≤ Z.of_nat (length l) →
  let i := Z.to_nat indexToRemoveAt in
  let n := Z.to_nat numElementsToRemove in
  ∃ a' l',
    removeElements trivially_copyable move_assignable
                   indexToRemoveAt numElementsToRemove a = Some a'
    ∧ represents a' l'
    ∧ l' = take i l ++ drop (i + n) l
    ∧ size a' = Z.of_nat (length l) - numElementsToRemove
    ∧ (∀ k, (k < i)%nat → l' !! k = l !! k)
    ∧ (∀ k, (i ≤ k)%nat → l' !! k = l !! (k + n)%nat)
    ∧ (numElementsToRemove = 0 → a' = a ∧ l' = l).
Proof.
  intros Hrep Hi Hn Hend i n.
  destruct (removeElements_spec trivially_copyable move_assignable a l
              indexToRemoveAt numElementsToRemove Hrep Hi Hn Hend)
    as (a' & Hrm & Hrep' & _).
  replace (Z.to_nat (indexToRemoveAt + numElementsToRemove)) with (i + n)%nat
    in Hrep' by lia. fold i in Hrep'.
  exists a', (take i l ++ drop (i + n) l).
  split; [done|]. split; [done|]. split; [done|]. split; [|split; [|split]].
  - unfold size. rewrite (represents_numUsed _ _ Hrep').
    rewrite length_app, length_take, length_drop. lia.
  - intros k Hk. rewrite lookup_app_l by (rewrite length_take; lia).
    by apply lookup_take_lt.
  - intros k Hk. rewrite lookup_app_r by (rewrite length_take; lia).
    rewrite length_take, lookup_drop. f_equal. lia.
  - intros ->. unfold removeElements in Hrm.
    rewrite bool_decide_eq_false_2 in Hrm by lia. split; [congruence|].
    unfold n. cbn. by rewrite Nat.add_0_r, take_drop.
Qed.

(** C5. [move] with a current index inside the sequence puts that
    element at the new index, clamped to the last index when it lies
    outside; the elements between the two positions, the one at the new
    position included, each step by one toward the old position, all
    others and the length are unchanged.  With a current index outside
    the sequence nothing changes.  [move (0, 2)] turns [w, x, y, z] into
    [x, y, w, z]. *)
Theorem move_relocates_one_element a l currentIndex newIndex :
  represents a l →
  let len := Z.of_nat (length l) in
  ∃ a' l',
    move trivially_copyable move_assignable currentIndex newIndex a = Some a'
    ∧ represents a' l'
    ∧ length l' = length l
    ∧ (isPositiveAndBelow currentIndex len = true →
       let from := Z.to_nat currentIndex in
       let to := Z.to_nat (clamped_index newIndex len) in
       l' = relocate from to l
       ∧ l' !! to = l !! from
       ∧ (∀ k, (from ≤ k < to)%nat → l' !! k = l !! S k)
       ∧ (∀ k, (to ≤ k < from)%nat → l' !! S k = l !! k)
       ∧ (∀ k, (k < from `min` to ∨ from `max` to < k)%nat → l' !! k = l !! k))
    ∧ (isPositiveAndBelow currentIndex len = false → a' = a ∧ l' = l)
    ∧ (∀ w x y z, l = [w; x; y; z] → currentIndex = 0 → newIndex = 2 →
       l' = [x; y; w; z]).
Proof.
  intros Hrep len.
  destruct (move_spec trivially_copyable move_assignable a l currentIndex newIndex Hrep)
    as (a' & Hmv & _ & Hrep').
  fold len in Hrep'.
  destruct (isPositiveAndBelow currentIndex len) eqn:Hin.
  - apply isPositiveAndBelow_true in Hin as Hin'.
    pose proof (clamped_index_bounds newIndex len ltac:(lia)) as Hto.
    set (from := Z.to_nat currentIndex) in *.
    set (to := Z.to_nat (clamped_index newIndex len)) in *.
    assert (from < length l)%nat as Hf by (unfold from, len in *; lia).
    assert (to < length l)%nat as Ht by (unfold to, len in *; lia).
    exists a', (relocate from to l).
    split; [done|]. split; [done|]. split; [apply length_relocate|].
    split; [|split; [done|]].
    + intros _. split; [done|]. split; [by apply relocate_lookup_target|].
      split; [intros k Hk; by apply relocate_lookup_shift_down|].
      split; [intros k Hk; by apply relocate_lookup_shift_up|].
      intros k Hk. by apply relocate_lookup_outside.
    + intros w x y z -> -> ->. reflexivity.
  - exists a', l. split; [done|]. split; [done|]. split; [done|].
    split; [done|]. split.
    + intros _. unfold move in Hmv. rewrite (represents_numUsed _ _ Hrep) in Hmv.
      fold len in Hmv. rewrite Hin in Hmv. split; congruence.
    + intros w x y z -> -> ->. done.
Qed.


(** C7. For an index [0 <= i <= len], inserting one element at [i] and
    then removing the range [i, i + 1) gives back the sequence, for every
    container whose growth by one element stays within [int]. *)
Theorem insert_then_remove a l i newElement :
  represents a l → 0 ≤ i ≤ Z.of_nat (length l) →
  growth_fits (capacity a) (Z.of_nat (length l) + 1) →
  ∃ a1 a2,
    insert trivially_copyable i newElement 1 a = Some a1
    ∧ removeElements trivially_copyable move_assignable i 1 a1 = Some a2
    ∧ represents a2 l
    ∧ size a2 = size a.
Proof.
  intros Hrep Hi Hfits.
  destruct (insert_spec trivially_copyable a l i newElement 1 Hrep ltac:(lia) Hfits
              ltac:(lia)) as (a1 & Hins & Hrep1).
  assert (Z.to_nat (gap_index i (Z.of_nat (length l))) = Z.to_nat i) as Hgap.
  { unfold gap_index. destruct (isPositiveAndBelow i _) eqn:Hin; [done|].
    apply isPositiveAndBelow_false in Hin. lia. }
  rewrite Hgap in Hrep1. change (Z.to_nat 1) with 1%nat in Hrep1.
  cbn [replicate app] in Hrep1.
  destruct (removeElements_spec trivially_copyable move_assignable a1 _ i 1 Hrep1)
    as (a2 & Hrm & Hrep2 & _); [lia|lia| |].
  { rewrite length_app, length_take. cbn [length]. rewrite length_drop. lia. }
  exists a1, a2. split; [done|]. split; [done|].
  assert (represents a2 l) as Hfin.
  { assert (take (Z.to_nat i) (take (Z.to_nat i) l ++ newElement :: drop (Z.to_nat i) l)
            ++ drop (Z.to_nat (i + 1))
                 (take (Z.to_nat i) l ++ newElement :: drop (Z.to_nat i) l) = l) as Heq.
    { rewrite take_app_length' by (rewrite length_take; lia).
      replace (Z.to_nat (i + 1)) with (length (take (Z.to_nat i) l) + 1)%nat
        by (rewrite length_take; lia).
      rewrite drop_app_add.
      change (drop 1 (newElement :: drop (Z.to_nat i) l)) with (drop (Z.to_nat i) l).
      by rewrite take_drop. }
    by rewrite Heq in Hrep2. }
  split; [done|].
  unfold size. by rewrite (represents_numUsed _ _ Hfin), (represents_numUsed _ _ Hrep).
Qed.

(** C9. [clear] runs the destructor of each of the [len] live elements
    exactly once, in index order, leaves their cells without objects,
    sets the length to 0 and keeps the capacity; an [add] that follows
    with room for one element keeps the capacity too. *)
Theorem clear_destroys_all_keeps_capacity a l :
  represents a l →
  ∃ a', clear a = Some a'
    ∧ size a' = 0
    ∧ capacity a' = capacity a
    ∧ destructorCalls a'
        = destructorCalls a ++ seqZ 0 (Z.of_nat (length l))
    ∧ (let calls := drop (length (destructorCalls a)) (destructorCalls a') in
       NoDup calls ∧ ∀ i, i ∈ calls ↔ 0 ≤ i < Z.of_nat (length l))
    ∧ (∀ i, (i < length l)%nat → elements a' !! i = Some Raw)
    ∧ (∀ e, size a' + 1 ≤ capacity a' →
       ∃ a'', add trivially_copyable e a' = Some a''
              ∧ capacity a'' = capacity a'
              ∧ represents a'' [e]).
Proof.
  intros Hrep.
  destruct (clear_spec a l Hrep) as (a' & Hclr & Hu & Hcap & Hel & Hlog & Hrep').
  exists a'. split; [done|]. split; [done|]. split; [done|]. split; [done|].
  split; [|split].
  - rewrite Hlog, drop_app_length. split; [apply NoDup_seqZ|].
    intros i. rewrite elem_of_seqZ. lia.
  - intros i Hi. rewrite Hel, lookup_app_l by (rewrite length_replicate; lia).
    by apply lookup_replicate_2.
  - intros e Hroom. unfold size, capacity in *. rewrite Hu in Hroom.
    destruct (add_spec trivially_copyable a' [] e Hrep') as (a'' & Hadd & Hrep'' & Hsame).
    { left. cbn [length]. lia. }
    exists a''. split; [done|]. split; [|done]. apply Hsame. cbn [length]. lia.
Qed.

(** C10. With a negative index and a count that is not negative,
    [insert] returns and appends the copies at the end: it gives the
    very container that inserting at index [len] gives.  The growth for
    the new length is assumed to stay within [int]. *)
Theorem insert_negative_index_appends a l indexToInsertAt newElement n :
  represents a l → indexToInsertAt < 0 → 0 ≤ n →
  growth_fits (capacity a) (Z.of_nat (length l) + n) →
  ∃ a', insert trivially_copyable indexToInsertAt newElement n a = Some a'
    ∧ represents a' (l ++ replicate (Z.to_nat n) newElement)
    ∧ size a' = Z.of_nat (length l) + n
    ∧ insert trivially_copyable (Z.of_nat (length l)) newElement n a = Some a'.
Proof.
  intros Hrep Hneg Hn Hfits.
  pose proof (growth_fits_int _ _ Hfits (represents_capacity_int _ _ Hrep)) as Hint.
  assert (isPositiveAndBelow indexToInsertAt (Z.of_nat (length l)) = false) as Hi
    by (apply isPositiveAndBelow_false; lia).
  assert (isPositiveAndBelow (Z.of_nat (length l)) (Z.of_nat (length l)) = false) as Hj
    by (apply isPositiveAndBelow_false; lia).
  destruct (insert_spec trivially_copyable a l indexToInsertAt newElement n Hrep Hn Hfits
              ltac:(done)) as (a' & Hins & Hrep').
  unfold gap_index in Hrep'.
  rewrite Hi, Nat2Z.id, take_ge, drop_ge, app_nil_r in Hrep' by lia.
  exists a'. split; [done|]. split; [done|]. split.
  - unfold size. rewrite (represents_numUsed _ _ Hrep'), length_app, length_replicate. lia.
  - rewrite <- Hins. unfold insert, createInsertSpace.
    assert (growth_fits (numAllocated a) (int_add (numUsed a) n)) as Hfits'.
    { rewrite (represents_numUsed _ _ Hrep). unfold int_add.
      rewrite wrap_id by (unfold INT_MIN; lia). done. }
    destruct (ensureAllocatedSize_spec trivially_copyable a l _ Hrep Hfits')
      as (a1 & Hens & Hrep1 & _).
    rewrite Hens. cbn [mbind option_bind].
    by rewrite (represents_numUsed _ _ Hrep1), Hi, Hj.
Qed.

End Properties.

(** * Comparison, and where the code departs from the specification *)

(** C8. [operator==] against the elements of another container returns
    true exactly when the lengths agree and every pair of corresponding
    elements compares equal; with different lengths it returns false
    without comparing elements; at the first unequal pair, at index [k],
    it returns false after [k + 1] comparisons; it is reflexive and
    symmetric when the equality of the elements is.  [1, 2, 3] equals
    [1, 2, 3] and differs from [1, 2] and from [1, 2, 4]. *)
Theorem operator_eq_structural {T : Type} (eqT : T → T → bool)
    (a b : @ArrayBase T) (la lb : list T) :
  represents a la → represents b lb →
  ∃ r c, operator_eq eqT a lb = Some (r, c)
    ∧ (r = true ↔
       length la = length lb
       ∧ ∀ i x y, la !! i = Some x → lb !! i = Some y → eqT x y = true)
    ∧ (length la ≠ length lb → r = false ∧ c = O)
    ∧ (r = false → length la = length lb →
       ∃ k x y, c = S k ∧ la !! k = Some x ∧ lb !! k = Some y
                ∧ eqT x y = false
                ∧ ∀ i x' y', (i < k)%nat → la !! i = Some x' →
                             lb !! i = Some y' → eqT x' y' = true)
    ∧ ((∀ x, eqT x x = true) → fst <$> operator_eq eqT a la = Some true)
    ∧ ((∀ x y, eqT x y = eqT y x) → fst <$> operator_eq eqT b la = Some r)
    ∧ (fst <$> operator_eq Z.eqb holding_123 [1; 2; 3] = Some true
       ∧ fst <$> operator_eq Z.eqb holding_123 [1; 2] = Some false
       ∧ fst <$> operator_eq Z.eqb holding_123 [1; 2; 4] = Some false).
Proof.
  intros Ha Hb.
  assert (∀ (s : @ArrayBase T) l, represents s l → Z.of_nat (length l) ≤ INT_MAX)
    as Hint.
  { intros s l Hs. pose proof (represents_len_within_capacity _ _ Hs) as Hinv.
    unfold len_within_capacity, size, capacity in Hinv.
    rewrite (represents_numUsed _ _ Hs) in Hinv.
    pose proof (represents_capacity_int _ _ Hs). lia. }
  destruct (operator_eq_spec eqT a la lb Ha (Hint _ _ Hb))
    as (r & c & Hrun & Htrue & Hlen & _ & Hfalse).
  exists r, c. split; [done|]. split; [|split; [done|split; [|split; [|split]]]].
  - by rewrite Htrue, Forall2_same_length_lookup.
  - intros Hr Hl. destruct (Hfalse Hr Hl) as (k & x & y & -> & Hx & Hy & Hxy & Hpre).
    exists k, x, y. split; [done|]. split; [done|]. split; [done|]. split; [done|].
    intros i x' y' Hi Hx' Hy'.
    eapply (Forall2_lookup_lr _ _ _ i x' y' Hpre); by rewrite lookup_take_lt.
  - intros Hrefl.
    destruct (operator_eq_spec eqT a la la Ha (Hint _ _ Ha))
      as (r' & c' & Hrun' & Htrue' & _).
    rewrite Hrun'. cbn. f_equal. apply Htrue'.
    apply Forall2_same_length_lookup_2; [done|].
    intros i x y Hx Hy. rewrite Hx in Hy. injection Hy as <-. apply Hrefl.
  - intros Hsym.
    destruct (operator_eq_spec eqT b lb la Hb (Hint _ _ Ha))
      as (r' & c' & Hrun' & Htrue' & _).
    rewrite Hrun'. cbn. f_equal.
    assert (r' = true ↔ r = true) as Hiff.
    { assert (∀ l1 l2, Forall2 (λ x y, eqT x y = true) l1 l2 →
                       Forall2 (λ x y, eqT x y = true) l2 l1) as Hflip
        by (induction 1; constructor; [by rewrite Hsym|done]).
      rewrite Htrue, Htrue'. split; apply Hflip. }
    destruct r, r'; try done; [by apply Hiff|symmetry; by apply Hiff].
  - by vm_compute.
Qed.

(** C3. Inserting no copies at an index inside a sequence of elements
    that are not trivially copyable: every element from that index on is
    move-constructed onto itself and destroyed, while the length still
    counts it.  The overload for trivially copyable elements leaves the
    sequence as it is. *)
Theorem insert_zero_copies_destroys_live_elements :
  represents holding_5 [5]
  ∧ (∃ a', insert false 0 7 0 holding_5 = Some a'
           ∧ size a' = 1
           ∧ elements a' !! 0%nat = Some Raw
           ∧ destructorCalls a' = [0]
           ∧ ¬ represents a' [5])
  ∧ (∃ a', insert true 0 7 0 holding_5 = Some a' ∧ represents a' [5]).
Proof.
  assert (represents holding_5 [5]) as H5.
  { unfold represents. cbn. unfold INT_MAX. repeat split; lia. }
  split; [done|]. split.
  - eexists. split; [by vm_compute|]. cbn. split; [done|]. split; [done|].
    split; [done|]. intros (_ & _ & _ & Htake). by vm_compute in Htake.
  - eexists. split; [by vm_compute|]. exact H5.
Qed.

(** C1. A request for one cell on the empty container reserves 8 cells,
    where rounding [1 + 1 / 2 + 8 = 9] up to a multiple of 8 gives 16. *)
Lemma ensureAllocatedSize_rounds_down_not_up :
  1 > capacity (@empty Z)
  ∧ capacity <$> ensureAllocatedSize true 1 (@empty Z) = Some 8
  ∧ round_up_to_multiple_of_8 (1 + 1 ÷ 2 + 8) = 16.
Proof. by vm_compute. Qed.

(** Past the largest request whose grown size is an [int], the sum
    wraps around and the capacity becomes negative. *)
Lemma ensureAllocatedSize_wraps_around :
  capacity <$> ensureAllocatedSize true INT_MAX (@empty Z)
    = Some (-1073741824).
Proof. by vm_compute. Qed.



(** C7. On [5], [insert (-1, 9, 1)] appends and gives [5, 9];
    [removeElements (-1, 1)] then shifts the elements to the cell before
    the block, which is undefined. *)
Lemma remove_at_negative_index_after_insert :
  (∃ a1,
     insert true (-1) 9 1 holding_5 = Some a1
     ∧ represents a1 [5; 9]
     ∧ removeElements true true (-1) 1 a1 = None)
  ∧ (∃ a1,
       insert false (-1) 9 1 holding_5 = Some a1
       ∧ represents a1 [5; 9]
       ∧ removeElements false true (-1) 1 a1 = None
       ∧ removeElements false false (-1) 1 a1 = None).
Proof.
  split; eexists; (split; [by vm_compute|]);
    (split; [unfold represents; cbn; unfold INT_MAX; repeat split; lia|]);
    by vm_compute.
Qed.

(** C8. With an equality of the elements that is not reflexive, a
    container does not equal itself: holding a single NaN, it is compared
    with its own sequence, and the first pair compares unequal. *)
Lemma operator_eq_of_nan_is_not_reflexive :
  represents holding_nan [None]
  ∧ eq_with_nan None None = false
  ∧ operator_eq eq_with_nan holding_nan [None] = Some (false, 1%nat).
Proof.
  split; [holds_sequence|]. split; by vm_compute.
Qed.

(** C10. On the empty container, [insert (-1, 7, INT_MAX)]: the size the
    growth computes, [INT_MAX + INT_MAX / 2 + 8], is no [int]; the sum
    wraps around to a negative capacity, the block is released, and the
    first copy is constructed outside of it. *)
Lemma insert_negative_index_past_int_fails :
  represents (@empty Z) []
  ∧ ¬ growth_fits (capacity (@empty Z)) (0 + INT_MAX)
  ∧ capacity <$> ensureAllocatedSize true (int_add 0 INT_MAX) (@empty Z)
    = Some (-1073741824)
  ∧ insert true (-1) 7 INT_MAX (@empty Z) = None
  ∧ insert false (-1) 7 INT_MAX (@empty Z) = None.
Proof.
  split; [apply represents_empty|].
  split; [intros [H|H]; by vm_compute in H|].
  split; [by vm_compute|].
  assert (Z.to_nat INT_MAX = S (Z.to_nat (INT_MAX - 1))) as Hsucc
    by (unfold INT_MAX; lia).
  split; unfold insert, createInsertSpace.
  - replace (ensureAllocatedSize true (int_add (numUsed empty) INT_MAX) empty)
      with (Some (@mkArrayBase Z [] (-1073741824) 0 [])) by (by vm_compute).
    cbn [mbind option_bind numUsed]. rewrite Hsucc. reflexivity.
  - replace (ensureAllocatedSize false (int_add (numUsed empty) INT_MAX) empty)
      with (Some (@mkArrayBase Z [] (-1073741824) 0 [])) by (by vm_compute).
    cbn [mbind option_bind numUsed]. rewrite Hsucc. reflexivity.
Qed.

(** The scenario of the specification: [add (1); add (2); add (3);
    insert (1, 9, 1)] gives [1, 9, 2, 3]; [removeElements (1, 2)] then
    gives [1, 3] and [swap (0, 1)] gives [3, 1]. *)
Lemma scenario_of_the_specification :
  (a ← add true 1 (@empty Z); a ← add true 2 a; a ← add true 3 a;
   insert true 1 9 1 a) = Some scenario_1923
  ∧ ∃ a1 a2,
      removeElements true true 1 2 scenario_1923 = Some a1
      ∧ represents a1 [1; 3]
      ∧ swap 0 1 a1 = Some a2
      ∧ represents a2 [3; 1].
Proof.
  split; [by vm_compute|]. eexists _, _.
  split; [by vm_compute|]. split; [holds_sequence|].
  split; [by vm_compute|]. holds_sequence.
Qed.

(** * The theorems at concrete containers *)

(** Growing a container of capacity 8 for 9 elements reserves 16 cells. *)
Lemma ensureAllocatedSize_capacity_witness :
  represents holding_123 [1; 2; 3]
  ∧ growth_fits (capacity holding_123) 9
  ∧ ∃ a', ensureAllocatedSize false 9 holding_123 = Some a'
          ∧ capacity a' = 16 ∧ 9 ≤ capacity a'.
Proof.
  assert (represents holding_123 [1; 2; 3]) as H1 by holds_sequence.
  assert (growth_fits (capacity holding_123) 9) as H2
    by (right; by vm_compute).
  split; [exact H1|]. split; [exact H2|].
  destruct (ensureAllocatedSize_capacity false holding_123 [1; 2; 3] 9 H1 H2)
    as (a' & Hens & Hgrow & _ & Hge).
  exists a'. split; [exact Hens|]. split; [|exact Hge].
  rewrite Hgrow by (cbn; lia). reflexivity.
Defined.


(** The scenario of the specification: removing two elements at index 1 of [1, 9, 2, 3]. *)
Lemma removeElements_range_witness :
  represents scenario_1923 [1; 9; 2; 3]
  ∧ ∃ a', removeElements false true 1 2 scenario_1923 = Some a'
          ∧ represents a' [1; 3] ∧ size a' = 2.
Proof.
  assert (represents scenario_1923 [1; 9; 2; 3]) as H1 by holds_sequence.
  split; [exact H1|].
  destruct (removeElements_range false true scenario_1923 [1; 9; 2; 3] 1 2 H1
              ltac:(lia) ltac:(lia) ltac:(cbn; lia))
    as (a' & l' & Hrm & Hrep & Hl & Hsize & _).
  exists a'. split; [exact Hrm|]. split; [|exact Hsize].
  rewrite Hl in Hrep. exact Hrep.
Defined.

(** Moving the first element of [1, 9, 2, 3] to index 2. *)
Lemma move_relocates_one_element_witness :
  represents scenario_1923 [1; 9; 2; 3]
  ∧ ∃ a', move false false 0 2 scenario_1923 = Some a'
          ∧ represents a' [9; 2; 1; 3].
Proof.
  assert (represents scenario_1923 [1; 9; 2; 3]) as H1 by holds_sequence.
  split; [exact H1|].
  destruct (move_relocates_one_element false false scenario_1923 [1; 9; 2; 3] 0 2 H1)
    as (a' & l' & Hmv & Hrep & _ & _ & _ & Hex).
  exists a'. split; [exact Hmv|].
  rewrite (Hex 1 9 2 3 eq_refl eq_refl eq_refl) in Hrep. exact Hrep.
Defined.


(** Inserting 9 at index 1 of [1, 2, 3] and removing it again. *)
Lemma insert_then_remove_witness :
  represents holding_123 [1; 2; 3]
  ∧ 0 ≤ 1 ≤ 3
  ∧ growth_fits (capacity holding_123) 4
  ∧ ∃ a1 a2, insert false 1 9 1 holding_123 = Some a1
             ∧ removeElements false false 1 1 a1 = Some a2
             ∧ represents a2 [1; 2; 3].
Proof.
  assert (represents holding_123 [1; 2; 3]) as H1 by holds_sequence.
  assert (growth_fits (capacity holding_123) 4) as H2 by (left; cbn; lia).
  split; [exact H1|]. split; [lia|]. split; [exact H2|].
  destruct (insert_then_remove false false holding_123 [1; 2; 3] 1 9 H1
              ltac:(cbn; lia) H2)
    as (a1 & a2 & Hins & Hrm & Hrep & _).
  exists a1, a2. split; [exact Hins|]. split; [exact Hrm|exact Hrep].
Defined.

(** Comparing [1, 2, 3] with the longer [1, 9, 2, 3]. *)
Lemma operator_eq_structural_witness :
  represents holding_123 [1; 2; 3]
  ∧ represents scenario_1923 [1; 9; 2; 3]
  ∧ ∃ c, operator_eq Z.eqb holding_123 [1; 9; 2; 3] = Some (false, c).
Proof.
  assert (represents holding_123 [1; 2; 3]) as H1 by holds_sequence.
  assert (represents scenario_1923 [1; 9; 2; 3]) as H2 by holds_sequence.
  split; [exact H1|]. split; [exact H2|].
  destruct (operator_eq_structural Z.eqb holding_123 scenario_1923
              [1; 2; 3] [1; 9; 2; 3] H1 H2)
    as (r & c & Hrun & _ & Hlen & _).
  destruct (Hlen ltac:(cbn; lia)) as [-> _].
  exists c. exact Hrun.
Defined.

(** Clearing [1, 9, 2, 3]: the destructors of the cells 0 to 3 run. *)
Lemma clear_destroys_all_keeps_capacity_witness :
  represents scenario_1923 [1; 9; 2; 3]
  ∧ ∃ a', clear scenario_1923 = Some a'
          ∧ size a' = 0 ∧ capacity a' = 8
          ∧ destructorCalls a' = [0; 1; 2; 3].
Proof.
  assert (represents scenario_1923 [1; 9; 2; 3]) as H1 by holds_sequence.
  split; [exact H1|].
  destruct (clear_destroys_all_keeps_capacity false scenario_1923 [1; 9; 2; 3] H1)
    as (a' & Hclr & Hsize & Hcap & Hlog & _).
  exists a'. split; [exact Hclr|]. split; [exact Hsize|].
  split; [exact Hcap|exact Hlog].
Defined.

(** Inserting two copies of 7 at index -4 of [1, 2, 3]. *)
Lemma insert_negative_index_appends_witness :
  represents holding_123 [1; 2; 3]
  ∧ -4 < 0 ∧ 0 ≤ 2
  ∧ growth_fits (capacity holding_123) 5
  ∧ ∃ a', insert false (-4) 7 2 holding_123 = Some a'
          ∧ represents a' [1; 2; 3; 7; 7].
Proof.
  assert (represents holding_123 [1; 2; 3]) as H1 by holds_sequence.
  assert (growth_fits (capacity holding_123) 5) as H2 by (left; cbn; lia).
  split; [exact H1|]. split; [lia|]. split; [lia|]. split; [exact H2|].
  destruct (insert_negative_index_appends false holding_123 [1; 2; 3] (-4) 7 2 H1
              ltac:(lia) ltac:(lia) H2)
    as (a' & Hins & Hrep & _).
  exists a'. split; [exact Hins|exact Hrep].
Defined.

(** * What the element operations leave alone

    The functions that construct, destroy and move elements change the
    cells and the trace of destructor calls, never [numAllocated] or
    [numUsed]. *)

Section Fields.
Context {T : Type}.
Variable trivially_copyable move_assignable : bool.
Implicit Types (a : @ArrayBase T).

Lemma same_fields_trans a a1 a2 :
  same_fields a a1 → same_fields a1 a2 → same_fields a a2.
Proof. unfold same_fields. intros [-> ->] [-> ->]. done. Qed.

Lemma construct_at_fields i (v : T) a a' :
  construct_at i v a = Some a' → same_fields a a'.
Proof. unfold construct_at. intros; simplify_option_eq. done. Qed.

Lemma destroy_at_fields i a a' :
  destroy_at i a = Some a' → same_fields a a'.
Proof. unfold destroy_at. intros; simplify_option_eq. done. Qed.

Lemma move_construct_at_fields dst src a a' :
  move_construct_at dst src a = Some a' → same_fields a a'.
Proof. unfold move_construct_at. intros; simplify_option_eq. done. Qed.

Lemma moveAssignElement_fields dst src a a' :
  moveAssignElement move_assignable dst src a = Some a' → same_fields a a'.
Proof.
  unfold moveAssignElement, move_assign_at. destruct move_assignable.
  - intros H. destruct (peek_live _ _); [|done].
    by apply move_construct_at_fields in H.
  - intros H. destruct (destroy_at dst a) as [a1|] eqn:Hd; [|done].
    cbn [mbind option_bind] in H.
    eapply same_fields_trans;
      eauto using destroy_at_fields, move_construct_at_fields.
Qed.

Lemma moveAssignElementFromTemp_fields dst x a a' :
  moveAssignElementFromTemp move_assignable dst x a = Some a' →
  same_fields a a'.
Proof.
  unfold moveAssignElementFromTemp. destruct move_assignable.
  - intros; simplify_option_eq. done.
  - intros H. destruct (destroy_at dst a) as [a1|] eqn:Hd; [|done].
    cbn [mbind option_bind] in H. apply destroy_at_fields in Hd.
    destruct (poke _ _ _); [|done]. cbn in H. injection H as <-.
    eapply same_fields_trans; [exact Hd|done].
Qed.

Lemma destroy_loop_fields n : ∀ i a a',
  destroy_loop n i a = Some a' → same_fields a a'.
Proof.
  induction n as [|n IH]; intros i a a' H; cbn [destroy_loop] in H.
  - by injection H as <-.
  - destruct (destroy_at i a) as [a1|] eqn:Hd; [|done].
    cbn [mbind option_bind] in H.
    eapply same_fields_trans; eauto using destroy_at_fields.
Qed.

Lemma fill_loop_fields n : ∀ i (v : T) a a',
  fill_loop n i v a = Some a' → same_fields a a'.
Proof.
  induction n as [|n IH]; intros i v a a' H; cbn [fill_loop] in H.
  - by injection H as <-.
  - destruct (construct_at i v a) as [a1|] eqn:Hd; [|done].
    cbn [mbind option_bind] in H.
    eapply same_fields_trans; eauto using construct_at_fields.
Qed.

Lemma copy_construct_loop_fields n : ∀ i (src : list T) a a',
  copy_construct_loop n i src a = Some a' → same_fields a a'.
Proof.
  induction n as [|n IH]; intros i src a a' H; cbn [copy_construct_loop] in H.
  - by injection H as <-.
  - destruct src as [|e rest]; [done|].
    destruct (construct_at i e a) as [a1|] eqn:Hd; [|done].
    cbn [mbind option_bind] in H.
    eapply same_fields_trans; eauto using construct_at_fields.
Qed.

Lemma shift_right_loop_fields n : ∀ e ne a a',
  shift_right_loop n e ne a = Some a' → same_fields a a'.
Proof.
  induction n as [|n IH]; intros e ne a a' H; cbn [shift_right_loop] in H.
  - by injection H as <-.
  - destruct (move_construct_at _ _ a) as [a1|] eqn:H1; [|done].
    cbn [mbind option_bind] in H.
    destruct (destroy_at _ a1) as [a2|] eqn:H2; [|done].
    cbn [mbind option_bind] in H.
    eapply same_fields_trans; [|eapply IH, H].
    eapply same_fields_trans;
      eauto using destroy_at_fields, move_construct_at_fields.
Qed.

Lemma shift_left_loop_fields n : ∀ d s a a',
  shift_left_loop move_assignable n d s a = Some a' → same_fields a a'.
Proof.
  induction n as [|n IH]; intros d s a a' H; cbn [shift_left_loop] in H.
  - by injection H as <-.
  - destruct (moveAssignElement _ _ _ a) as [a1|] eqn:H1; [|done].
    cbn [mbind option_bind] in H.
    eapply same_fields_trans; eauto using moveAssignElement_fields.
Qed.

Lemma walk_up_loop_fields n : ∀ e a e' a',
  walk_up_loop move_assignable n e a = Some (e', a') → same_fields a a'.
Proof.
  induction n as [|n IH]; intros e a e' a' H; cbn [walk_up_loop] in H.
  - by injection H as _ <-.
  - destruct (moveAssignElement _ _ _ a) as [a1|] eqn:H1; [|done].
    cbn [mbind option_bind] in H.
    eapply same_fields_trans; eauto using moveAssignElement_fields.
Qed.

Lemma walk_down_loop_fields n : ∀ e a e' a',
  walk_down_loop move_assignable n e a = Some (e', a') → same_fields a a'.
Proof.
  induction n as [|n IH]; intros e a e' a' H; cbn [walk_down_loop] in H.
  - by injection H as _ <-.
  - destruct (moveAssignElement _ _ _ a) as [a1|] eqn:H1; [|done].
    cbn [mbind option_bind] in H.
    eapply same_fields_trans; eauto using moveAssignElement_fields.
Qed.

Lemma addArrayInternal_fields (src : list T) n a a' :
  addArrayInternal trivially_copyable src n a = Some a' → same_fields a a'.
Proof.
  unfold addArrayInternal. destruct trivially_copyable.
  - intros; simplify_option_eq. done.
  - apply copy_construct_loop_fields.
Qed.

Lemma createInsertSpaceInternal_fields i n a a' :
  createInsertSpaceInternal trivially_copyable i n a = Some a' →
  same_fields a a'.
Proof.
  unfold createInsertSpaceInternal. destruct trivially_copyable.
  - intros; simplify_option_eq. done.
  - apply shift_right_loop_fields.
Qed.

Lemma removeElementsInternal_fields i n a a' :
  removeElementsInternal trivially_copyable move_assignable i n a = Some a' →
  same_fields a a'.
Proof.
  unfold removeElementsInternal. destruct trivially_copyable.
  - intros; simplify_option_eq. done.
  - intros H. destruct (shift_left_loop _ _ _ _ a) as [a1|] eqn:H1; [|done].
    cbn [mbind option_bind] in H.
    eapply same_fields_trans;
      eauto using shift_left_loop_fields, destroy_loop_fields.
Qed.

Lemma moveInternal_fields i j a a' :
  moveInternal trivially_copyable move_assignable i j a = Some a' →
  same_fields a a'.
Proof.
  unfold moveInternal. destruct trivially_copyable.
  - intros H. destruct (peek _ _); [|done]. cbn [mbind option_bind] in H.
    destruct (if bool_decide _ then _ else _); [|done].
    cbn [mbind option_bind] in H. destruct (poke _ _ _); [|done].
    cbn in H. by injection H as <-.
  - intros H. destruct (peek_live _ _); [|done]. cbn [mbind option_bind] in H.
    destruct (poke _ _ _) as [m0|]; [|done]. cbn [mbind option_bind] in H.
    destruct (bool_decide _).
    + destruct (walk_up_loop _ _ _ _) as [[e a1]|] eqn:Hw; [|done].
      cbn [mbind option_bind] in H.
      apply walk_up_loop_fields in Hw.
      apply moveAssignElementFromTemp_fields in H.
      eapply same_fields_trans; [|exact H].
      eapply same_fields_trans; [|exact Hw]. done.
    + destruct (walk_down_loop _ _ _ _) as [[e a1]|] eqn:Hw; [|done].
      cbn [mbind option_bind] in H.
      apply walk_down_loop_fields in Hw.
      apply moveAssignElementFromTemp_fields in H.
      eapply same_fields_trans; [|exact H].
      eapply same_fields_trans; [|exact Hw]. done.
Qed.

End Fields.

(** * Reading elements *)

Ltac int_lia := unfold INT_MIN, INT_MAX in *; lia.

Lemma int_add_id a b : INT_MIN ≤ a + b ≤ INT_MAX → int_add a b = a + b.
Proof. intros. unfold int_add. by rewrite wrap_id. Qed.

Lemma int_sub_id a b : INT_MIN ≤ a - b ≤ INT_MAX → int_sub a b = a - b.
Proof. intros. unfold int_sub. by rewrite wrap_id. Qed.

Section Reading.
Context {T : Type}.
Variable default_value : T.
Implicit Types (a : @ArrayBase T) (l : list T).

Lemma read_element_represents a l i x :
  represents a l → 0 ≤ i → l !! Z.to_nat i = Some x →
  read_element a i = Some x.
Proof.
  intros Hrep Hi Hx. destruct (represents_inv _ _ Hrep) as (tail & -> & _).
  unfold read_element. cbn [elements].
  pose proof (peek_live_prefix l tail i x Hi Hx) as Hpeek.
  unfold peek_live in Hpeek.
  destruct (peek ((Obj <$> l) ++ tail) i) as [y|]; [|done].
  cbn in Hpeek |- *. destruct (is_live y); [|done]. by injection Hpeek as ->.
Qed.

Lemma getValueWithDefault_represents a l index :
  represents a l →
  getValueWithDefault default_value a index
    = Some (if isPositiveAndBelow index (Z.of_nat (length l))
            then default default_value (l !! Z.to_nat index)
            else default_value).
Proof.
  intros Hrep. unfold getValueWithDefault.
  rewrite (represents_numUsed _ _ Hrep).
  destruct (isPositiveAndBelow index _) eqn:Hin; [|done].
  apply isPositiveAndBelow_true in Hin.
  destruct (lookup_lt_is_Some_2 l (Z.to_nat index)) as [x Hx]; [lia|].
  rewrite Hx. cbn. apply (read_element_represents a l); [done|lia|done].
Qed.

Lemma getLast_represents a l :
  represents a l →
  getLast default_value a = Some (default default_value (last l)).
Proof.
  intros Hrep. pose proof (represents_numUsed _ _ Hrep) as Hu.
  pose proof (represents_capacity_int _ _ Hrep) as Hcap.
  pose proof (represents_len_within_capacity _ _ Hrep) as Hinv.
  unfold len_within_capacity, size, capacity in Hinv.
  unfold getLast. rewrite Hu. case_bool_decide as Hpos.
  - rewrite int_sub_id by int_lia.
    destruct (lookup_lt_is_Some_2 l (Z.to_nat (Z.of_nat (length l) - 1)))
      as [x Hx]; [lia|].
    rewrite last_lookup.
    replace (pred (length l)) with (Z.to_nat (Z.of_nat (length l) - 1)) by lia.
    rewrite Hx. cbn. by apply (read_element_represents a l); [|lia|].
  - destruct l; [done|cbn [length] in Hpos; lia].
Qed.

(** X1. The accessors that take any index: inside the sequence they return
    the element, outside they return [ElementType()] and read nothing. *)
Theorem reads_with_default a l index :
  represents a l →
  getValueWithDefault default_value a index
    = Some (if isPositiveAndBelow index (Z.of_nat (length l))
            then default default_value (l !! Z.to_nat index)
            else default_value)
  ∧ (isPositiveAndBelow index (Z.of_nat (length l)) = true →
     operator_index a index = l !! Z.to_nat index
     ∧ is_Some (l !! Z.to_nat index))
  ∧ getFirst default_value a = Some (default default_value (head l))
  ∧ getLast default_value a = Some (default default_value (last l)).
Proof.
  intros Hrep. pose proof (represents_numUsed _ _ Hrep) as Hu.
  split; [by apply getValueWithDefault_represents|].
  split; [|split; [|by apply getLast_represents]].
  - intros Hin. apply isPositiveAndBelow_true in Hin.
    destruct (lookup_lt_is_Some_2 l (Z.to_nat index)) as [x Hx]; [lia|].
    rewrite Hx. split; [|by eexists].
    apply (read_element_represents a l); [done|lia|done].
  - unfold getFirst. rewrite Hu. case_bool_decide as Hpos.
    + destruct l as [|x l]; [cbn in Hpos; lia|]. cbn.
      by apply (read_element_represents a (x :: l)).
    + destruct l; [done|cbn [length] in Hpos; lia].
Qed.

Variable trivially_copyable : bool.

(** X2. [add] appends one element: the sequence grows by the new element
    at its end, the length by one, and [getLast] reads the element back. *)
Theorem add_appends_and_reads_back a l newElement :
  represents a l →
  growth_fits (capacity a) (Z.of_nat (length l) + 1) →
  ∃ a', add trivially_copyable newElement a = Some a'
    ∧ represents a' (l ++ [newElement])
    ∧ size a' = size a + 1
    ∧ getLast default_value a' = Some newElement
    ∧ (∀ i, 0 ≤ i < size a →
       getValueWithDefault default_value a' i
         = getValueWithDefault default_value a i).
Proof.
  intros Hrep Hfits.
  destruct (add_spec trivially_copyable a l newElement Hrep Hfits)
    as (a' & Hadd & Hrep' & _).
  exists a'. split; [done|]. split; [done|].
  unfold size. rewrite (represents_numUsed _ _ Hrep'), (represents_numUsed _ _ Hrep).
  split; [rewrite length_app; cbn [length]; lia|]. split.
  - rewrite (getLast_represents a' _ Hrep'). by rewrite last_snoc.
  - intros i Hi.
    rewrite (getValueWithDefault_represents a' _ i Hrep').
    rewrite (getValueWithDefault_represents a _ i Hrep).
    rewrite length_app. cbn [length].
    assert (isPositiveAndBelow i (Z.of_nat (length l)) = true) as ->
      by (apply isPositiveAndBelow_true; lia).
    assert (isPositiveAndBelow i (Z.of_nat (length l + 1)) = true) as ->
      by (apply isPositiveAndBelow_true; lia).
    by rewrite lookup_app_l by lia.
Qed.

End Reading.

(** Reading [1, 2, 3] at index 1, before the first and behind the last element. *)
Lemma reads_with_default_witness :
  represents holding_123 [1; 2; 3]
  ∧ getValueWithDefault 0 holding_123 1 = Some 2
  ∧ getValueWithDefault 0 holding_123 (-1) = Some 0
  ∧ getValueWithDefault 0 holding_123 3 = Some 0
  ∧ getLast 0 holding_123 = Some 3.
Proof.
  assert (represents holding_123 [1; 2; 3]) as H1 by holds_sequence.
  split; [exact H1|].
  destruct (reads_with_default 0 holding_123 [1; 2; 3] 1 H1) as (Ha & _ & _ & Hl).
  destruct (reads_with_default 0 holding_123 [1; 2; 3] (-1) H1) as (Hb & _).
  destruct (reads_with_default 0 holding_123 [1; 2; 3] 3 H1) as (Hc & _).
  split; [exact Ha|]. split; [exact Hb|]. split; [exact Hc|exact Hl].
Defined.

(** Adding 4 to [1, 2, 3]. *)
Lemma add_appends_and_reads_back_witness :
  represents holding_123 [1; 2; 3]
  ∧ growth_fits (capacity holding_123) 4
  ∧ ∃ a', add false 4 holding_123 = Some a'
          ∧ represents a' [1; 2; 3; 4]
          ∧ getLast 0 a' = Some 4.
Proof.
  assert (represents holding_123 [1; 2; 3]) as H1 by holds_sequence.
  assert (growth_fits (capacity holding_123) 4) as H2 by (left; cbn; lia).
  split; [exact H1|]. split; [exact H2|].
  destruct (add_appends_and_reads_back 0 false holding_123 [1; 2; 3] 4 H1 H2)
    as (a' & Hadd & Hrep & _ & Hlast & _).
  exists a'. split; [exact Hadd|]. split; [exact Hrep|exact Hlast].
Defined.

(** * Appending several elements *)

Section AppendingMore.
Context {T : Type}.
Variable trivially_copyable : bool.
Implicit Types (a : @ArrayBase T) (l es src arr : list T).

Lemma add_each_spec es : ∀ a l,
  represents a l →
  (let m := Z.of_nat (length l) + Z.of_nat (length es) in
   m + m ÷ 2 + 8 ≤ INT_MAX) →
  ∃ a', add_each trivially_copyable es a = Some a'
        ∧ represents a' (l ++ es).
Proof.
  induction es as [|e es IH]; intros a l Hrep Hfits.
  - exists a. split; [done|]. by rewrite app_nil_r.
  - cbn [length] in Hfits. cbn zeta in Hfits.
    destruct (add_spec trivially_copyable a l e Hrep) as (a1 & Hadd & Hrep1 & _).
    { apply (growth_fits_mono _ (Z.of_nat (length l) + Z.of_nat (S (length es))));
        [by right | lia]. }
    destruct (IH a1 (l ++ [e]) Hrep1) as (a' & Heach & Hrep').
    { cbn zeta. rewrite length_app. cbn [length].
      replace (Z.of_nat (length l + 1) + Z.of_nat (length es))
        with (Z.of_nat (length l) + Z.of_nat (S (length es))) by lia.
      done. }
    exists a'. cbn [add_each]. rewrite Hadd. cbn [mbind option_bind].
    split; [done|]. by rewrite <- app_assoc in Hrep'.
Qed.

(** While the capacity suffices, a run of single [add]s is the loop of
    [addAssumingCapacityIsReady] alone. *)
Lemma add_each_within_capacity es : ∀ a l,
  represents a l →
  Z.of_nat (length l) + Z.of_nat (length es) ≤ numAllocated a →
  add_each trivially_copyable es a = addAssumingCapacityIsReady_pack es a.
Proof.
  induction es as [|e es IH]; intros a l Hrep Hcap; [done|].
  cbn [length] in Hcap. cbn [add_each addAssumingCapacityIsReady_pack].
  pose proof (represents_capacity_int _ _ Hrep) as Hmax.
  assert (add trivially_copyable e a = addAssumingCapacityIsReady e a) as Hadd.
  { unfold add, ensureAllocatedSize. rewrite (represents_numUsed _ _ Hrep).
    unfold int_add. rewrite wrap_id by (unfold INT_MIN; lia).
    by rewrite bool_decide_eq_false_2 by lia. }
  destruct (add_spec trivially_copyable a l e Hrep ltac:(left; lia))
    as (a1 & Hadd1 & Hrep1 & Hsame).
  rewrite <- Hadd, Hadd1. cbn [mbind option_bind].
  apply (IH a1 (l ++ [e]) Hrep1).
  rewrite Hsame by lia. rewrite length_app. cbn [length]. lia.
Qed.

(** X3. The variadic [add] leaves the same sequence as one [add] for each
    of its arguments, in order; when the capacity already suffices the
    two leave the very same container. *)
Theorem add_pack_as_repeated_add a l firstNewElement otherElements :
  represents a l →
  (let m := Z.of_nat (length l) + 1 + Z.of_nat (length otherElements) in
   m + m ÷ 2 + 8 ≤ INT_MAX) →
  ∃ a1 a2,
    add_pack trivially_copyable firstNewElement otherElements a = Some a1
    ∧ add_each trivially_copyable (firstNewElement :: otherElements) a = Some a2
    ∧ represents a1 (l ++ firstNewElement :: otherElements)
    ∧ represents a2 (l ++ firstNewElement :: otherElements)
    ∧ (Z.of_nat (length l) + 1 + Z.of_nat (length otherElements) ≤ capacity a →
       a1 = a2).
Proof.
  intros Hrep Hfits. cbn zeta in Hfits.
  destruct (add_pack_spec trivially_copyable a l firstNewElement otherElements Hrep)
    as (a1 & Hpack & Hrep1).
  { right. by rewrite Z.add_assoc. }
  destruct (add_each_spec (firstNewElement :: otherElements) a l Hrep)
    as (a2 & Heach & Hrep2).
  { cbn zeta. cbn [length].
    replace (Z.of_nat (length l) + Z.of_nat (S (length otherElements)))
      with (Z.of_nat (length l) + 1 + Z.of_nat (length otherElements)) by lia.
    done. }
  exists a1, a2. do 4 (split; [done|]). unfold capacity. intros Hcap.
  pose proof (represents_capacity_int _ _ Hrep) as Hmax.
  rewrite (add_each_within_capacity _ a l Hrep) in Heach
    by (cbn [length]; lia).
  unfold add_pack, ensureAllocatedSize in Hpack.
  rewrite (represents_numUsed _ _ Hrep) in Hpack.
  unfold int_add in Hpack.
  rewrite !wrap_id in Hpack by (rewrite ?wrap_id; unfold INT_MIN; lia).
  rewrite bool_decide_eq_false_2 in Hpack by lia.
  cbn [mbind option_bind] in Hpack. congruence.
Qed.

(** X4. [addArray (elementsToAdd, numElementsToAdd)] appends the first
    [numElementsToAdd] elements found at [elementsToAdd]; the [memcpy] of
    trivially copyable elements and the loop of copy constructions leave
    the same sequence, and the same container when nothing is
    reallocated. *)
Theorem addArray_copies_prefix a l elementsToAdd numElementsToAdd :
  represents a l →
  0 ≤ numElementsToAdd ≤ Z.of_nat (length elementsToAdd) →
  growth_fits (capacity a) (Z.of_nat (length l) + numElementsToAdd) →
  ∃ a1 a2,
    addArray true elementsToAdd numElementsToAdd a = Some a1
    ∧ addArray false elementsToAdd numElementsToAdd a = Some a2
    ∧ represents a1 (l ++ take (Z.to_nat numElementsToAdd) elementsToAdd)
    ∧ represents a2 (l ++ take (Z.to_nat numElementsToAdd) elementsToAdd)
    ∧ size a1 = size a + numElementsToAdd
    ∧ (Z.of_nat (length l) + numElementsToAdd ≤ capacity a → a1 = a2).
Proof.
  intros Hrep Hn Hfits. unfold capacity in *.
  destruct (addArray_spec true a l _ _ Hrep Hn Hfits) as (a1 & H1 & Hrep1).
  destruct (addArray_spec false a l _ _ Hrep Hn Hfits) as (a2 & H2 & Hrep2).
  exists a1, a2. do 4 (split; [done|]). split.
  - unfold size. rewrite (represents_numUsed _ _ Hrep1), (represents_numUsed _ _ Hrep).
    rewrite length_app, length_take. lia.
  - intros Hcap.
    pose proof (represents_capacity_int _ _ Hrep) as Hmax.
    destruct (represents_room a l numElementsToAdd Hrep ltac:(lia) Hcap)
      as (G & R & Ha & HG & _).
    unfold addArray, ensureAllocatedSize in H1, H2.
    rewrite (represents_numUsed _ _ Hrep) in H1, H2.
    rewrite (int_add_id (Z.of_nat (length l))) in H1 by (unfold INT_MIN; lia).
    rewrite (int_add_id (Z.of_nat (length l))) in H2 by (unfold INT_MIN; lia).
    rewrite bool_decide_eq_false_2 in H1 by lia.
    rewrite bool_decide_eq_false_2 in H2 by lia.
    cbn [mbind option_bind] in H1, H2.
    rewrite Ha in H1, H2.
    rewrite addArrayInternal_spec in H1 by (rewrite ?length_fmap; lia).
    rewrite addArrayInternal_spec in H2 by (rewrite ?length_fmap; lia).
    cbn [mbind option_bind] in H1, H2. congruence.
Qed.

Lemma addArray_range_count a arrayToAddFrom startIndex numElementsToAdd k a' :
  startIndex ≤ Z.of_nat (length arrayToAddFrom) →
  Z.of_nat (length arrayToAddFrom) ≤ INT_MAX →
  numElementsToAdd ≤ INT_MAX - Z.of_nat (length arrayToAddFrom) →
  addArray_range trivially_copyable arrayToAddFrom startIndex
                 numElementsToAdd a = Some (k, a') →
  k = clipped_count (Z.of_nat (length arrayToAddFrom)) startIndex
                    numElementsToAdd.
Proof.
  intros Hstart Hsz Hn Hadd. unfold addArray_range in Hadd.
  destruct (addArray _ _ _ _) as [a1|]; [|done].
  cbn [mbind option_bind] in Hadd. injection Hadd as Hk1 _. rewrite <- Hk1.
  clear Hk1.
  unfold clipped_count, int_add, int_sub.
  rewrite (wrap_id (Z.of_nat (length arrayToAddFrom))) by (unfold INT_MIN; lia).
  replace (if bool_decide (startIndex < 0) then 0 else startIndex)
    with (Z.max 0 startIndex) by (case_bool_decide; lia).
  rewrite (wrap_id (_ - _)) by (unfold INT_MIN; lia).
  destruct (decide (numElementsToAdd < 0)) as [Hneg|Hpos].
  - rewrite (bool_decide_eq_true_2 (numElementsToAdd < 0)) by done.
    cbn [orb]. by rewrite bool_decide_eq_true_2 by (left; lia).
  - rewrite (bool_decide_eq_false_2 (numElementsToAdd < 0)) by done.
    cbn [orb]. rewrite wrap_id by (unfold INT_MIN; lia).
    case_bool_decide as H1; case_bool_decide as H2; lia.
Qed.

Lemma addArray_range_exact a l arrayToAddFrom startIndex numElementsToAdd :
  represents a l →
  startIndex ≤ Z.of_nat (length arrayToAddFrom) →
  Z.of_nat (length arrayToAddFrom) ≤ INT_MAX →
  numElementsToAdd ≤ INT_MAX - Z.of_nat (length arrayToAddFrom) →
  growth_fits (numAllocated a)
    (Z.of_nat (length l)
     + (Z.of_nat (length arrayToAddFrom) - Z.max 0 startIndex)) →
  let k := clipped_count (Z.of_nat (length arrayToAddFrom)) startIndex
                         numElementsToAdd in
  ∃ a',
    addArray_range trivially_copyable arrayToAddFrom startIndex
                   numElementsToAdd a = Some (k, a')
    ∧ 0 ≤ k ≤ Z.of_nat (length arrayToAddFrom) - Z.max 0 startIndex
    ∧ represents a'
        (l ++ take (Z.to_nat k)
                   (drop (Z.to_nat (Z.max 0 startIndex)) arrayToAddFrom)).
Proof.
  intros Hrep Hstart Hsz Hn Hfits k.
  destruct (addArray_range_spec trivially_copyable a l arrayToAddFrom startIndex
              numElementsToAdd Hrep Hstart Hsz Hn Hfits)
    as (a' & k' & Hadd & Hk' & _ & Hrep').
  pose proof (addArray_range_count _ _ _ _ _ _ Hstart Hsz Hn Hadd) as Hkk.
  fold k in Hkk. subst k'. exists a'. split; [done|]. split; [done|].
  by replace (Z.to_nat (Z.max 0 startIndex)) with (Z.to_nat startIndex) by lia.
Qed.


End AppendingMore.

Section AppendingPastTheEnd.
Context {T : Type}.
Implicit Types (a : @ArrayBase T) (l arr : list T).

(** X6. When [startIndex] lies beyond the end of the array to add from
    and the count is negative, or [startIndex + numElementsToAdd] is
    still an [int], the count becomes negative: for elements that are
    not trivially copyable nothing is copied and [numUsed] is lowered by
    the difference, below 0 if need be, without any destructor being
    called and without the cells or the capacity being touched. *)
Theorem addArray_range_from_beyond_the_end a l arrayToAddFrom startIndex
    numElementsToAdd :
  represents a l →
  Z.of_nat (length arrayToAddFrom) < startIndex ≤ INT_MAX →
  numElementsToAdd < 0 ∨ startIndex + numElementsToAdd ≤ INT_MAX →
  let k := Z.of_nat (length arrayToAddFrom) - startIndex in
  addArray_range false arrayToAddFrom startIndex numElementsToAdd a
    = Some (k, set_numUsed (Z.of_nat (length l) + k) a)
  ∧ k < 0.
Proof.
  intros Hrep Hstart Hn k.
  pose proof (represents_capacity_int _ _ Hrep) as Hmax.
  pose proof (represents_len_within_capacity _ _ Hrep) as Hinv.
  pose proof (represents_numUsed _ _ Hrep) as Hu.
  unfold len_within_capacity, size, capacity in Hinv.
  split; [|unfold k; lia].
  unfold addArray_range.
  rewrite (bool_decide_eq_false_2 (startIndex < 0)) by lia.
  rewrite (wrap_id (Z.of_nat (length arrayToAddFrom))) by (unfold INT_MIN; lia).
  assert ((bool_decide (numElementsToAdd < 0)
           || bool_decide (int_add startIndex numElementsToAdd
                           > Z.of_nat (length arrayToAddFrom))) = true) as ->.
  { destruct (decide (numElementsToAdd < 0)) as [Hneg|Hpos].
    - by rewrite (bool_decide_eq_true_2 (numElementsToAdd < 0)) by done.
    - rewrite (bool_decide_eq_false_2 (numElementsToAdd < 0)) by done.
      cbn [orb]. rewrite int_add_id by int_lia.
      by rewrite bool_decide_eq_true_2 by lia. }
  rewrite int_sub_id by int_lia. fold k.
  unfold addArray, ensureAllocatedSize. rewrite Hu.
  rewrite (int_add_id (Z.of_nat (length l))) by (unfold k; int_lia).
  rewrite bool_decide_eq_false_2 by (unfold k; lia).
  cbn [mbind option_bind]. unfold addArrayInternal.
  replace (Z.to_nat k) with O by (unfold k; lia).
  cbn [copy_construct_loop mbind option_bind].
  rewrite Hu. by rewrite int_add_id by (unfold k; int_lia).
Qed.

End AppendingPastTheEnd.

(** Adding 4, 5 and 6 to [1, 2, 3], at once and one by one. *)
Lemma add_pack_as_repeated_add_witness :
  represents holding_123 [1; 2; 3]
  ∧ ∃ a1 a2, add_pack false 4 [5; 6] holding_123 = Some a1
             ∧ add_each false [4; 5; 6] holding_123 = Some a2
             ∧ represents a1 [1; 2; 3; 4; 5; 6]
             ∧ represents a2 [1; 2; 3; 4; 5; 6].
Proof.
  assert (represents holding_123 [1; 2; 3]) as H1 by holds_sequence.
  split; [exact H1|].
  destruct (add_pack_as_repeated_add false holding_123 [1; 2; 3] 4 [5; 6] H1)
    as (a1 & a2 & Hp & He & Hr1 & Hr2 & _); [by vm_compute|].
  exists a1, a2. split; [exact Hp|]. split; [exact He|]. split; [exact Hr1|exact Hr2].
Defined.

(** Adding the first two elements of [7, 8, 9] to [1, 2, 3]. *)
Lemma addArray_copies_prefix_witness :
  represents holding_123 [1; 2; 3]
  ∧ ∃ a1 a2, addArray true [7; 8; 9] 2 holding_123 = Some a1
             ∧ addArray false [7; 8; 9] 2 holding_123 = Some a2
             ∧ represents a1 [1; 2; 3; 7; 8]
             ∧ represents a2 [1; 2; 3; 7; 8].
Proof.
  assert (represents holding_123 [1; 2; 3]) as H1 by holds_sequence.
  split; [exact H1|].
  destruct (addArray_copies_prefix holding_123 [1; 2; 3] [7; 8; 9] 2 H1)
    as (a1 & a2 & Hp & He & Hr1 & Hr2 & _);
    [cbn; lia | right; by vm_compute |].
  exists a1, a2. split; [exact Hp|]. split; [exact He|]. split; [exact Hr1|exact Hr2].
Defined.


(** Adding to [1, 2, 3] from index 3 of an array of one element. *)
Lemma addArray_range_from_beyond_the_end_witness :
  represents holding_123 [1; 2; 3]
  ∧ addArray_range false [7] 3 0 holding_123
    = Some (-2, set_numUsed 1 holding_123).
Proof.
  assert (represents holding_123 [1; 2; 3]) as H1 by holds_sequence.
  split; [exact H1|].
  destruct (addArray_range_from_beyond_the_end holding_123 [1; 2; 3] [7] 3 0 H1)
    as [Hadd _];
    [by vm_compute | right; by vm_compute |].
  exact Hadd.
Defined.

(** * The capacity over the operations *)

Section CapacityMore.
Context {T : Type}.
Variable trivially_copyable move_assignable : bool.
Implicit Types (a : @ArrayBase T) (l es src arr : list T).

Lemma setAllocatedSize_exact a l n :
  represents a l → Z.of_nat (length l) ≤ n ≤ INT_MAX →
  setAllocatedSize trivially_copyable n a
  = Some (if bool_decide (numAllocated a = n) then a
          else mkArrayBase
                 (if trivially_copyable
                  then HeapBlock_realloc n (elements a)
                  else (Obj <$> l) ++ replicate (Z.to_nat n - length l) Raw)
                 n (Z.of_nat (length l))
                 (destructorCalls a
                  ++ if trivially_copyable then []
                     else seqZ 0 (Z.of_nat (length l)))).
Proof.
  intros Hrep [Hn1 Hn2].
  destruct (represents_inv _ _ Hrep) as (tail & Ha & Hmax).
  unfold setAllocatedSize.
  destruct (decide (numAllocated a = n)) as [Heq|Hne].
  - rewrite bool_decide_eq_false_2 by (intros ?; done).
    rewrite bool_decide_eq_true_2 by done.
    cbn [mbind option_bind]. subst n. by destruct a.
  - rewrite bool_decide_eq_true_2 by done.
    rewrite (bool_decide_eq_false_2 (numAllocated a = n)) by done.
    case_bool_decide as Hpos.
    + unfold setAllocatedSizeInternal. destruct trivially_copyable.
      * cbn [mbind option_bind]. unfold set_numAllocated, set_elements.
        cbn [elements numAllocated numUsed destructorCalls].
        rewrite app_nil_r. by rewrite (represents_numUsed _ _ Hrep).
      * rewrite (represents_numUsed _ _ Hrep), Nat2Z.id.
        unfold HeapBlock_new.
        replace (Z.to_nat n) with (length l + (Z.to_nat n - length l))%nat
          at 1 by lia.
        rewrite replicate_add.
        pose proof (relocate_loop_spec (Obj <$> l) [] tail []
                      (replicate (length l) Raw)
                      (replicate (Z.to_nat n - length l) Raw) 0
                      (Z.of_nat (length l + length tail))
                      (Z.of_nat (length l)) (destructorCalls a)) as Hloop.
        rewrite length_fmap in Hloop. cbn [app] in Hloop.
        rewrite Ha at 1.
        rewrite Hloop; [| done | done | by rewrite length_replicate
                        | apply Forall_live_Obj ].
        done.
    + assert (l = []) as -> by (destruct l; [done|cbn [length] in Hn1; lia]).
      assert (n = 0) as -> by (cbn [length] in Hn1; lia).
      cbn [mbind option_bind]. unfold set_numAllocated, set_elements.
      cbn [elements numAllocated numUsed destructorCalls].
      rewrite (represents_numUsed _ _ Hrep).
      unfold HeapBlock_realloc, HeapBlock_free. rewrite resize_0.
      destruct trivially_copyable; cbn; by rewrite app_nil_r.
Qed.

(** X7. [setAllocatedSize] makes the capacity exactly [numElements] and
    keeps the sequence; it leaves the container alone when the capacity
    is [numElements] already, and otherwise trivially copyable elements
    are reallocated without a destructor call, while other elements are
    moved to a new block whose remaining cells hold no object, each old
    object being destroyed once, in order. *)
Theorem setAllocatedSize_relocates a l numElements :
  represents a l →
  Z.of_nat (length l) ≤ numElements ≤ INT_MAX →
  ∃ a', setAllocatedSize trivially_copyable numElements a = Some a'
    ∧ represents a' l
    ∧ capacity a' = numElements
    ∧ (capacity a = numElements → a' = a)
    ∧ (capacity a ≠ numElements →
       if trivially_copyable
       then destructorCalls a' = destructorCalls a
       else destructorCalls a'
              = destructorCalls a ++ seqZ 0 (Z.of_nat (length l))
            ∧ elements a'
              = (Obj <$> l)
                ++ replicate (Z.to_nat numElements - length l) Raw).
Proof.
  intros Hrep Hn.
  destruct (setAllocatedSize_spec trivially_copyable a l numElements Hrep Hn)
    as (a' & Hset & Hrep' & Hcap).
  exists a'. do 3 (split; [done|]).
  rewrite (setAllocatedSize_exact a l numElements Hrep Hn) in Hset.
  injection Hset as <-. unfold capacity. split.
  - intros Heq. by rewrite bool_decide_eq_true_2 by done.
  - intros Hne. rewrite bool_decide_eq_false_2 by done.
    destruct trivially_copyable; cbn [destructorCalls elements];
      [by rewrite app_nil_r|done].
Qed.

(** X8. [shrinkToNoMoreThan] never raises the capacity and never leaves it
    above [maxNumElements]; the sequence stays, and asking again changes
    nothing. *)
Theorem shrinkToNoMoreThan_lowers a l maxNumElements :
  represents a l →
  Z.of_nat (length l) ≤ maxNumElements →
  ∃ a', shrinkToNoMoreThan trivially_copyable maxNumElements a = Some a'
    ∧ represents a' l
    ∧ capacity a' = Z.min maxNumElements (capacity a)
    ∧ shrinkToNoMoreThan trivially_copyable maxNumElements a' = Some a'.
Proof.
  intros Hrep Hn.
  destruct (shrinkToNoMoreThan_spec trivially_copyable a l maxNumElements Hrep)
    as (a' & Hshrink & Hrep' & Hcap); [done|].
  exists a'. do 3 (split; [done|]).
  unfold shrinkToNoMoreThan. rewrite Hcap.
  by rewrite bool_decide_eq_false_2 by lia.
Qed.

(** Growing never lowers the capacity. *)
Lemma ensureAllocatedSize_grows a l m a1 :
  represents a l → growth_fits (numAllocated a) m →
  ensureAllocatedSize trivially_copyable m a = Some a1 →
  numAllocated a ≤ numAllocated a1 ∧ represents a1 l.
Proof.
  intros Hrep Hfits Hens.
  destruct (ensureAllocatedSize_spec trivially_copyable a l m Hrep Hfits)
    as (a' & Hens' & Hrep' & Hle & Hsame & _).
  rewrite Hens in Hens'. injection Hens' as <-. split; [|done].
  destruct (decide (m ≤ numAllocated a)) as [Hm|Hm]; [by rewrite Hsame|lia].
Qed.

Lemma addAssumingCapacityIsReady_pack_capacity es : ∀ a a',
  addAssumingCapacityIsReady_pack es a = Some a' →
  numAllocated a' = numAllocated a.
Proof.
  induction es as [|e es IH]; intros a a' H;
    cbn [addAssumingCapacityIsReady_pack] in H.
  - by injection H as <-.
  - unfold addAssumingCapacityIsReady in H at 1.
    destruct (construct_at _ e a) as [a1|] eqn:Hc; [|done].
    cbn [mbind option_bind] in H. apply IH in H. rewrite H.
    apply construct_at_fields in Hc. by destruct Hc.
Qed.

Lemma addArray_capacity src n a a' :
  addArray trivially_copyable src n a = Some a' →
  ∃ a1, ensureAllocatedSize trivially_copyable (int_add (numUsed a) n) a
          = Some a1
        ∧ numAllocated a' = numAllocated a1.
Proof.
  unfold addArray. intros H.
  destruct (ensureAllocatedSize _ _ a) as [a1|]; [|done].
  cbn [mbind option_bind] in H. exists a1. split; [done|].
  destruct (addArrayInternal _ _ _ a1) as [a2|] eqn:Hadd; [|done].
  cbn in H. injection H as <-. cbn.
  apply addArrayInternal_fields in Hadd. by destruct Hadd.
Qed.

Lemma createInsertSpace_capacity i n a space a' :
  createInsertSpace trivially_copyable i n a = Some (space, a') →
  ∃ a1, ensureAllocatedSize trivially_copyable (int_add (numUsed a) n) a
          = Some a1
        ∧ numAllocated a' = numAllocated a1.
Proof.
  unfold createInsertSpace. intros H.
  destruct (ensureAllocatedSize _ _ a) as [a1|]; [|done].
  cbn [mbind option_bind] in H. exists a1. split; [done|].
  destruct (negb _).
  - by injection H as _ <-.
  - destruct (createInsertSpaceInternal _ _ _ a1) as [a2|] eqn:Hc; [|done].
    cbn in H. injection H as _ <-.
    apply createInsertSpaceInternal_fields in Hc. by destruct Hc.
Qed.

Lemma insertArray_capacity i src n a a' :
  insertArray trivially_copyable i src n a = Some a' →
  ∃ a1, ensureAllocatedSize trivially_copyable (int_add (numUsed a) n) a
          = Some a1
        ∧ numAllocated a' = numAllocated a1.
Proof.
  unfold insertArray. intros H.
  destruct (createInsertSpace _ _ _ a) as [[space a1]|] eqn:Hc; [|done].
  cbn [mbind option_bind] in H.
  destruct (createInsertSpace_capacity _ _ _ _ _ Hc) as (a0 & Hens & Hcap).
  exists a0. split; [done|].
  destruct (copy_construct_loop _ _ _ a1) as [a2|] eqn:Hl; [|done].
  cbn in H. injection H as <-. cbn.
  apply copy_construct_loop_fields in Hl. destruct Hl as [-> _]. done.
Qed.

Lemma insert_capacity i (e : T) n a a' :
  insert trivially_copyable i e n a = Some a' →
  ∃ a1, ensureAllocatedSize trivially_copyable (int_add (numUsed a) n) a
          = Some a1
        ∧ numAllocated a' = numAllocated a1.
Proof.
  unfold insert. intros H.
  destruct (createInsertSpace _ _ _ a) as [[space a1]|] eqn:Hc; [|done].
  cbn [mbind option_bind] in H.
  destruct (createInsertSpace_capacity _ _ _ _ _ Hc) as (a0 & Hens & Hcap).
  exists a0. split; [done|].
  destruct (fill_loop _ _ _ a1) as [a2|] eqn:Hl; [|done].
  cbn in H. injection H as <-. cbn.
  apply fill_loop_fields in Hl. destruct Hl as [-> _]. done.
Qed.

Lemma append_capacity m es a a' :
  (a1 ← ensureAllocatedSize trivially_copyable m a;
   addAssumingCapacityIsReady_pack es a1) = Some a' →
  ∃ a1, ensureAllocatedSize trivially_copyable m a = Some a1
        ∧ numAllocated a' = numAllocated a1.
Proof.
  intros H. destruct (ensureAllocatedSize _ _ a) as [a1|]; [|done].
  cbn [mbind option_bind] in H. exists a1. split; [done|].
  by apply addAssumingCapacityIsReady_pack_capacity in H.
Qed.

Lemma add_capacity (e : T) a a' :
  add trivially_copyable e a = Some a' →
  ∃ a1, ensureAllocatedSize trivially_copyable (int_add (numUsed a) 1) a
          = Some a1
        ∧ numAllocated a' = numAllocated a1.
Proof.
  intros H. apply (append_capacity _ [e]).
  unfold add in H. destruct (ensureAllocatedSize _ _ a) as [a1|]; [|done].
  cbn [mbind option_bind addAssumingCapacityIsReady_pack] in *.
  by destruct (addAssumingCapacityIsReady e a1).
Qed.

Lemma grows_capacity a l k m a1 a' :
  represents a l →
  ensureAllocatedSize trivially_copyable m a = Some a1 →
  numAllocated a' = numAllocated a1 →
  0 ≤ k →
  growth_fits (numAllocated a) (numUsed a + k) →
  m = numUsed a + k →
  numAllocated a ≤ numAllocated a'.
Proof.
  intros Hrep Hens -> Hk Hfits ->.
  by destruct (ensureAllocatedSize_grows a l _ a1 Hrep Hfits Hens).
Qed.

Lemma perform_capacity (o : @operation T) a l a' :
  represents a l →
  precondition trivially_copyable o a →
  sets_capacity o = false →
  perform trivially_copyable move_assignable o a = Some a' →
  numAllocated a ≤ numAllocated a'.
Proof.
  intros Hrep Hpre Hset Hperf.
  pose proof (represents_numUsed _ _ Hrep) as Hu.
  pose proof (represents_capacity_int _ _ Hrep) as Hmax.
  unfold precondition in Hpre. cbn zeta in Hpre.
  destruct o as [e|e es|src n|items|arr|arr start n|i e n|i src n|i n|i j|i j
                | |n|n|n]; cbn [perform sets_capacity] in *; try done.
  - (* add *)
    pose proof (growth_fits_int _ _ Hpre Hmax ltac:(lia)) as Hint.
    apply add_capacity in Hperf as (a1 & Hens & Hcap).
    apply (grows_capacity a l 1 _ a1 a' Hrep Hens Hcap); try done.
    apply int_add_id. int_lia.
  - (* the variadic add *)
    pose proof (growth_fits_int _ _ Hpre Hmax ltac:(lia)) as Hint.
    unfold add_pack in Hperf.
    apply (append_capacity _ (e :: es)) in Hperf as (a1 & Hens & Hcap).
    apply (grows_capacity a l (1 + Z.of_nat (length es)) _ a1 a' Hrep Hens Hcap);
      try done; [lia|].
    rewrite (wrap_id (Z.of_nat _)) by int_lia.
    rewrite (int_add_id _ 1) by int_lia. rewrite int_add_id by int_lia. lia.
  - (* addArray *)
    destruct Hpre as [Hn Hfits].
    pose proof (growth_fits_int _ _ Hfits Hmax ltac:(lia)) as Hint.
    apply addArray_capacity in Hperf as (a1 & Hens & Hcap).
    apply (grows_capacity a l n _ a1 a' Hrep Hens Hcap); try done; [lia|].
    apply int_add_id. int_lia.
  - (* addArray of a list of items *)
    pose proof (growth_fits_int _ _ Hpre Hmax ltac:(lia)) as Hint.
    unfold addArray_items in Hperf.
    apply append_capacity in Hperf as (a1 & Hens & Hcap).
    apply (grows_capacity a l (Z.of_nat (length items)) _ a1 a' Hrep Hens Hcap);
      try done; [lia|].
    rewrite (wrap_id (Z.of_nat _)) by int_lia. apply int_add_id. int_lia.
  - (* addArray of another array *)
    pose proof (growth_fits_int _ _ Hpre Hmax ltac:(lia)) as Hint.
    unfold addArray_from in Hperf.
    apply append_capacity in Hperf as (a1 & Hens & Hcap).
    apply (grows_capacity a l (Z.of_nat (length arr)) _ a1 a' Hrep Hens Hcap);
      try done; [lia|].
    rewrite (wrap_id (Z.of_nat _)) by int_lia. apply int_add_id. int_lia.
  - (* addArray of a part of another array *)
    destruct Hpre as (Hstart & Hsz & Hn & Hfits). rewrite Hu in Hfits.
    destruct (addArray_range_exact trivially_copyable a l arr start n Hrep
                Hstart Hsz Hn Hfits) as (a2 & Hadd & Hk & _).
    rewrite Hadd in Hperf. cbn in Hperf. injection Hperf as Heq. subst a'.
    unfold addArray_range in Hadd.
    destruct (addArray _ _ _ a) as [a3|] eqn:Harr; [|done].
    cbn [mbind option_bind] in Hadd. injection Hadd as Hk0 Heq. subst a3.
    rewrite Hk0 in Harr.
    apply addArray_capacity in Harr as (a1 & Hens & Hcap).
    assert (growth_fits (numAllocated a)
              (numUsed a + clipped_count (Z.of_nat (length arr)) start n))
      as Hfits'.
    { rewrite Hu. eapply growth_fits_mono; [exact Hfits|lia]. }
    pose proof (growth_fits_int _ _ Hfits' Hmax ltac:(lia)) as Hint.
    apply (grows_capacity a l (clipped_count (Z.of_nat (length arr)) start n)
             _ a1 a2 Hrep Hens Hcap); try done; [lia|].
    apply int_add_id. int_lia.
  - (* insert *)
    destruct Hpre as (Hn & Hfits & _).
    pose proof (growth_fits_int _ _ Hfits Hmax ltac:(lia)) as Hint.
    apply insert_capacity in Hperf as (a1 & Hens & Hcap).
    apply (grows_capacity a l n _ a1 a' Hrep Hens Hcap); try done.
    apply int_add_id. int_lia.
  - (* insertArray *)
    destruct Hpre as (Hn & Hfits & _).
    pose proof (growth_fits_int _ _ Hfits Hmax ltac:(lia)) as Hint.
    apply insertArray_capacity in Hperf as (a1 & Hens & Hcap).
    apply (grows_capacity a l n _ a1 a' Hrep Hens Hcap); try done; [lia|].
    apply int_add_id. int_lia.
  - (* removeElements *)
    destruct Hpre as (Hi & Hn & Hlen). rewrite Hu in Hlen.
    destruct (removeElements_spec trivially_copyable move_assignable a l i n
                Hrep Hi Hn Hlen) as (a1 & Hrem & _ & Hcap).
    rewrite Hrem in Hperf. injection Hperf as <-. lia.
  - (* swap *)
    destruct (swap_spec a l i j Hrep) as (a1 & Hsw & Hcap & _).
    rewrite Hsw in Hperf. injection Hperf as <-. lia.
  - (* move *)
    destruct (move_spec trivially_copyable move_assignable a l i j Hrep)
      as (a1 & Hmv & Hcap & _).
    rewrite Hmv in Hperf. injection Hperf as <-. lia.
  - (* clear *)
    destruct (clear_spec a l Hrep) as (a1 & Hcl & _ & Hcap & _).
    rewrite Hcl in Hperf. injection Hperf as <-. lia.
  - (* ensureAllocatedSize *)
    by destruct (ensureAllocatedSize_grows a l n a' Hrep Hpre Hperf).
Qed.

(** X9. Room reserved with [ensureAllocatedSize] is used by the [add]s
    that follow: as long as the sequence stays within the reserved
    number of elements they neither change the capacity nor run a
    destructor. *)
Theorem reserved_adds_do_not_reallocate a l minNumElements es :
  represents a l →
  growth_fits (capacity a) minNumElements →
  Z.of_nat (length l) + Z.of_nat (length es) ≤ minNumElements →
  ∃ a1 a2,
    ensureAllocatedSize trivially_copyable minNumElements a = Some a1
    ∧ add_each trivially_copyable es a1 = Some a2
    ∧ represents a2 (l ++ es)
    ∧ minNumElements ≤ capacity a1
    ∧ capacity a2 = capacity a1
    ∧ destructorCalls a2 = destructorCalls a1.
Proof.
  intros Hrep Hfits Hlen. unfold capacity in *.
  destruct (ensureAllocatedSize_spec trivially_copyable a l minNumElements
              Hrep Hfits) as (a1 & Hens & Hrep1 & Hcap & _).
  destruct (represents_room a1 l (Z.of_nat (length es)) Hrep1)
    as (G & R & Ha1 & HG & Hmax); [lia|lia|].
  exists a1.
  rewrite (add_each_within_capacity trivially_copyable es a1 l Hrep1) by lia.
  destruct a1 as [m c u lg].
  cbn [numAllocated destructorCalls] in *.
  injection Ha1 as -> -> ->.
  rewrite addAssumingCapacityIsReady_pack_spec
    by (rewrite ?length_fmap; lia).
  eexists. split; [done|]. split; [done|]. split; [|done].
  eapply (represents_mem _ _ R).
  - by rewrite fmap_app, <- app_assoc.
  - rewrite !length_app, !length_fmap. lia.
  - rewrite length_app. lia.
  - lia.
Qed.

(** X10. The capacity never goes down, except by [setAllocatedSize] and
    [shrinkToNoMoreThan]: through any sequence of the other operations,
    each state has at least the capacity of the state before it. *)
Theorem capacity_never_decreases (ops : list (@operation T)) : ∀ a l,
  represents a l →
  admissible trivially_copyable move_assignable ops a →
  forallb (λ o, negb (sets_capacity o)) ops = true →
  ∃ states,
    run trivially_copyable move_assignable ops a = Some states
    ∧ length states = length ops
    ∧ ∀ k s s', (a :: states) !! k = Some s → states !! k = Some s' →
        capacity s ≤ capacity s'.
Proof.
  induction ops as [|o ops IH]; intros a l Hrep Hadm Hall.
  - exists []. split; [done|]. split; [done|]. intros k s s' _ Hs'. done.
  - cbn [admissible] in Hadm. destruct Hadm as [Hpre Hadm].
    cbn [forallb] in Hall. apply andb_true_iff in Hall as [Ho Hall].
    apply negb_true_iff in Ho.
    destruct (perform_represents trivially_copyable move_assignable o a l
                Hrep Hpre) as (a1 & l1 & Hperf & Hrep1).
    rewrite Hperf in Hadm.
    destruct (IH a1 l1 Hrep1 Hadm Hall) as (states & Hrun & Hlen & Hmono).
    exists (a1 :: states). cbn [run]. rewrite Hperf. cbn [mbind option_bind].
    rewrite Hrun. cbn [mbind option_bind]. split; [done|].
    split; [cbn [length]; lia|].
    intros [|k] s s' Hs Hs'.
    + cbn in Hs, Hs'. injection Hs as <-. injection Hs' as <-.
      unfold capacity. by apply (perform_capacity o a l a1).
    + cbn [lookup list_lookup] in Hs, Hs'. by apply (Hmono k).
Qed.

End CapacityMore.

Ltac show_admissible :=
  repeat (cbn [admissible]; split;
          [ cbn; unfold growth_fits, INT_MAX; repeat split; try lia
          | lazymatch goal with
            | |- context [perform ?tc ?ma ?o ?a] =>
                let r := eval vm_compute in (perform tc ma o a) in
                change (perform tc ma o a) with r; cbv iota beta
            end ]);
  try exact I; try done; try (right; by vm_compute).

(** Moving [1, 2, 3] from a block of 8 cells to one of 4. *)
Lemma setAllocatedSize_relocates_witness :
  represents holding_123 [1; 2; 3]
  ∧ ∃ a', setAllocatedSize false 4 holding_123 = Some a'
          ∧ represents a' [1; 2; 3]
          ∧ capacity a' = 4
          ∧ destructorCalls a' = [0; 1; 2]
          ∧ elements a' = [Obj 1; Obj 2; Obj 3; Raw].
Proof.
  assert (represents holding_123 [1; 2; 3]) as H1 by holds_sequence.
  split; [exact H1|].
  destruct (setAllocatedSize_relocates false holding_123 [1; 2; 3] 4 H1)
    as (a' & Hset & Hrep & Hcap & _ & Hlog); [by vm_compute|].
  exists a'. split; [exact Hset|]. split; [exact Hrep|]. split; [exact Hcap|].
  apply Hlog. by vm_compute.
Defined.

(** Shrinking the block of [1, 2, 3] from 8 cells to 5. *)
Lemma shrinkToNoMoreThan_lowers_witness :
  represents holding_123 [1; 2; 3]
  ∧ ∃ a', shrinkToNoMoreThan false 5 holding_123 = Some a'
          ∧ represents a' [1; 2; 3]
          ∧ capacity a' = 5.
Proof.
  assert (represents holding_123 [1; 2; 3]) as H1 by holds_sequence.
  split; [exact H1|].
  destruct (shrinkToNoMoreThan_lowers false holding_123 [1; 2; 3] 5 H1)
    as (a' & Hs & Hrep & Hcap & _); [cbn; lia|].
  exists a'. split; [exact Hs|]. split; [exact Hrep|exact Hcap].
Defined.

(** Room for ten elements, then seven more elements behind [1, 2, 3]. *)
Lemma reserved_adds_do_not_reallocate_witness :
  represents holding_123 [1; 2; 3]
  ∧ ∃ a1 a2, ensureAllocatedSize false 10 holding_123 = Some a1
             ∧ add_each false [4; 5; 6; 7; 8; 9; 10] a1 = Some a2
             ∧ represents a2 [1; 2; 3; 4; 5; 6; 7; 8; 9; 10]
             ∧ capacity a2 = capacity a1.
Proof.
  assert (represents holding_123 [1; 2; 3]) as H1 by holds_sequence.
  split; [exact H1|].
  destruct (reserved_adds_do_not_reallocate false holding_123 [1; 2; 3] 10
              [4; 5; 6; 7; 8; 9; 10] H1)
    as (a1 & a2 & He & Ha & Hrep & _ & Hcap & _);
    [right; by vm_compute | cbn; lia |].
  exists a1, a2. split; [exact He|]. split; [exact Ha|].
  split; [exact Hrep|exact Hcap].
Defined.

(** Edits that grow the block of [1, 2, 3] once and empty it later. *)
Lemma capacity_never_decreases_witness :
  let ops := [Add 4; Insert 0 9 7; RemoveElements 1 8; Move 0 1; Clear;
              AddArrayRange [5; 6; 7] 1 (-1)] in
  represents holding_123 [1; 2; 3]
  ∧ admissible false true ops holding_123
  ∧ ∃ states, run false true ops holding_123 = Some states
              ∧ Forall (λ s, 8 ≤ capacity s) states.
Proof.
  intros ops.
  assert (represents holding_123 [1; 2; 3]) as H1 by holds_sequence.
  assert (admissible false true ops holding_123) as H2
    by (unfold ops; show_admissible).
  split; [exact H1|]. split; [exact H2|].
  destruct (capacity_never_decreases false true ops holding_123 [1; 2; 3] H1 H2)
    as (states & Hrun & Hlen & Hmono); [reflexivity|].
  exists states. split; [exact Hrun|].
  vm_compute in Hrun. injection Hrun as <-.
  repeat constructor; by vm_compute.
Defined.

(** * Inserting arrays, swapping, and the elements a container keeps *)

Section Reordering.
Context {T : Type}.
Variable trivially_copyable move_assignable : bool.
Implicit Types (a : @ArrayBase T) (l src : list T).

Lemma fill_loop_as_copies (e : T) n : ∀ space a,
  fill_loop n space e a = copy_construct_loop n space (replicate n e) a.
Proof.
  induction n as [|n IH]; intros space a; [done|].
  cbn [fill_loop copy_construct_loop replicate].
  destruct (construct_at space e a) as [a1|]; [|done].
  cbn [mbind option_bind]. apply IH.
Qed.

(** X11. Inserting an element several times is inserting an array that
    holds the element that many times: the two functions return the same
    result on every container, whether they succeed or not. *)
Theorem insert_as_insertArray a indexToInsertAt (newElement : T)
    numberOfTimesToInsertIt :
  insert trivially_copyable indexToInsertAt newElement
         numberOfTimesToInsertIt a
  = insertArray trivially_copyable indexToInsertAt
      (replicate (Z.to_nat numberOfTimesToInsertIt) newElement)
      numberOfTimesToInsertIt a.
Proof.
  unfold insert, insertArray.
  destruct (createInsertSpace _ _ _ _) as [[space a1]|]; [|done].
  cbn [mbind option_bind]. by rewrite fill_loop_as_copies.
Qed.

(** X12. [insertArray] puts the first [numberOfElements] elements found at
    [newElements] in front of the element at [indexToInsertAt], or behind
    the last element when the index is not one of the sequence. *)
Theorem insertArray_places_elements a l indexToInsertAt newElements
    numberOfElements :
  represents a l →
  1 ≤ numberOfElements ≤ Z.of_nat (length newElements) →
  growth_fits (capacity a) (Z.of_nat (length l) + numberOfElements) →
  let space := Z.to_nat (gap_index indexToInsertAt (Z.of_nat (length l))) in
  ∃ a', insertArray trivially_copyable indexToInsertAt newElements
                    numberOfElements a = Some a'
    ∧ represents a' (take space l
                     ++ take (Z.to_nat numberOfElements) newElements
                     ++ drop space l)
    ∧ size a' = size a + numberOfElements
    ∧ (∀ k x, (k < Z.to_nat numberOfElements)%nat →
         newElements !! k = Some x →
         operator_index a' (Z.of_nat (space + k)) = Some x).
Proof.
  intros Hrep Hn Hfits space. unfold capacity in Hfits.
  destruct (insertArray_spec trivially_copyable a l indexToInsertAt newElements
              numberOfElements Hrep ltac:(lia) Hfits ltac:(lia))
    as (a' & Hins & Hrep').
  fold space in Hrep'. exists a'. split; [done|]. split; [done|].
  pose proof (gap_index_bounds indexToInsertAt (Z.of_nat (length l))) as Hg.
  assert (space ≤ length l)%nat as Hspace by (unfold space; lia).
  split.
  - unfold size.
    rewrite (represents_numUsed _ _ Hrep'), (represents_numUsed _ _ Hrep).
    norm_length. lia.
  - intros k x Hk Hx. unfold operator_index.
    apply (read_element_represents a' _ _ x Hrep'); [lia|].
    rewrite Nat2Z.id.
    rewrite lookup_app_r by (rewrite length_take; lia).
    rewrite length_take.
    replace (space + k - space `min` length l)%nat with k by lia.
    rewrite lookup_app_l by (rewrite length_take; lia).
    by rewrite lookup_take_lt by lia.
Qed.

(** X13. Removing a range and inserting the removed elements again at the
    same index gives the sequence back. *)
Theorem remove_then_insertArray a l indexToRemoveAt numElementsToRemove :
  represents a l →
  0 ≤ indexToRemoveAt → 1 ≤ numElementsToRemove →
  indexToRemoveAt + numElementsToRemove ≤ Z.of_nat (length l) →
  let removed := take (Z.to_nat numElementsToRemove)
                      (drop (Z.to_nat indexToRemoveAt) l) in
  ∃ a1 a2,
    removeElements trivially_copyable move_assignable indexToRemoveAt
                   numElementsToRemove a = Some a1
    ∧ insertArray trivially_copyable indexToRemoveAt removed
                  numElementsToRemove a1 = Some a2
    ∧ represents a2 l
    ∧ capacity a2 = capacity a.
Proof.
  intros Hrep Hi Hn Hlen removed.
  destruct (removeElements_spec trivially_copyable move_assignable a l
              indexToRemoveAt numElementsToRemove Hrep Hi ltac:(lia) Hlen)
    as (a1 & Hrem & Hrep1 & Hcap1).
  pose proof (represents_len_within_capacity _ _ Hrep) as Hinv.
  unfold len_within_capacity, size, capacity in Hinv.
  rewrite (represents_numUsed _ _ Hrep) in Hinv.
  set (l1 := take (Z.to_nat indexToRemoveAt) l
             ++ drop (Z.to_nat (indexToRemoveAt + numElementsToRemove)) l) in *.
  assert (Z.of_nat (length l1)
          = Z.of_nat (length l) - numElementsToRemove) as Hl1
    by (unfold l1; norm_length; lia).
  assert (length removed = Z.to_nat numElementsToRemove) as Hremoved
    by (unfold removed; norm_length; lia).
  destruct (insertArray_spec trivially_copyable a1 l1 indexToRemoveAt removed
              numElementsToRemove Hrep1) as (a2 & Hins & Hrep2).
  { lia. }
  { left. rewrite Hcap1. lia. }
  { lia. }
  exists a1, a2. split; [done|]. split; [done|].
  assert (gap_index indexToRemoveAt (Z.of_nat (length l1)) = indexToRemoveAt)
    as Hgap.
  { unfold gap_index. destruct (isPositiveAndBelow _ _) eqn:Hin; [done|].
    apply isPositiveAndBelow_false in Hin. lia. }
  rewrite Hgap in Hrep2. split.
  - replace l with (take (Z.to_nat indexToRemoveAt) l1
                    ++ take (Z.to_nat numElementsToRemove) removed
                    ++ drop (Z.to_nat indexToRemoveAt) l1); [done|].
    unfold l1. rewrite take_app_length', drop_app_length'
      by (rewrite length_take; lia).
    rewrite (take_ge removed) by lia. unfold removed.
    replace (Z.to_nat (indexToRemoveAt + numElementsToRemove))
      with (Z.to_nat indexToRemoveAt + Z.to_nat numElementsToRemove)%nat by lia.
    rewrite <- drop_drop.
    rewrite take_drop. by rewrite take_drop.
  - unfold capacity. rewrite <- Hcap1.
    pose proof (represents_capacity_int _ _ Hrep) as Hmax.
    destruct (insertArray_capacity _ _ _ _ _ _ Hins) as (a0 & Hens & ->).
    unfold ensureAllocatedSize in Hens.
    rewrite (represents_numUsed _ _ Hrep1) in Hens.
    rewrite int_add_id in Hens by int_lia.
    rewrite bool_decide_eq_false_2 in Hens by lia. by injection Hens as <-.
Qed.

Lemma exchange_cells {A} (i j : nat) (m : list A) x y :
  m !! i = Some x → m !! j = Some y →
  <[j:=y]> (<[i:=x]> (<[j:=x]> (<[i:=y]> m))) = m.
Proof.
  intros Hx Hy. destruct (decide (i = j)) as [->|Hne].
  - rewrite !list_insert_insert_eq. by rewrite list_insert_id.
  - rewrite (list_insert_insert_ne _ i j) by done.
    rewrite !list_insert_insert_eq.
    rewrite (list_insert_id _ i) by done. by rewrite list_insert_id.
Qed.

Lemma peek_live_Some (m : list (@slot T)) i x :
  peek_live m i = Some x ↔
  0 ≤ i < Z.of_nat (length m) ∧ m !! Z.to_nat i = Some x ∧ is_live x = true.
Proof.
  unfold peek_live, peek, in_block. case_bool_decide as Hin.
  - destruct (m !! Z.to_nat i) as [y|]; cbn.
    + destruct (is_live y) eqn:Hy; split.
      * intros [= ->]. done.
      * by intros (_ & [= ->] & _).
      * done.
      * intros (_ & [= ->] & Hx). congruence.
    + split; [done|]. by intros (_ & ? & _).
  - cbn. split; [done|]. by intros (? & _).
Qed.

Lemma poke_Some (m : list (@slot T)) i x m' :
  poke m i x = Some m' ↔
  0 ≤ i < Z.of_nat (length m) ∧ m' = <[Z.to_nat i := x]> m.
Proof.
  unfold poke, in_block. case_bool_decide as Hin.
  - split; [by intros [= <-]|]. by intros (_ & ->).
  - split; [done|]. by intros (? & _).
Qed.

Lemma swap_swap a a' index1 index2 :
  swap index1 index2 a = Some a' → swap index1 index2 a' = Some a.
Proof.
  unfold swap. destruct (_ && _) eqn:Hin; [|by intros [= <-]; rewrite Hin].
  intros H.
  destruct (peek_live _ index1) as [sx|] eqn:Hx; [|done].
  destruct (peek_live _ index2) as [sy|] eqn:Hy; [|done].
  cbn [mbind option_bind] in H.
  destruct (poke _ index1 _) as [m1|] eqn:Hp1; [|done].
  cbn [mbind option_bind] in H.
  destruct (poke m1 _ _) as [m2|] eqn:Hp2; [|done].
  cbn in H. injection H as <-. cbn [numUsed set_elements elements]. rewrite Hin.
  apply peek_live_Some in Hx as (Hi & Hx & Hlx).
  apply peek_live_Some in Hy as (Hj & Hy & Hly).
  apply poke_Some in Hp1 as (_ & ->). apply poke_Some in Hp2 as (_ & ->).
  set (i := Z.to_nat index1) in *. set (j := Z.to_nat index2) in *.
  set (m := elements a) in *.
  assert (i < length m)%nat as Hil by lia.
  assert (j < length m)%nat as Hjl by lia.
  assert (<[j:=sx]> (<[i:=sy]> m) !! i = Some sy) as Hi'.
  { destruct (decide (i = j)) as [He|Hne].
    - rewrite <- He in *. rewrite list_lookup_insert_eq
        by (rewrite length_insert; lia). congruence.
    - rewrite list_lookup_insert_ne by done.
      by rewrite list_lookup_insert_eq by lia. }
  assert (<[j:=sx]> (<[i:=sy]> m) !! j = Some sx) as Hj'
    by (by rewrite list_lookup_insert_eq by (rewrite length_insert; lia)).
  rewrite (proj2 (peek_live_Some _ index1 sy))
    by (rewrite !length_insert; done).
  rewrite (proj2 (peek_live_Some _ index2 sx))
    by (rewrite !length_insert; done).
  cbn [mbind option_bind].
  rewrite (proj2 (poke_Some _ index1 sx _))
    by (rewrite !length_insert; done).
  cbn [mbind option_bind].
  rewrite (proj2 (poke_Some _ index2 sy _))
    by (rewrite !length_insert; done).
  cbn [mbind option_bind]. fold i j.
  pose proof (exchange_cells i j m sx sy Hx Hy) as Hex.
  destruct a as [m0 c u lg]. cbn [elements numAllocated numUsed destructorCalls] in *.
  by rewrite Hex.
Qed.

(** X14. [swap] with two indices of the sequence exchanges the two
    elements and leaves every other element, the capacity and the trace
    of destructor calls alone; swapping again restores the container. *)
Theorem swap_exchanges a l index1 index2 :
  represents a l →
  0 ≤ index1 < Z.of_nat (length l) →
  0 ≤ index2 < Z.of_nat (length l) →
  ∃ a' l',
    swap index1 index2 a = Some a'
    ∧ represents a' l'
    ∧ l' !! Z.to_nat index1 = l !! Z.to_nat index2
    ∧ l' !! Z.to_nat index2 = l !! Z.to_nat index1
    ∧ (∀ k, k ≠ Z.to_nat index1 → k ≠ Z.to_nat index2 → l' !! k = l !! k)
    ∧ capacity a' = capacity a
    ∧ destructorCalls a' = destructorCalls a
    ∧ swap index1 index2 a' = Some a.
Proof.
  intros Hrep Hi Hj.
  destruct (swap_spec a l index1 index2 Hrep) as (a' & Hswap & Hcap & Hrep').
  assert (isPositiveAndBelow index1 (Z.of_nat (length l)) = true) as Hin1
    by (apply isPositiveAndBelow_true; lia).
  assert (isPositiveAndBelow index2 (Z.of_nat (length l)) = true) as Hin2
    by (apply isPositiveAndBelow_true; lia).
  rewrite Hin1, Hin2 in Hrep'. cbn [andb] in Hrep'.
  destruct (lookup_lt_is_Some_2 l (Z.to_nat index1)) as [x Hx]; [lia|].
  destruct (lookup_lt_is_Some_2 l (Z.to_nat index2)) as [y Hy]; [lia|].
  exists a', (exchange (Z.to_nat index1) (Z.to_nat index2) l).
  split; [done|]. split; [done|].
  assert (destructorCalls a' = destructorCalls a) as Hlog.
  { unfold swap in Hswap. destruct (_ && _); [|by injection Hswap as <-].
    destruct (peek_live _ index1) as [sx|]; [|done].
    destruct (peek_live _ index2) as [sy|]; [|done].
    cbn [mbind option_bind] in Hswap.
    destruct (poke _ index1 _) as [m1|]; [|done].
    cbn [mbind option_bind] in Hswap.
    destruct (poke m1 _ _) as [m2|]; [|done].
    cbn in Hswap. by injection Hswap as <-. }
  split; [|split; [|split; [|split; [done|split; [done|]]]]].
  - unfold exchange. rewrite Hx, Hy.
    destruct (decide (Z.to_nat index1 = Z.to_nat index2)) as [He|Hne].
    + rewrite He in Hx |- *.
      rewrite list_lookup_insert_eq by (rewrite length_insert; lia).
      congruence.
    + rewrite list_lookup_insert_ne by done.
      by rewrite list_lookup_insert_eq by lia.
  - unfold exchange. rewrite Hx, Hy.
    by rewrite list_lookup_insert_eq by (rewrite length_insert; lia).
  - intros k Hk1 Hk2. unfold exchange. rewrite Hx, Hy.
    by rewrite !list_lookup_insert_ne by done.
  - by apply swap_swap.
Qed.

Lemma relocate_Permutation (from to : nat) l : relocate from to l ≡ₚ l.
Proof.
  unfold relocate. destruct (l !! from) as [x|] eqn:Hx; [|done].
  rewrite <- Permutation_middle, take_drop.
  symmetry. by apply delete_Permutation.
Qed.

Lemma exchange_Permutation (i j : nat) l : exchange i j l ≡ₚ l.
Proof.
  unfold exchange. destruct (l !! i) as [x|] eqn:Hx; [|done].
  destruct (l !! j) as [y|] eqn:Hy; [|done].
  by apply Permutation_insert_swap.
Qed.

(** X15. [move] and [swap] only reorder: whatever the indices, the
    container holds the same elements afterwards, each as often as
    before, and has the same length and capacity. *)
Theorem move_and_swap_permute a l index1 index2 :
  represents a l →
  (∃ a' l', move trivially_copyable move_assignable index1 index2 a = Some a'
            ∧ represents a' l' ∧ l' ≡ₚ l
            ∧ size a' = size a ∧ capacity a' = capacity a)
  ∧ (∃ a' l', swap index1 index2 a = Some a'
              ∧ represents a' l' ∧ l' ≡ₚ l
              ∧ size a' = size a ∧ capacity a' = capacity a).
Proof.
  intros Hrep. split.
  - destruct (move_spec trivially_copyable move_assignable a l index1 index2
                Hrep) as (a' & Hmove & Hcap & Hrep').
    set (l' := if isPositiveAndBelow index1 (Z.of_nat (length l))
               then relocate (Z.to_nat index1)
                      (Z.to_nat (clamped_index index2 (Z.of_nat (length l)))) l
               else l) in *.
    assert (l' ≡ₚ l) as Hperm
      by (unfold l'; destruct (isPositiveAndBelow _ _);
          [apply relocate_Permutation|done]).
    exists a', l'. do 3 (split; [done|]). split; [|done].
    unfold size. rewrite (represents_numUsed _ _ Hrep'),
      (represents_numUsed _ _ Hrep). by rewrite Hperm.
  - destruct (swap_spec a l index1 index2 Hrep) as (a' & Hswap & Hcap & Hrep').
    set (l' := if isPositiveAndBelow index1 (Z.of_nat (length l))
                  && isPositiveAndBelow index2 (Z.of_nat (length l))
               then exchange (Z.to_nat index1) (Z.to_nat index2) l
               else l) in *.
    assert (l' ≡ₚ l) as Hperm
      by (unfold l'; destruct (_ && _); [apply exchange_Permutation|done]).
    exists a', l'. do 3 (split; [done|]). split; [|done].
    unfold size. rewrite (represents_numUsed _ _ Hrep'),
      (represents_numUsed _ _ Hrep). by rewrite Hperm.
Qed.

End Reordering.

(** Inserting the first two elements of [7, 8, 9] at index 1 of [1, 2, 3]. *)
Lemma insertArray_places_elements_witness :
  represents holding_123 [1; 2; 3]
  ∧ ∃ a', insertArray false 1 [7; 8; 9] 2 holding_123 = Some a'
          ∧ represents a' [1; 7; 8; 2; 3]
          ∧ size a' = 5.
Proof.
  assert (represents holding_123 [1; 2; 3]) as H1 by holds_sequence.
  split; [exact H1|].
  destruct (insertArray_places_elements false holding_123 [1; 2; 3] 1 [7; 8; 9]
              2 H1) as (a' & Hins & Hrep & Hsize & _);
    [cbn; lia | left; cbn; lia |].
  exists a'. split; [exact Hins|]. split; [exact Hrep|exact Hsize].
Defined.

(** Removing [9, 2] from [1, 9, 2, 3] and inserting it again. *)
Lemma remove_then_insertArray_witness :
  represents scenario_1923 [1; 9; 2; 3]
  ∧ ∃ a1 a2, removeElements false true 1 2 scenario_1923 = Some a1
             ∧ insertArray false 1 [9; 2] 2 a1 = Some a2
             ∧ represents a2 [1; 9; 2; 3].
Proof.
  assert (represents scenario_1923 [1; 9; 2; 3]) as H1 by holds_sequence.
  split; [exact H1|].
  destruct (remove_then_insertArray false true scenario_1923 [1; 9; 2; 3] 1 2
              H1) as (a1 & a2 & Hrem & Hins & Hrep & _);
    [lia | lia | cbn; lia |].
  exists a1, a2. split; [exact Hrem|]. split; [exact Hins|exact Hrep].
Defined.

(** Swapping the first and the last element of [1, 2, 3], twice. *)
Lemma swap_exchanges_witness :
  represents holding_123 [1; 2; 3]
  ∧ ∃ a', swap 0 2 holding_123 = Some a'
          ∧ represents a' [3; 2; 1]
          ∧ swap 0 2 a' = Some holding_123.
Proof.
  assert (represents holding_123 [1; 2; 3]) as H1 by holds_sequence.
  split; [exact H1|].
  destruct (swap_exchanges holding_123 [1; 2; 3] 0 2 H1)
    as (a' & l' & Hswap & Hrep & _ & _ & _ & _ & _ & Hback);
    [cbn; lia | cbn; lia |].
  exists a'. split; [exact Hswap|]. split; [|exact Hback].
  vm_compute in Hswap. injection Hswap as <-. holds_sequence.
Defined.

(** A move to an index that is clamped, and a swap, on [1, 2, 3]. *)
Lemma move_and_swap_permute_witness :
  represents holding_123 [1; 2; 3]
  ∧ (∃ a' l', move false true 0 7 holding_123 = Some a'
              ∧ represents a' l' ∧ l' ≡ₚ [1; 2; 3])
  ∧ (∃ a' l', swap 0 2 holding_123 = Some a'
              ∧ represents a' l' ∧ l' ≡ₚ [1; 2; 3]).
Proof.
  assert (represents holding_123 [1; 2; 3]) as H1 by holds_sequence.
  split; [exact H1|].
  destruct (move_and_swap_permute false true holding_123 [1; 2; 3] 0 7 H1)
    as [(a1 & l1 & Hmove & Hrep1 & Hperm1 & _) _].
  destruct (move_and_swap_permute false true holding_123 [1; 2; 3] 0 2 H1)
    as [_ (a2 & l2 & Hswap & Hrep2 & Hperm2 & _)].
  split; [exists a1, l1|exists a2, l2]; (split; [|split]); assumption.
Defined.

(** * The container as a sequence

    Each operation of the class does to the container what [effect] does
    to the sequence it holds. *)

Section Refinement.
Context {T : Type}.
Variable trivially_copyable move_assignable : bool.
Implicit Types (a : @ArrayBase T) (l : list T) (o : @operation T).

Lemma perform_effect o a l :
  represents a l → precondition trivially_copyable o a →
  ∃ a', perform trivially_copyable move_assignable o a = Some a'
        ∧ represents a' (effect o l).
Proof.
  intros Hrep Hpre. pose proof (represents_numUsed _ _ Hrep) as Hu.
  destruct o; cbn [perform precondition effect] in *; rewrite ?Hu in Hpre.
  - destruct (add_spec trivially_copyable a l newElement Hrep Hpre)
      as (a' & H & Hr & _). eauto.
  - destruct (add_pack_spec trivially_copyable a l firstNewElement otherElements
                Hrep Hpre) as (a' & H & Hr). eauto.
  - destruct Hpre as [Hn Hfit].
    destruct (addArray_spec trivially_copyable a l elementsToAdd numElementsToAdd
                Hrep Hn Hfit) as (a' & H & Hr). eauto.
  - destruct (addArray_items_spec trivially_copyable a l items Hrep Hpre)
      as (a' & H & Hr). eauto.
  - destruct (addArray_from_spec trivially_copyable a l arrayToAddFrom Hrep Hpre)
      as (a' & H & Hr). eauto.
  - destruct Hpre as (Hs & Hsz & Hn & Hfit).
    destruct (addArray_range_exact trivially_copyable a l arrayToAddFrom
                startIndex numElementsToAdd Hrep Hs Hsz Hn Hfit)
      as (a' & H & _ & Hr).
    rewrite H. cbn. exists a'. split; [done|].
    by replace (Z.to_nat startIndex) with (Z.to_nat (Z.max 0 startIndex)) by lia.
  - destruct Hpre as (Hn & Hfit & Hgap).
    destruct (insert_spec trivially_copyable a l indexToInsertAt newElement
                numberOfTimesToInsertIt Hrep Hn Hfit Hgap) as (a' & H & Hr). eauto.
  - destruct Hpre as (Hn & Hfit & Hgap).
    destruct (insertArray_spec trivially_copyable a l indexToInsertAt newElements
                numberOfElements Hrep Hn Hfit Hgap) as (a' & H & Hr). eauto.
  - destruct Hpre as (Hi & Hn & Hend).
    destruct (removeElements_spec trivially_copyable move_assignable a l
                indexToRemoveAt numElementsToRemove Hrep Hi Hn Hend)
      as (a' & H & Hr & _). eauto.
  - destruct (swap_spec a l index1 index2 Hrep) as (a' & H & _ & Hr). eauto.
  - destruct (move_spec trivially_copyable move_assignable a l currentIndex newIndex
                Hrep) as (a' & H & _ & Hr). eauto.
  - destruct (clear_spec a l Hrep) as (a' & H & _ & _ & _ & _ & Hr). eauto.
  - destruct (ensureAllocatedSize_spec trivially_copyable a l minNumElements
                Hrep Hpre) as (a' & H & Hr & _). eauto.
  - destruct (setAllocatedSize_spec trivially_copyable a l numElements Hrep Hpre)
      as (a' & H & Hr & _). eauto.
  - destruct (shrinkToNoMoreThan_spec trivially_copyable a l maxNumElements Hrep Hpre)
      as (a' & H & Hr & _). eauto.
Qed.

(** X16. Through a sequence of operations, each within its precondition,
    the container holds after every operation the sequence that the
    operations, read as edits of a list, produce; the reading functions
    then see that list. *)
Theorem run_follows_the_edits (default_value : T) (ops : list (@operation T)) :
  ∀ a l,
  represents a l →
  admissible trivially_copyable move_assignable ops a →
  ∃ states,
    run trivially_copyable move_assignable ops a = Some states
    ∧ Forall2 represents states (sequences_after ops l)
    ∧ Forall2 (λ s l', size s = Z.of_nat (length l')
                       ∧ ∀ i, getValueWithDefault default_value s i
                              = Some (if isPositiveAndBelow i
                                           (Z.of_nat (length l'))
                                      then default default_value
                                             (l' !! Z.to_nat i)
                                      else default_value))
              states (sequences_after ops l).
Proof.
  induction ops as [|o ops IH]; intros a l Hrep Hadm.
  - exists []. split; [done|]. split; constructor.
  - cbn [admissible] in Hadm. destruct Hadm as [Hpre Hrest].
    destruct (perform_effect o a l Hrep Hpre) as (a' & Hdo & Hrep').
    rewrite Hdo in Hrest.
    destruct (IH a' _ Hrep' Hrest) as (states & Hrun & Hall & Hread).
    exists (a' :: states). cbn [run sequences_after].
    rewrite Hdo. cbn [mbind option_bind].
    rewrite Hrun. cbn [mbind option_bind]. split; [done|].
    split; constructor; try done. split.
    + apply (represents_numUsed _ _ Hrep').
    + intros i. by apply getValueWithDefault_represents.
Qed.

End Refinement.

(** Ten operations from the empty container and the ten sequences they give. *)
Lemma run_follows_the_edits_witness :
  let ops := [Add 1; AddPack 2 [3]; Insert 1 9 1; RemoveElements 1 2;
              Swap 0 1; Move 0 1; AddArrayRange [5; 6; 7] 1 (-1);
              InsertArray 0 [7; 8] 2; Clear; AddArrayFrom [4]] in
  represents (@empty Z) []
  ∧ admissible false true ops (@empty Z)
  ∧ ∃ states, run false true ops (@empty Z) = Some states
      ∧ Forall2 represents states
          [[1]; [1; 2; 3]; [1; 9; 2; 3]; [1; 3]; [3; 1]; [1; 3];
           [1; 3; 6; 7]; [7; 8; 1; 3; 6; 7]; []; [4]].
Proof.
  intros ops.
  assert (represents (@empty Z) []) as H1 by apply represents_empty.
  assert (admissible false true ops (@empty Z)) as H2
    by (unfold ops; show_admissible).
  split; [exact H1|]. split; [exact H2|].
  destruct (run_follows_the_edits false true 0 ops empty [] H1 H2)
    as (states & Hrun & Hall & _).
  exists states. split; [exact Hrun|exact Hall].
Defined.

(** * The cells behind the sequence

    For elements that are not trivially copyable, every cell of the
    block outside the sequence holds no object: what is moved away is
    destroyed, and what is destroyed is not used again. *)

Section RawTail.
Context {T : Type}.
Variable move_assignable : bool.
Implicit Types (a : @ArrayBase T) (l es src : list T) (R : list (@slot T)).

Lemma raw_mem (m : list (@slot T)) l k c u lg :
  m = (Obj <$> l) ++ replicate k Raw → u = Z.of_nat (length l) →
  tail_is_raw (mkArrayBase m c u lg).
Proof.
  intros -> ->. unfold tail_is_raw. cbn [elements numUsed].
  rewrite Nat2Z.id, drop_app_length' by (by rewrite length_fmap).
  rewrite length_app, length_fmap, length_replicate. f_equal. lia.
Qed.

Lemma raw_inv a l :
  represents a l → tail_is_raw a →
  ∃ k, a = mkArrayBase ((Obj <$> l) ++ replicate k Raw)
                       (Z.of_nat (length l + k)) (Z.of_nat (length l))
                       (destructorCalls a)
       ∧ Z.of_nat (length l + k) ≤ INT_MAX.
Proof.
  intros Hrep Hraw. destruct (represents_inv _ _ Hrep) as (tail & Ha & Hmax).
  exists (length tail). split; [|done]. rewrite Ha at 1. f_equal.
  unfold tail_is_raw in Hraw. rewrite Ha in Hraw. cbn [elements numUsed] in Hraw.
  rewrite Nat2Z.id, drop_app_length' in Hraw by (by rewrite length_fmap).
  rewrite Hraw at 1. do 2 f_equal. rewrite length_app, length_fmap. lia.
Qed.

Lemma setAllocatedSize_raw a l n a' :
  represents a l → tail_is_raw a → Z.of_nat (length l) ≤ n ≤ INT_MAX →
  setAllocatedSize false n a = Some a' → tail_is_raw a'.
Proof.
  intros Hrep Hraw Hn Hset.
  rewrite (setAllocatedSize_exact false a l n Hrep Hn) in Hset.
  injection Hset as <-. case_bool_decide; [done|].
  by eapply raw_mem.
Qed.

Lemma ensureAllocatedSize_raw a l m a' :
  represents a l → tail_is_raw a → growth_fits (numAllocated a) m →
  ensureAllocatedSize false m a = Some a' → tail_is_raw a'.
Proof.
  intros Hrep Hraw Hfits. unfold ensureAllocatedSize.
  pose proof (represents_len_within_capacity _ _ Hrep) as Hinv.
  unfold len_within_capacity, size, capacity in Hinv.
  case_bool_decide as Hgrow; [|by intros [= <-]].
  destruct Hfits as [?|Hfits]; [lia|].
  rewrite grown_size by lia.
  pose proof (round_down_bounds (m + m ÷ 2 + 8)) as Hb.
  assert (0 ≤ m ÷ 2) by (apply Z.quot_pos; lia).
  apply (setAllocatedSize_raw a l); [done|done|].
  rewrite <- (represents_numUsed _ _ Hrep). lia.
Qed.

(** Reserved room, cell by cell. *)
Lemma reserve_raw a l k m :
  represents a l → tail_is_raw a → 0 ≤ k → m = Z.of_nat (length l) + k →
  growth_fits (numAllocated a) m →
  ∃ r c lg,
    ensureAllocatedSize false m a
      = Some (mkArrayBase ((Obj <$> l) ++ replicate (Z.to_nat k) Raw
                           ++ replicate r Raw)
                          c (Z.of_nat (length l)) lg)
    ∧ c = Z.of_nat (length l + Z.to_nat k + r)
    ∧ c ≤ INT_MAX.
Proof.
  intros Hrep Hraw Hk -> Hfits.
  destruct (ensureAllocatedSize_spec false a l _ Hrep Hfits)
    as (a1 & Hens & Hrep1 & Hcap & _).
  pose proof (ensureAllocatedSize_raw a l _ a1 Hrep Hraw Hfits Hens) as Hraw1.
  destruct (raw_inv a1 l Hrep1 Hraw1) as (k1 & Ha1 & Hmax).
  destruct a1 as [m1 c1 u1 lg1]. cbn [numAllocated destructorCalls] in *.
  injection Ha1 as -> -> ->.
  exists (k1 - Z.to_nat k)%nat, (Z.of_nat (length l + k1)), lg1.
  rewrite Hens. split; [|split; [lia|done]].
  rewrite <- replicate_add.
  by replace (Z.to_nat k + (k1 - Z.to_nat k))%nat with k1 by lia.
Qed.

Lemma pack_raw a l es m a' :
  represents a l → tail_is_raw a →
  m = Z.of_nat (length l) + Z.of_nat (length es) →
  growth_fits (numAllocated a) m →
  (a1 ← ensureAllocatedSize false m a;
   addAssumingCapacityIsReady_pack es a1) = Some a' →
  tail_is_raw a'.
Proof.
  intros Hrep Hraw Hm Hfits.
  pose proof (represents_capacity_int _ _ Hrep) as Hmax.
  assert (m ≤ INT_MAX) as Hint
    by (apply (growth_fits_int _ _ Hfits Hmax); lia).
  destruct (reserve_raw a l (Z.of_nat (length es)) m Hrep Hraw)
    as (r & c & lg & -> & Hc & Hcmax); [lia|done|done|].
  cbn [mbind option_bind]. rewrite Nat2Z.id.
  rewrite addAssumingCapacityIsReady_pack_spec
    by (rewrite ?length_fmap, ?length_replicate; lia).
  intros [= <-]. apply (raw_mem _ (l ++ es) r); [|rewrite length_app; lia].
  by rewrite fmap_app, <- app_assoc.
Qed.

Lemma add_raw a l (e : T) a' :
  represents a l → tail_is_raw a →
  growth_fits (numAllocated a) (Z.of_nat (length l) + 1) →
  add false e a = Some a' → tail_is_raw a'.
Proof.
  intros Hrep Hraw Hfits Hadd.
  pose proof (represents_capacity_int _ _ Hrep) as Hmax.
  pose proof (growth_fits_int _ _ Hfits Hmax ltac:(lia)) as Hint.
  apply (pack_raw a l [e] (Z.of_nat (length l) + 1)); try done.
  unfold add in Hadd. rewrite (represents_numUsed _ _ Hrep) in Hadd.
  rewrite int_add_id in Hadd by int_lia.
  destruct (ensureAllocatedSize _ _ a) as [a1|]; [|done].
  cbn [mbind option_bind addAssumingCapacityIsReady_pack] in *.
  rewrite Hadd. done.
Qed.

Lemma addArray_raw a l src n a' :
  represents a l → tail_is_raw a → 0 ≤ n ≤ Z.of_nat (length src) →
  growth_fits (numAllocated a) (Z.of_nat (length l) + n) →
  addArray false src n a = Some a' → tail_is_raw a'.
Proof.
  intros Hrep Hraw Hn Hfits. unfold addArray.
  pose proof (represents_capacity_int _ _ Hrep) as Hmax.
  pose proof (growth_fits_int _ _ Hfits Hmax ltac:(lia)) as Hint.
  rewrite (represents_numUsed _ _ Hrep).
  rewrite int_add_id by int_lia.
  destruct (reserve_raw a l n _ Hrep Hraw ltac:(lia) eq_refl Hfits)
    as (r & c & lg & -> & Hc & Hcmax).
  cbn [mbind option_bind].
  rewrite addArrayInternal_spec by (rewrite ?length_fmap, ?length_replicate; lia).
  cbn [mbind option_bind]. intros [= <-]. unfold set_numUsed.
  cbn [elements numAllocated numUsed destructorCalls].
  rewrite length_replicate.
  apply (raw_mem _ (l ++ take (Z.to_nat n) src) r).
  - by rewrite fmap_app, <- app_assoc.
  - rewrite int_add_id by int_lia. rewrite length_app, length_take. lia.
Qed.

Lemma createInsertSpace_raw a l at_ n :
  represents a l → tail_is_raw a → 0 ≤ n →
  growth_fits (numAllocated a) (Z.of_nat (length l) + n) →
  (n = 0 → isPositiveAndBelow at_ (Z.of_nat (length l)) = false) →
  let space := gap_index at_ (Z.of_nat (length l)) in
  ∃ G r c lg,
    createInsertSpace false at_ n a
      = Some (space,
              mkArrayBase ((Obj <$> take (Z.to_nat space) l) ++ G
                           ++ (Obj <$> drop (Z.to_nat space) l)
                           ++ replicate r Raw)
                          c (Z.of_nat (length l)) lg)
    ∧ Z.of_nat (length G) = n.
Proof.
  intros Hrep Hraw Hn Hfits Hgap space. unfold createInsertSpace.
  pose proof (growth_fits_int _ _ Hfits (represents_capacity_int _ _ Hrep))
    as Hint.
  rewrite (represents_numUsed _ _ Hrep).
  rewrite int_add_id by int_lia.
  destruct (reserve_raw a l n _ Hrep Hraw ltac:(lia) eq_refl Hfits)
    as (r & c & lg & -> & Hc & Hmax).
  cbn [mbind option_bind numUsed]. unfold space, gap_index.
  destruct (isPositiveAndBelow at_ (Z.of_nat (length l))) eqn:Hin; cbn [negb].
  - apply isPositiveAndBelow_true in Hin.
    replace ((Obj <$> l) ++ replicate (Z.to_nat n) Raw ++ replicate r Raw)
      with ((Obj <$> take (Z.to_nat at_) l) ++ (Obj <$> drop (Z.to_nat at_) l)
            ++ replicate (Z.to_nat n) Raw ++ replicate r Raw)
      by (by rewrite app_assoc, <- fmap_app, take_drop).
    destruct (createInsertSpaceInternal_spec false
                (Obj <$> take (Z.to_nat at_) l) (Obj <$> drop (Z.to_nat at_) l)
                (replicate (Z.to_nat n) Raw) (replicate r Raw) at_ n c
                (Z.of_nat (length l)) lg)
      as (G' & lg' & HG' & Hrun).
    + rewrite length_fmap, length_take. lia.
    + rewrite length_replicate. lia.
    + rewrite !length_fmap, length_take, length_drop. lia.
    + lia.
    + intros _ HG. apply (f_equal length) in HG.
      rewrite length_replicate in HG. cbn [length] in HG.
      specialize (Hgap ltac:(lia)). congruence.
    + apply Forall_live_Obj.
    + rewrite Hrun. cbn [mbind option_bind].
      exists G', r, c, lg'. split; [done|].
      rewrite HG', length_replicate. lia.
  - exists (replicate (Z.to_nat n) Raw), r, c, lg.
    rewrite Nat2Z.id, take_ge, drop_ge by lia.
    cbn [fmap list_fmap app]. split; [done|]. rewrite length_replicate. lia.
Qed.

Lemma insert_raw a l at_ (e : T) n a' :
  represents a l → tail_is_raw a → 0 ≤ n →
  growth_fits (numAllocated a) (Z.of_nat (length l) + n) →
  (n = 0 → isPositiveAndBelow at_ (Z.of_nat (length l)) = false) →
  insert false at_ e n a = Some a' → tail_is_raw a'.
Proof.
  intros Hrep Hraw Hn Hfits Hgap. unfold insert.
  pose proof (growth_fits_int _ _ Hfits (represents_capacity_int _ _ Hrep))
    as Hint.
  destruct (createInsertSpace_raw a l at_ n Hrep Hraw Hn Hfits Hgap)
    as (G & r & c & lg & -> & HG).
  cbn [mbind option_bind].
  set (space := Z.to_nat (gap_index at_ (Z.of_nat (length l)))).
  pose proof (gap_index_bounds at_ (Z.of_nat (length l)) ltac:(lia)) as Hg.
  assert (space ≤ length l)%nat as Hsp by (unfold space; lia).
  replace (Z.to_nat n) with (length G) by lia.
  rewrite fill_loop_spec
    by (rewrite length_fmap, length_take; unfold space; lia).
  cbn [mbind option_bind]. intros [= <-]. unfold set_numUsed.
  cbn [elements numAllocated numUsed destructorCalls].
  apply (raw_mem _ (take space l ++ replicate (length G) e ++ drop space l) r).
  - by rewrite !fmap_app, fmap_replicate, <- !app_assoc.
  - rewrite int_add_id by int_lia.
    rewrite !length_app, length_replicate, length_take, length_drop. lia.
Qed.

Lemma insertArray_raw a l at_ src n a' :
  represents a l → tail_is_raw a → 0 ≤ n ≤ Z.of_nat (length src) →
  growth_fits (numAllocated a) (Z.of_nat (length l) + n) →
  (n = 0 → isPositiveAndBelow at_ (Z.of_nat (length l)) = false) →
  insertArray false at_ src n a = Some a' → tail_is_raw a'.
Proof.
  intros Hrep Hraw Hn Hfits Hgap. unfold insertArray.
  pose proof (growth_fits_int _ _ Hfits (represents_capacity_int _ _ Hrep))
    as Hint.
  destruct (createInsertSpace_raw a l at_ n Hrep Hraw ltac:(lia) Hfits Hgap)
    as (G & r & c & lg & -> & HG).
  cbn [mbind option_bind].
  set (space := Z.to_nat (gap_index at_ (Z.of_nat (length l)))).
  pose proof (gap_index_bounds at_ (Z.of_nat (length l)) ltac:(lia)) as Hg.
  assert (space ≤ length l)%nat as Hsp by (unfold space; lia).
  replace (Z.to_nat n) with (length G) by lia.
  rewrite copy_construct_loop_spec;
    [| rewrite length_fmap, length_take; unfold space; lia | lia].
  cbn [mbind option_bind]. intros [= <-]. unfold set_numUsed.
  cbn [elements numAllocated numUsed destructorCalls].
  apply (raw_mem _ (take space l ++ take (length G) src ++ drop space l) r).
  - by rewrite !fmap_app, <- !app_assoc.
  - rewrite int_add_id by int_lia.
    rewrite !length_app, !length_take, length_drop. lia.
Qed.

Lemma moveAssignElement_log dst source a a' :
  moveAssignElement move_assignable dst source a = Some a' →
  destructorCalls a'
  = destructorCalls a ++ (if move_assignable then [] else [dst]).
Proof.
  unfold moveAssignElement, move_assign_at, move_construct_at, destroy_at.
  destruct move_assignable; intros H; simplify_option_eq;
    cbn; by rewrite ?app_nil_r.
Qed.

Lemma shift_left_loop_log n : ∀ d s a a',
  shift_left_loop move_assignable n d s a = Some a' →
  destructorCalls a'
  = destructorCalls a
    ++ (if move_assignable then [] else seqZ d (Z.of_nat n)).
Proof.
  induction n as [|n IH]; intros d s a a' H; cbn [shift_left_loop] in H.
  - injection H as <-. destruct move_assignable; by rewrite app_nil_r.
  - destruct (moveAssignElement _ _ _ a) as [a1|] eqn:H1; [|done].
    cbn [mbind option_bind] in H. apply IH in H. rewrite H.
    rewrite (moveAssignElement_log _ _ _ _ H1).
    destruct move_assignable; [by rewrite !app_nil_r|].
    rewrite <- app_assoc. f_equal.
    rewrite (seqZ_cons d) by lia. cbn [app]. do 2 f_equal; lia.
Qed.

Lemma removeElementsInternal_exact (A D B R : list (@slot T)) at_ n c u lg :
  at_ = Z.of_nat (length A) → n = Z.of_nat (length D) →
  u = Z.of_nat (length A + length D + length B) → u ≤ INT_MAX →
  D ≠ [] → Forall live D → Forall live B →
  removeElementsInternal false move_assignable at_ n
      (mkArrayBase (A ++ D ++ B ++ R) c u lg)
  = Some (mkArrayBase (A ++ B ++ replicate (length D) Raw ++ R) c u
            (lg ++ (if move_assignable then []
                    else seqZ at_ (Z.of_nat (length B)))
                ++ seqZ (at_ + Z.of_nat (length B)) n)).
Proof.
  intros Hat Hn Hu Hmax HD HlD HB. unfold removeElementsInternal.
  cbn [numUsed elements].
  rewrite (int_add_id at_ n) by int_lia. rewrite int_sub_id by int_lia.
  replace (u - (at_ + n)) with (Z.of_nat (length B)) by lia.
  rewrite Nat2Z.id.
  destruct (shift_left_loop_spec move_assignable B A D R at_ (at_ + n) c u lg)
    as (D' & lg' & HD' & HlD' & Hrun); [done|lia|done|done|done|].
  pose proof (shift_left_loop_log _ _ _ _ _ Hrun) as Hlog.
  cbn [destructorCalls] in Hlog.
  rewrite Hrun. cbn [mbind option_bind].
  replace (A ++ B ++ D' ++ R) with ((A ++ B) ++ D' ++ R) by same_list.
  replace (Z.to_nat n) with (length D') by lia.
  rewrite destroy_loop_spec by (try done; rewrite length_app; lia).
  subst n. rewrite Hlog, HD'. by rewrite <- !app_assoc.
Qed.

Lemma removeElements_exact a l at_ n :
  represents a l → 0 ≤ at_ → 1 ≤ n → at_ + n ≤ Z.of_nat (length l) →
  removeElements false move_assignable at_ n a
  = Some (mkArrayBase
            ((Obj <$> take (Z.to_nat at_) l ++ drop (Z.to_nat (at_ + n)) l)
             ++ replicate (Z.to_nat n) Raw
             ++ drop (length l) (elements a))
            (numAllocated a) (Z.of_nat (length l) - n)
            (destructorCalls a
             ++ (if move_assignable then []
                 else seqZ at_ (Z.of_nat (length l) - at_ - n))
             ++ seqZ (Z.of_nat (length l) - n) n)).
Proof.
  intros Hrep Hat Hn Hend. unfold removeElements.
  rewrite bool_decide_eq_true_2 by lia.
  destruct (represents_inv _ _ Hrep) as (tail & Ha & Hmax).
  assert (drop (length l) (elements a) = tail) as ->
    by (rewrite Ha; cbn [elements];
        by rewrite drop_app_length' by (by rewrite length_fmap)).
  rewrite Ha at 1. cbn [numAllocated].
  replace ((Obj <$> l) ++ tail)
    with ((Obj <$> take (Z.to_nat at_) l)
          ++ (Obj <$> take (Z.to_nat n) (drop (Z.to_nat at_) l))
          ++ (Obj <$> drop (Z.to_nat (at_ + n)) l) ++ tail).
  2:{ replace (Z.to_nat (at_ + n)) with (Z.to_nat at_ + Z.to_nat n)%nat by lia.
      rewrite <- drop_drop, !app_assoc, <- !fmap_app, <- app_assoc, !take_drop.
      done. }
  rewrite removeElementsInternal_exact.
  - cbn [mbind option_bind]. unfold set_numUsed.
    cbn [elements numAllocated numUsed destructorCalls].
    rewrite int_sub_id by int_lia.
    rewrite !length_fmap, length_take, !length_drop.
    rewrite Ha at 2. cbn [numAllocated].
    f_equal. f_equal.
    + rewrite fmap_app, <- !app_assoc. do 2 f_equal.
      f_equal. f_equal. lia.
    + do 2 f_equal.
      * destruct move_assignable; [done|]. f_equal. lia.
      * f_equal. lia.
  - rewrite length_fmap, length_take. lia.
  - rewrite length_fmap, length_take, length_drop. lia.
  - rewrite !length_fmap, !length_take, !length_drop. lia.
  - lia.
  - intros HD. apply (f_equal length) in HD.
    rewrite length_fmap, length_take, length_drop in HD. cbn [length] in HD. lia.
  - apply Forall_live_Obj.
  - apply Forall_live_Obj.
Qed.

(** X17. [removeElements] on trivially copyable elements runs no
    destructor.  On other elements it shifts the elements behind the
    range down and then destroys the last [numElementsToRemove] cells of
    the old sequence, which hold no object afterwards; elements that are
    not move assignable are destroyed before each is overwritten. *)
Theorem removeElements_runs_destructors a l indexToRemoveAt
    numElementsToRemove :
  represents a l →
  0 ≤ indexToRemoveAt → 1 ≤ numElementsToRemove →
  indexToRemoveAt + numElementsToRemove ≤ Z.of_nat (length l) →
  let len := Z.of_nat (length l) in
  ∃ a1 a2,
    removeElements true move_assignable indexToRemoveAt numElementsToRemove a
      = Some a1
    ∧ destructorCalls a1 = destructorCalls a
    ∧ removeElements false move_assignable indexToRemoveAt numElementsToRemove a
      = Some a2
    ∧ destructorCalls a2
      = destructorCalls a
        ++ (if move_assignable then []
            else seqZ indexToRemoveAt
                      (len - indexToRemoveAt - numElementsToRemove))
        ++ seqZ (len - numElementsToRemove) numElementsToRemove
    ∧ (∀ k, len - numElementsToRemove ≤ k < len →
         elements a2 !! Z.to_nat k = Some Raw).
Proof.
  intros Hrep Hat Hn Hend len.
  destruct (removeElements_spec true move_assignable a l indexToRemoveAt
              numElementsToRemove Hrep Hat ltac:(lia) Hend)
    as (a1 & Hrem1 & _ & _).
  exists a1. eexists. split; [done|]. split.
  { unfold removeElements, removeElementsInternal in Hrem1.
    rewrite bool_decide_eq_true_2 in Hrem1 by lia.
    destruct (memmove _ _ _ _); [|done]. cbn in Hrem1.
    by injection Hrem1 as <-. }
  rewrite (removeElements_exact a l _ _ Hrep Hat Hn Hend).
  split; [done|]. split; [done|].
  intros k Hk. cbn [elements].
  assert (length (take (Z.to_nat indexToRemoveAt) l
                  ++ drop (Z.to_nat (indexToRemoveAt + numElementsToRemove)) l)
          = Z.to_nat (len - numElementsToRemove)) as Hlen
    by (unfold len; norm_length; lia).
  rewrite lookup_app_r by (rewrite length_fmap, Hlen; lia).
  rewrite length_fmap, Hlen.
  rewrite lookup_app_l by (rewrite length_replicate; unfold len in *; lia).
  apply lookup_replicate_2. unfold len in *. lia.
Qed.

Lemma removeElements_raw a l at_ n a' :
  represents a l → tail_is_raw a →
  0 ≤ at_ → 0 ≤ n → at_ + n ≤ Z.of_nat (length l) →
  removeElements false move_assignable at_ n a = Some a' → tail_is_raw a'.
Proof.
  intros Hrep Hraw Hat Hn Hend.
  destruct (decide (n = 0)) as [->|Hpos].
  { unfold removeElements. rewrite bool_decide_eq_false_2 by lia.
    by intros [= <-]. }
  rewrite (removeElements_exact a l at_ n Hrep Hat ltac:(lia) Hend).
  intros [= <-].
  destruct (raw_inv a l Hrep Hraw) as (k & Ha & _).
  rewrite Ha at 1. cbn [elements].
  rewrite drop_app_length' by (by rewrite length_fmap).
  rewrite <- replicate_add.
  eapply raw_mem; [done|]. norm_length. lia.
Qed.

Lemma move_keeps_tail a l from to a' :
  represents a l →
  move false move_assignable from to a = Some a' →
  ∃ l', length l' = length l
        ∧ elements a' = (Obj <$> l') ++ drop (length l) (elements a)
        ∧ numUsed a' = numUsed a.
Proof.
  intros Hrep. unfold move. rewrite (represents_numUsed _ _ Hrep).
  destruct (represents_inv _ _ Hrep) as (tail & Ha & Hmax).
  assert (drop (length l) (elements a) = tail) as Htail
    by (rewrite Ha; cbn [elements];
        by rewrite drop_app_length' by (by rewrite length_fmap)).
  destruct (isPositiveAndBelow from (Z.of_nat (length l))) eqn:Hin.
  2:{ intros [= <-]. exists l. split; [done|].
      split; [|by apply represents_numUsed].
      rewrite Htail. by rewrite Ha at 1. }
  apply isPositiveAndBelow_true in Hin.
  pose proof (clamped_index_bounds to (Z.of_nat (length l)) ltac:(lia)) as Hto.
  pose proof (represents_capacity_int _ _ Hrep) as Hcap.
  assert ((if negb (isPositiveAndBelow to (Z.of_nat (length l)))
           then int_sub (Z.of_nat (length l)) 1 else to)
          = clamped_index to (Z.of_nat (length l))) as ->.
  { unfold clamped_index.
    destruct (isPositiveAndBelow to _); cbn [negb]; [done|].
    apply int_sub_id. int_lia. }
  set (to' := clamped_index to (Z.of_nat (length l))) in *.
  destruct (lookup_lt_is_Some_2 l (Z.to_nat from)) as [x Hx]; [lia|].
  rewrite Htail. rewrite Ha at 1.
  destruct (decide (from < to')) as [Hlt|Hge].
  - destruct (split_up l (Z.to_nat from) (Z.to_nat to') x Hx ltac:(lia))
      as (La & Bl & Lb & Hl & HLa & HBl).
    replace ((Obj <$> l) ++ tail)
      with ((Obj <$> La) ++ Obj x :: (Obj <$> Bl) ++ (Obj <$> Lb) ++ tail)
      by (rewrite Hl, !fmap_app, fmap_cons, !fmap_app; same_list).
    pose proof (f_equal length Hl) as Hlen.
    rewrite !length_app in Hlen. cbn [length] in Hlen.
    rewrite length_app in Hlen.
    destruct (moveInternal_up false move_assignable (Obj <$> La) (Obj x)
                (Obj <$> Bl) ((Obj <$> Lb) ++ tail) from to'
                (Z.of_nat (length l + length tail)) (Z.of_nat (length l))
                (destructorCalls a)) as (lg' & Hrun).
    + rewrite length_fmap. lia.
    + rewrite !length_fmap. lia.
    + destruct Bl; [cbn [length] in HBl; lia|done].
    + lia.
    + done.
    + apply Forall_live_Obj.
    + rewrite Hrun. intros [= <-]. exists (La ++ Bl ++ x :: Lb).
      split; [rewrite !length_app; cbn [length]; lia|].
      cbn [elements numUsed].
      split; [|done]. rewrite !fmap_app, fmap_cons. same_list.
  - destruct (split_down l (Z.to_nat from) (Z.to_nat to') x Hx ltac:(lia))
      as (La & Bl & Lb & Hl & HLa & HBl).
    replace ((Obj <$> l) ++ tail)
      with ((Obj <$> La) ++ (Obj <$> Bl) ++ Obj x :: (Obj <$> Lb) ++ tail)
      by (rewrite Hl, !fmap_app, fmap_cons; same_list).
    pose proof (f_equal length Hl) as Hlen.
    rewrite !length_app in Hlen. cbn [length] in Hlen.
    destruct (moveInternal_down false move_assignable (Obj <$> La) (Obj <$> Bl)
                (Obj x) ((Obj <$> Lb) ++ tail) from to'
                (Z.of_nat (length l + length tail)) (Z.of_nat (length l))
                (destructorCalls a)) as (lg' & Hrun).
    + rewrite !length_fmap. lia.
    + rewrite length_fmap. lia.
    + lia.
    + done.
    + apply Forall_live_Obj.
    + rewrite Hrun. intros [= <-]. exists (La ++ x :: Bl ++ Lb).
      split; [rewrite !length_app; cbn [length]; rewrite length_app; lia|].
      cbn [elements numUsed].
      split; [|done]. rewrite !fmap_app, fmap_cons, !fmap_app. same_list.
Qed.

Lemma raw_kept a l a' l' :
  represents a l → tail_is_raw a → length l' = length l →
  elements a' = (Obj <$> l') ++ drop (length l) (elements a) →
  numUsed a' = numUsed a →
  tail_is_raw a'.
Proof.
  intros Hrep Hraw Hlen Hel Hu.
  destruct (raw_inv a l Hrep Hraw) as (k & Ha & _).
  rewrite Ha in Hel. cbn [elements] in Hel.
  rewrite drop_app_length' in Hel by (by rewrite length_fmap).
  destruct a' as [m c u lg]. cbn [elements numUsed] in *.
  eapply raw_mem; [exact Hel|].
  rewrite Hu, (represents_numUsed _ _ Hrep). lia.
Qed.

Lemma move_raw a l from to a' :
  represents a l → tail_is_raw a →
  move false move_assignable from to a = Some a' → tail_is_raw a'.
Proof.
  intros Hrep Hraw Hmove.
  destruct (move_keeps_tail a l from to a' Hrep Hmove) as (l' & Hlen & Hel & Hu).
  by apply (raw_kept a l a' l').
Qed.

Lemma swap_raw a l i j a' :
  represents a l → tail_is_raw a →
  swap i j a = Some a' → tail_is_raw a'.
Proof.
  intros Hrep Hraw Hswap.
  destruct (swap_spec a l i j Hrep) as (a1 & Hswap1 & _ & Hrep1).
  rewrite Hswap in Hswap1. injection Hswap1 as <-.
  set (l' := if isPositiveAndBelow i (Z.of_nat (length l))
                && isPositiveAndBelow j (Z.of_nat (length l))
             then exchange (Z.to_nat i) (Z.to_nat j) l else l) in *.
  assert (length l' = length l) as Hlen.
  { apply Nat2Z.inj. rewrite <- (represents_numUsed _ _ Hrep1),
      <- (represents_numUsed _ _ Hrep).
    unfold swap in Hswap. destruct (_ && _); [|by injection Hswap as <-].
    destruct (peek_live _ i); [|done]. destruct (peek_live _ j); [|done].
    cbn [mbind option_bind] in Hswap.
    destruct (poke _ i _) as [m1|]; [|done]. cbn [mbind option_bind] in Hswap.
    destruct (poke m1 _ _); [|done]. cbn in Hswap. by injection Hswap as <-. }
  apply (raw_kept a l a' l' Hrep Hraw Hlen).
  - destruct (represents_inv _ _ Hrep1) as (tail' & Ha' & _).
    rewrite Ha' at 1. cbn [elements]. f_equal.
    unfold swap in Hswap. rewrite (represents_numUsed _ _ Hrep) in Hswap.
    destruct (isPositiveAndBelow i _) eqn:Hi; cbn [andb] in Hswap.
    2:{ injection Hswap as <-. destruct (represents_inv _ _ Hrep) as (t0 & Ha & _).
        apply (f_equal elements) in Ha', Ha. cbn [elements] in Ha', Ha.
        rewrite Ha in Ha'. unfold l' in Ha'. cbn [andb] in Ha'.
        apply app_inv_head in Ha'. rewrite Ha.
        by rewrite drop_app_length' by (by rewrite length_fmap). }
    destruct (isPositiveAndBelow j _) eqn:Hj.
    2:{ injection Hswap as <-. destruct (represents_inv _ _ Hrep) as (t0 & Ha & _).
        apply (f_equal elements) in Ha', Ha. cbn [elements] in Ha', Ha.
        rewrite Ha in Ha'. unfold l' in Ha'. rewrite andb_false_r in Ha'.
        apply app_inv_head in Ha'. rewrite Ha.
        by rewrite drop_app_length' by (by rewrite length_fmap). }
    apply isPositiveAndBelow_true in Hi, Hj.
    destruct (peek_live _ i) as [sx|]; [|done].
    destruct (peek_live _ j) as [sy|]; [|done].
    cbn [mbind option_bind] in Hswap.
    destruct (poke _ i _) as [m1|] eqn:Hp1; [|done].
    cbn [mbind option_bind] in Hswap.
    destruct (poke m1 _ _) as [m2|] eqn:Hp2; [|done].
    cbn in Hswap. injection Hswap as Heq.
    apply poke_Some in Hp1 as (_ & ->). apply poke_Some in Hp2 as (_ & ->).
    apply (f_equal elements) in Ha'. rewrite <- Heq in Ha'.
    unfold set_elements in Ha'. cbn [elements] in Ha'.
    apply (f_equal (drop (length l))) in Ha'.
    rewrite !drop_insert_lt in Ha' by lia.
    rewrite <- Hlen in Ha' at 2.
    rewrite drop_app_length' in Ha' by (by rewrite length_fmap).
    done.
  - by rewrite (represents_numUsed _ _ Hrep1), (represents_numUsed _ _ Hrep), Hlen.
Qed.

Lemma clear_raw a l a' :
  represents a l → tail_is_raw a → clear a = Some a' → tail_is_raw a'.
Proof.
  intros Hrep Hraw Hclear.
  destruct (clear_spec a l Hrep) as (a1 & Hclear1 & Hu & _ & Hel & _).
  rewrite Hclear in Hclear1. injection Hclear1 as <-.
  destruct (raw_inv a l Hrep Hraw) as (k & Ha & _).
  rewrite Ha in Hel. cbn [elements] in Hel.
  rewrite drop_app_length' in Hel by (by rewrite length_fmap).
  rewrite <- replicate_add in Hel.
  destruct a' as [m c u lg]. cbn [elements numUsed] in *.
  by apply (raw_mem _ [] (length l + k)).
Qed.

Lemma perform_raw (o : @operation T) a l a' :
  represents a l → tail_is_raw a → precondition false o a →
  perform false move_assignable o a = Some a' → tail_is_raw a'.
Proof.
  intros Hrep Hraw Hpre Hperf.
  pose proof (represents_numUsed _ _ Hrep) as Hu.
  pose proof (represents_capacity_int _ _ Hrep) as Hmax.
  unfold precondition in Hpre. cbn zeta in Hpre. rewrite Hu in Hpre.
  destruct o as [e|e es|src n|items|arr|arr start n|i e n|i src n|i n|i j|i j
                | |n|n|n]; cbn [perform] in *.
  - by apply (add_raw a l e).
  - pose proof (growth_fits_int _ _ Hpre Hmax ltac:(lia)) as Hint.
    unfold add_pack in Hperf. rewrite Hu in Hperf.
    rewrite (wrap_id (Z.of_nat _)) in Hperf by int_lia.
    rewrite (int_add_id _ 1) in Hperf by int_lia.
    rewrite int_add_id in Hperf by int_lia.
    apply (pack_raw a l (e :: es) _ a' Hrep Hraw) in Hperf; [done| |].
    + cbn [length]. lia.
    + by replace (Z.of_nat (length l) + 1 + Z.of_nat (length es))
        with (Z.of_nat (length l) + (1 + Z.of_nat (length es))) by lia.
  - destruct Hpre as [Hn Hfits]. by apply (addArray_raw a l src n).
  - pose proof (growth_fits_int _ _ Hpre Hmax ltac:(lia)) as Hint.
    unfold addArray_items in Hperf. rewrite Hu in Hperf.
    rewrite (wrap_id (Z.of_nat _)) in Hperf by int_lia.
    rewrite int_add_id in Hperf by int_lia.
    by apply (pack_raw a l items _ a' Hrep Hraw) in Hperf.
  - pose proof (growth_fits_int _ _ Hpre Hmax ltac:(lia)) as Hint.
    unfold addArray_from in Hperf. rewrite Hu in Hperf.
    rewrite (wrap_id (Z.of_nat _)) in Hperf by int_lia.
    rewrite int_add_id in Hperf by int_lia.
    by apply (pack_raw a l arr _ a' Hrep Hraw) in Hperf.
  - destruct Hpre as (Hstart & Hsz & Hn & Hfits).
    destruct (addArray_range_exact false a l arr start n Hrep
                Hstart Hsz Hn Hfits) as (a2 & Hadd & Hk & _).
    rewrite Hadd in Hperf. cbn in Hperf. injection Hperf as Heq. subst a2.
    unfold addArray_range in Hadd.
    destruct (addArray _ _ _ a) as [a3|] eqn:Harr; [|done].
    cbn [mbind option_bind] in Hadd. injection Hadd as Hk0 Heq. subst a3.
    rewrite Hk0 in Harr.
    apply (addArray_raw a l _ _ a' Hrep Hraw) in Harr; [done| |].
    + rewrite length_drop.
      replace (if bool_decide (start < 0) then 0 else start)
        with (Z.max 0 start) by (clear; case_bool_decide; lia).
      lia.
    + eapply growth_fits_mono; [exact Hfits|lia].
  - destruct Hpre as (Hn & Hfits & Hgap).
    apply (insert_raw a l i e n a' Hrep Hraw Hn Hfits); [|done].
    intros Hn0. by apply Hgap.
  - destruct Hpre as (Hn & Hfits & Hgap).
    apply (insertArray_raw a l i src n a' Hrep Hraw Hn Hfits); [|done].
    intros Hn0. by apply Hgap.
  - destruct Hpre as (Hi & Hn & Hlen).
    by apply (removeElements_raw a l i n a').
  - by apply (swap_raw a l i j).
  - by apply (move_raw a l i j).
  - by apply (clear_raw a l).
  - by apply (ensureAllocatedSize_raw a l n).
  - by apply (setAllocatedSize_raw a l n).
  - unfold shrinkToNoMoreThan in Hperf. case_bool_decide as Hlt.
    + apply (setAllocatedSize_raw a l n a' Hrep Hraw); [|done].
      split; [by apply Hpre|lia].
    + by injection Hperf as <-.
Qed.

(** X18. For elements that are not trivially copyable the cells of the
    block that hold an object are exactly the cells of the sequence:
    through any sequence of operations, each within its precondition, no
    object is left behind the sequence and none in it is moved from or
    destroyed. *)
Theorem objects_are_the_sequence (ops : list (@operation T)) : ∀ a l,
  represents a l → tail_is_raw a →
  admissible false move_assignable ops a →
  ∃ states,
    run false move_assignable ops a = Some states
    ∧ Forall (λ s,
        tail_is_raw s
        ∧ ∀ (k : nat) x, elements s !! k = Some x →
            if bool_decide (Z.of_nat k < size s)
            then ∃ v, x = Obj v else x = Raw) states.
Proof.
  induction ops as [|o ops IH]; intros a l Hrep Hraw Hadm.
  - exists []. split; [done|]. constructor.
  - cbn [admissible] in Hadm. destruct Hadm as [Hpre Hrest].
    destruct (perform_effect false move_assignable o a l Hrep Hpre)
      as (a' & Hdo & Hrep').
    pose proof (perform_raw o a l a' Hrep Hraw Hpre Hdo) as Hraw'.
    rewrite Hdo in Hrest.
    destruct (IH a' _ Hrep' Hraw' Hrest) as (states & Hrun & Hall).
    exists (a' :: states). cbn [run]. rewrite Hdo. cbn [mbind option_bind].
    rewrite Hrun. cbn [mbind option_bind]. split; [done|].
    constructor; [|done]. split; [done|].
    intros k x Hx.
    destruct (raw_inv a' _ Hrep' Hraw') as (r & Ha' & _).
    unfold size. rewrite Ha' in Hx |- *. cbn [elements numUsed] in *.
    case_bool_decide as Hk.
    + rewrite lookup_app_l in Hx by (rewrite length_fmap; lia).
      rewrite list_lookup_fmap in Hx.
      destruct (effect o l !! k) as [v|]; [|done]. cbn in Hx.
      injection Hx as <-. by exists v.
    + rewrite lookup_app_r in Hx by (rewrite length_fmap; lia).
      by apply lookup_replicate in Hx as [-> _].
Qed.

End RawTail.

(** Removing two elements at index 1 of [1, 9, 2, 3] destroys cells 2 and 3. *)
Lemma removeElements_runs_destructors_witness :
  represents scenario_1923 [1; 9; 2; 3]
  ∧ ∃ a1 a2, removeElements true true 1 2 scenario_1923 = Some a1
             ∧ destructorCalls a1 = []
             ∧ removeElements false true 1 2 scenario_1923 = Some a2
             ∧ destructorCalls a2 = [2; 3].
Proof.
  assert (represents scenario_1923 [1; 9; 2; 3]) as H1 by holds_sequence.
  split; [exact H1|].
  destruct (removeElements_runs_destructors true scenario_1923 [1; 9; 2; 3] 1 2
              H1) as (a1 & a2 & Hr1 & Hl1 & Hr2 & Hl2 & _);
    [lia | lia | cbn; lia |].
  exists a1, a2. split; [exact Hr1|]. split; [exact Hl1|].
  split; [exact Hr2|exact Hl2].
Defined.

(** Twelve operations on elements that are neither trivially copyable nor move assignable. *)
Lemma objects_are_the_sequence_witness :
  let ops := [Add 1; AddPack 2 [3]; Insert 1 9 1; RemoveElements 1 2;
              Swap 0 1; Move 0 1; AddArrayRange [5; 6; 7] 1 (-1);
              InsertArray 0 [7; 8] 2; ShrinkToNoMoreThan 6;
              EnsureAllocatedSize 20; Clear; AddArrayFrom [4]] in
  represents (@empty Z) []
  ∧ tail_is_raw (@empty Z)
  ∧ admissible false false ops (@empty Z)
  ∧ ∃ states, run false false ops (@empty Z) = Some states
              ∧ length states = 12%nat
              ∧ Forall tail_is_raw states.
Proof.
  intros ops.
  assert (represents (@empty Z) []) as H1 by apply represents_empty.
  assert (tail_is_raw (@empty Z)) as H2 by reflexivity.
  assert (admissible false false ops (@empty Z)) as H3
    by (unfold ops; show_admissible).
  split; [exact H1|]. split; [exact H2|]. split; [exact H3|].
  destruct (objects_are_the_sequence false ops empty [] H1 H2 H3)
    as (states & Hrun & Hall).
  exists states. split; [exact Hrun|]. split.
  - vm_compute in Hrun. injection Hrun as <-. reflexivity.
  - eapply Forall_impl; [exact Hall|]. by intros s [Hs _].
Defined.

(** * Inequality, and containers that change hands *)

Section Objects.
Context {T : Type}.
Implicit Types (a b : @ArrayBase T) (l la lb : list T)
  (s : gmap nat (@ArrayBase T)).

Lemma Forall2_reflects (eqT : T → T → bool) l (other : list T) :
  (∀ x y, eqT x y = true ↔ x = y) →
  Forall2 (λ x y, eqT x y = true) l other ↔ l = other.
Proof.
  intros Hrefl. split.
  - induction 1 as [|x y l' o' Hxy _ IH]; [done|].
    apply Hrefl in Hxy. by subst.
  - intros <-. induction l as [|x l' IH]; constructor; [by apply Hrefl|done].
Qed.

(** X19. [operator!=] returns the opposite of [operator==]: it is true
    exactly when the lengths differ or some pair of elements at the same
    index does not compare equal. *)
Theorem operator_ne_negates (eqT : T → T → bool) a l (other : list T) :
  represents a l →
  Z.of_nat (length other) ≤ INT_MAX →
  ∃ r c,
    operator_eq eqT a other = Some (r, c)
    ∧ operator_ne eqT a other = Some (negb r)
    ∧ (negb r = true ↔ ¬ Forall2 (λ x y, eqT x y = true) l other)
    ∧ ((∀ x y, eqT x y = true ↔ x = y) → (negb r = true ↔ l ≠ other)).
Proof.
  intros Hrep Hlen.
  destruct (operator_eq_spec eqT a l other Hrep Hlen)
    as (r & c & Heq & Hiff & _).
  exists r, c. split; [done|]. split.
  { unfold operator_ne. by rewrite Heq. }
  assert (negb r = true ↔ ¬ Forall2 (λ x y, eqT x y = true) l other) as Hne.
  { rewrite <- Hiff. destruct r; cbn; split; done. }
  split; [done|]. intros Hrefl. rewrite Hne.
  by rewrite (Forall2_reflects eqT l other Hrefl).
Qed.

Lemma represents_unique a la lb : represents a la → represents a lb → la = lb.
Proof.
  intros (Hu1 & _ & _ & Ht1) (Hu2 & _ & _ & Ht2).
  assert (length la = length lb) as Hlen by lia.
  rewrite Hlen, Ht2 in Ht1. clear - Ht1.
  revert la Ht1. induction lb as [|y lb IH]; intros [|x la] H; try done.
  cbn in H. injection H as -> H. f_equal. by apply IH.
Qed.

Lemma represents_fields a b l :
  elements b = elements a → numAllocated b = numAllocated a →
  numUsed b = numUsed a → represents a l → represents b l.
Proof. unfold represents. by intros -> -> ->. Qed.

Lemma destructor_spec a l :
  represents a l →
  destructor a
  = Some (mkArrayBase HeapBlock_free (numAllocated a) 0
            (destructorCalls a ++ seqZ 0 (Z.of_nat (length l)))).
Proof.
  intros Hrep. unfold destructor.
  destruct (clear_spec a l Hrep) as (a' & -> & Hu & Hcap & _ & Hlog & _).
  cbn [mbind option_bind]. unfold set_elements. by rewrite Hu, Hcap, Hlog.
Qed.

(** X20. [swapWith] exchanges the blocks, capacities and lengths of two
    containers, so that each holds the sequence the other held; no
    element is constructed or destroyed, other containers are not
    touched, and swapping again restores both. *)
Theorem swapWith_exchanges s this other a b la lb :
  s !! this = Some a → s !! other = Some b →
  represents a la → represents b lb →
  ∃ s' a' b',
    swapWith this other s = Some s'
    ∧ s' !! this = Some a' ∧ s' !! other = Some b'
    ∧ represents a' lb ∧ represents b' la
    ∧ capacity a' = capacity b ∧ capacity b' = capacity a
    ∧ destructorCalls a' = destructorCalls a
    ∧ destructorCalls b' = destructorCalls b
    ∧ (∀ k, k ≠ this → k ≠ other → s' !! k = s !! k)
    ∧ swapWith this other s' = Some s.
Proof.
  intros Hthis Hother Hrepa Hrepb. unfold swapWith at 1.
  rewrite Hthis, Hother. cbn [mbind option_bind swap_members].
  destruct (decide (this = other)) as [->|Hne].
  - rewrite Hthis in Hother. injection Hother as <-.
    assert (la = lb) as <- by (by apply (represents_unique a)).
    assert (mkArrayBase (elements a) (numAllocated a) (numUsed a)
              (destructorCalls a) = a) as Heta by (by destruct a).
    rewrite Heta. rewrite insert_insert_eq, (insert_id s other a) by done.
    exists s, a, a. do 10 (split; [done|]).
    unfold swapWith. rewrite Hthis. cbn [mbind option_bind swap_members].
    rewrite Heta. by rewrite insert_insert_eq, insert_id.
  - eexists _, _, _. split; [done|].
    split; [by rewrite lookup_insert_ne, lookup_insert_eq by lia|].
    split; [by rewrite lookup_insert_eq|].
    split; [by apply (represents_fields b)|].
    split; [by apply (represents_fields a)|].
    do 4 (split; [done|]). split.
    + intros k Hk1 Hk2. by rewrite !lookup_insert_ne by lia.
    + unfold swapWith.
      rewrite (lookup_insert_ne _ other this) by lia.
      rewrite !lookup_insert_eq.
      cbn [mbind option_bind swap_members elements numAllocated numUsed
           destructorCalls].
      rewrite (insert_insert_ne _ this other) by lia.
      rewrite !insert_insert_eq.
      assert (mkArrayBase (elements a) (numAllocated a) (numUsed a)
                (destructorCalls a) = a) as -> by (by destruct a).
      assert (mkArrayBase (elements b) (numAllocated b) (numUsed b)
                (destructorCalls b) = b) as -> by (by destruct b).
      by rewrite (insert_id s this a), (insert_id s other b).
Qed.

(** X21. Move assignment from another container hands its block over:
    the target holds the sequence of the source with its capacity, the
    source is left empty without a block, the elements the target held
    are destroyed, each once, and no other container is touched.
    Assigning a container to itself changes nothing. *)
Theorem move_assign_transfers s this other a b la lb :
  s !! this = Some a → s !! other = Some b → this ≠ other →
  represents a la → represents b lb →
  ∃ s' a' b' tmp,
    move_assign this other s = Some (s', Some tmp)
    ∧ s' !! this = Some a' ∧ s' !! other = Some b'
    ∧ represents a' lb
    ∧ elements a' = elements b ∧ capacity a' = capacity b
    ∧ destructorCalls a' = destructorCalls a
    ∧ represents b' [] ∧ elements b' = HeapBlock_free ∧ capacity b' = 0
    ∧ destructorCalls b' = destructorCalls b
    ∧ size tmp = 0 ∧ elements tmp = HeapBlock_free
    ∧ destructorCalls tmp = seqZ 0 (Z.of_nat (length la))
    ∧ (∀ k, k ≠ this → k ≠ other → s' !! k = s !! k)
    ∧ move_assign this this s = Some (s, None).
Proof.
  intros Hthis Hother Hne Hrepa Hrepb. unfold move_assign at 1.
  rewrite bool_decide_eq_true_2 by done. rewrite Hother.
  cbn [mbind option_bind move_constructed].
  rewrite lookup_insert_ne by lia. rewrite Hthis.
  cbn [mbind option_bind swap_members elements numAllocated numUsed
       destructorCalls].
  rewrite (destructor_spec _ la) by (by apply (represents_fields a)).
  cbn [mbind option_bind numAllocated destructorCalls app].
  eexists _, _, _, _. split; [done|].
  split; [by rewrite lookup_insert_eq|].
  split; [by rewrite lookup_insert_ne, lookup_insert_eq by lia|].
  split; [by apply (represents_fields b)|].
  do 3 (split; [done|]).
  split; [apply (represents_intro [] []); cbn; unfold INT_MAX; lia|].
  do 6 (split; [done|]). split.
  - intros k Hk1 Hk2. by rewrite !lookup_insert_ne by lia.
  - unfold move_assign. by rewrite bool_decide_eq_false_2 by (intros H; done).
Qed.

End Objects.

(** [1, 2, 3] against [1, 2, 4] and against itself. *)
Lemma operator_ne_negates_witness :
  represents holding_123 [1; 2; 3]
  ∧ operator_ne Z.eqb holding_123 [1; 2; 4] = Some true
  ∧ operator_ne Z.eqb holding_123 [1; 2; 3] = Some false.
Proof.
  assert (represents holding_123 [1; 2; 3]) as H1 by holds_sequence.
  split; [exact H1|].
  destruct (operator_ne_negates Z.eqb holding_123 [1; 2; 3] [1; 2; 4] H1)
    as (r1 & c1 & He1 & Hn1 & _); [by vm_compute|].
  destruct (operator_ne_negates Z.eqb holding_123 [1; 2; 3] [1; 2; 3] H1)
    as (r2 & c2 & He2 & Hn2 & _); [by vm_compute|].
  vm_compute in He1. injection He1 as <- _.
  vm_compute in He2. injection He2 as <- _.
  split; [exact Hn1|exact Hn2].
Defined.

(** Two containers, holding [1, 2, 3] and [5], swapped and swapped back. *)
Lemma swapWith_exchanges_witness :
  let s : gmap nat (@ArrayBase Z) := {[ 1%nat := holding_123; 2%nat := holding_5 ]} in
  s !! 1%nat = Some holding_123 ∧ s !! 2%nat = Some holding_5
  ∧ ∃ s' a' b', swapWith 1 2 s = Some s'
      ∧ s' !! 1%nat = Some a' ∧ s' !! 2%nat = Some b'
      ∧ represents a' [5] ∧ represents b' [1; 2; 3]
      ∧ swapWith 1 2 s' = Some s.
Proof.
  intros s.
  assert (s !! 1%nat = Some holding_123) as H1 by reflexivity.
  assert (s !! 2%nat = Some holding_5) as H2 by reflexivity.
  split; [exact H1|]. split; [exact H2|].
  destruct (swapWith_exchanges s 1 2 holding_123 holding_5 [1; 2; 3] [5] H1 H2)
    as (s' & a' & b' & Hs & Ha & Hb & Hra & Hrb & _ & _ & _ & _ & _ & Hback);
    [holds_sequence | holds_sequence |].
  exists s', a', b'. repeat (split; [assumption|]). exact Hback.
Defined.

(** Assigning the container of [5] to the one of [1, 2, 3]. *)
Lemma move_assign_transfers_witness :
  let s : gmap nat (@ArrayBase Z) := {[ 1%nat := holding_123; 2%nat := holding_5 ]} in
  s !! 1%nat = Some holding_123 ∧ s !! 2%nat = Some holding_5 ∧ 1%nat ≠ 2%nat
  ∧ ∃ s' a' b' tmp, move_assign 1 2 s = Some (s', Some tmp)
      ∧ s' !! 1%nat = Some a' ∧ s' !! 2%nat = Some b'
      ∧ represents a' [5] ∧ represents b' []
      ∧ destructorCalls tmp = [0; 1; 2].
Proof.
  intros s.
  assert (s !! 1%nat = Some holding_123) as H1 by reflexivity.
  assert (s !! 2%nat = Some holding_5) as H2 by reflexivity.
  assert (1%nat ≠ 2%nat) as H3 by lia.
  split; [exact H1|]. split; [exact H2|]. split; [exact H3|].
  destruct (move_assign_transfers s 1 2 holding_123 holding_5 [1; 2; 3] [5]
              H1 H2 H3)
    as (s' & a' & b' & tmp & Hm & Ha & Hb & Hra & _ & _ & _ & Hrb & _ & _ & _
        & _ & _ & Hlog & _);
    [holds_sequence | holds_sequence |].
  exists s', a', b', tmp. repeat (split; [assumption|]). exact Hlog.
Defined.

(** * The playback renderer *)

Lemma wrap64_id z :
  -9223372036854775808 ≤ z ≤ 9223372036854775807 → wrap64 z = z.
Proof. intros Hz. unfold wrap64. rewrite Z.mod_small; lia. Qed.

Section Rendering.
Context {Rate Reader : Type}.
Variable rate_ne : Rate → Rate → bool.
Implicit Types (region : @PlaybackRegion Rate) (readers : gmap nat Reader)
  (r : ReadRequest).

(** A request is made for a region only when its audio source has a
    reader, may be read, has the channels and the rate of the renderer,
    and the region overlaps the block. *)
Lemma region_request_Some readers numChannels sampleRate sampleStart
    sampleEnd region r :
  region_request rate_ne readers numChannels sampleRate sampleStart sampleEnd
                 region = Some r →
  let audioSource := getAudioSource region in
  is_Some (readers !! sourceAddress audioSource)
  ∧ isSampleAccessEnabled audioSource = true
  ∧ getChannelCount audioSource = numChannels
  ∧ rate_ne (getSampleRate audioSource) sampleRate = false
  ∧ getStartInPlaybackSamples region < sampleEnd
  ∧ sampleStart < getEndInPlaybackSamples region
  ∧ readerOf r = sourceAddress audioSource.
Proof.
  unfold region_request. cbv zeta. intros H.
  set (audioSource := getAudioSource region) in *.
  case_bool_decide as Hreader; [done|].
  destruct (isSampleAccessEnabled audioSource); [|done]. cbn [negb] in H.
  case_bool_decide as Hch; [done|]. cbn [orb] in H.
  destruct (rate_ne _ _); [done|].
  case_bool_decide as Hstart; [done|].
  case_bool_decide as Hend; [done|].
  injection H as <-. cbn [readerOf].
  split; [by destruct (readers !! _); [eexists|]|].
  split; [done|]. split; [by destruct (decide (getChannelCount audioSource = numChannels))|].
  split; [done|]. split; [lia|]. split; [lia|done].
Qed.

Lemma region_request_exact readers numChannels sampleRate timeInSamples
    numSamplesInBuffer region :
  let audioSource := getAudioSource region in
  let regionStartSample := getStartInPlaybackSamples region in
  let regionEndSample := getEndInPlaybackSamples region in
  let startSongSample := Z.max regionStartSample timeInSamples in
  let endSongSample :=
    Z.min regionEndSample (timeInSamples + numSamplesInBuffer) in
  is_Some (readers !! sourceAddress audioSource) →
  isSampleAccessEnabled audioSource = true →
  getChannelCount audioSource = numChannels →
  rate_ne (getSampleRate audioSource) sampleRate = false →
  plays_unstretched region →
  in_song_range timeInSamples →
  0 < numSamplesInBuffer ≤ INT_MAX →
  regionStartSample < timeInSamples + numSamplesInBuffer →
  timeInSamples < regionEndSample →
  region_request rate_ne readers numChannels sampleRate timeInSamples
    (i64_add timeInSamples numSamplesInBuffer) region
  = Some (mkReadRequest (sourceAddress audioSource)
            (startSongSample - timeInSamples)
            (endSongSample - startSongSample)
            (getStartInAudioModificationSamples region
             + (startSongSample - regionStartSample))).
Proof.
  intros audioSource rs re startSong endSong Hreader Haccess Hch Hrate
    (Hms & Hme & Hlt & Hdur & Hrs & Hre & Hcount) Ht HN Hov1 Hov2.
  unfold in_song_range in *.
  assert (2 ^ 60 = 1152921504606846976) as E60 by reflexivity.
  rewrite E60 in *. unfold INT_MAX in HN.
  fold rs re in Hlt, Hdur, Hrs, Hre. fold audioSource in Hme, Hcount.
  set (ms := getStartInAudioModificationSamples region) in *.
  set (me := getEndInAudioModificationSamples region) in *.
  unfold region_request. cbv zeta.
  fold audioSource rs re ms me.
  rewrite bool_decide_eq_false_2
    by (destruct Hreader as [x Hx]; rewrite Hx; done).
  rewrite Haccess. cbn [negb].
  rewrite (bool_decide_eq_false_2 (getChannelCount audioSource ≠ numChannels))
    by (intros H; done).
  rewrite Hrate. cbn [orb].
  unfold i64_add, i64_sub.
  rewrite (wrap64_id (timeInSamples + numSamplesInBuffer)) by lia.
  rewrite bool_decide_eq_false_2 by lia.
  rewrite bool_decide_eq_false_2 by lia.
  rewrite (wrap64_id (ms - rs)) by lia.
  rewrite (Z.max_r 0 ms) by lia. rewrite (Z.min_r _ me) by lia.
  rewrite (wrap64_id (ms - (ms - rs))) by lia.
  rewrite (wrap64_id (me - (ms - rs))) by lia.
  replace (ms - (ms - rs)) with rs by lia.
  replace (me - (ms - rs)) with re by lia.
  rewrite (Z.max_l _ rs) by lia. rewrite (Z.min_l _ re) by lia.
  fold startSong endSong.
  assert (timeInSamples ≤ startSong ∧ rs ≤ startSong ∧ startSong < endSong
          ∧ endSong ≤ timeInSamples + numSamplesInBuffer ∧ endSong ≤ re)
    as (H1 & H2 & H3 & H4 & H5) by (unfold startSong, endSong; lia).
  rewrite !wrap64_id by lia. rewrite !wrap_id by int_lia.
  do 2 f_equal. lia.
Qed.

(** X22. For a region that plays its audio source unstretched and overlaps
    the block, the request made of the reader is the overlap of region
    and block: it starts in the buffer where the overlap starts, has the
    length of the overlap, which is positive and ends within the buffer,
    and reads the source from the position that corresponds to the start
    of the overlap, staying within the range of the region and the
    samples of the source. *)
Theorem region_request_is_the_overlap readers numChannels sampleRate
    timeInSamples numSamplesInBuffer region :
  let audioSource := getAudioSource region in
  let regionStartSample := getStartInPlaybackSamples region in
  let regionEndSample := getEndInPlaybackSamples region in
  is_Some (readers !! sourceAddress audioSource) →
  isSampleAccessEnabled audioSource = true →
  getChannelCount audioSource = numChannels →
  rate_ne (getSampleRate audioSource) sampleRate = false →
  plays_unstretched region →
  in_song_range timeInSamples →
  0 < numSamplesInBuffer ≤ INT_MAX →
  regionStartSample < timeInSamples + numSamplesInBuffer →
  timeInSamples < regionEndSample →
  ∃ r,
    region_request rate_ne readers numChannels sampleRate timeInSamples
      (i64_add timeInSamples numSamplesInBuffer) region = Some r
    ∧ readerOf r = sourceAddress audioSource
    ∧ timeInSamples + startSample r
      = Z.max regionStartSample timeInSamples
    ∧ timeInSamples + startSample r + numSamples r
      = Z.min regionEndSample (timeInSamples + numSamplesInBuffer)
    ∧ 0 ≤ startSample r ∧ 0 < numSamples r
    ∧ startSample r + numSamples r ≤ numSamplesInBuffer
    ∧ nextReadPosition r - getStartInAudioModificationSamples region
      = timeInSamples + startSample r - regionStartSample
    ∧ getStartInAudioModificationSamples region ≤ nextReadPosition r
    ∧ nextReadPosition r + numSamples r
      ≤ getEndInAudioModificationSamples region
    ∧ 0 ≤ nextReadPosition r
    ∧ nextReadPosition r + numSamples r ≤ getSampleCount audioSource.
Proof.
  intros audioSource rs re Hreader Haccess Hch Hrate Hun Ht HN Hov1 Hov2.
  eexists. split.
  { by apply region_request_exact. }
  cbn [readerOf startSample numSamples nextReadPosition].
  destruct Hun as (Hms & Hme & Hlt & Hdur & Hrs & Hre & Hcount).
  fold rs re in Hlt, Hdur |- *. fold audioSource in Hme, Hcount.
  split; [done|]. repeat split; lia.
Qed.

(** X23. While the host is playing back, [processBlock] asks only
    readers that exist, for regions of the renderer whose audio source
    may be read and has the channel count and sample rate of the
    renderer.  When such a region plays its source unstretched, the
    buffer is not empty and the time of the block is a position whose
    arithmetic does not wrap around, the request lies within the buffer
    and within the samples of the audio source. *)
Theorem processBlock_requests readers (regions : list (@PlaybackRegion Rate))
    numChannels numSamplesInBuffer sampleRate timeInSamples :
  ∃ requests,
    processBlock rate_ne readers regions numChannels numSamplesInBuffer
                 sampleRate timeInSamples true = Reads requests
    ∧ Forall (λ r, ∃ region,
        region ∈ regions
        ∧ region_request rate_ne readers numChannels sampleRate timeInSamples
            (i64_add timeInSamples numSamplesInBuffer) region = Some r
        ∧ readerOf r = sourceAddress (getAudioSource region)
        ∧ is_Some (readers !! readerOf r)
        ∧ isSampleAccessEnabled (getAudioSource region) = true
        ∧ getChannelCount (getAudioSource region) = numChannels
        ∧ rate_ne (getSampleRate (getAudioSource region)) sampleRate = false
        ∧ (plays_unstretched region →
           in_song_range timeInSamples →
           0 < numSamplesInBuffer ≤ INT_MAX →
           0 ≤ startSample r ∧ 0 < numSamples r
           ∧ startSample r + numSamples r ≤ numSamplesInBuffer
           ∧ 0 ≤ nextReadPosition r
           ∧ nextReadPosition r + numSamples r
             ≤ getSampleCount (getAudioSource region))) requests.
Proof.
  eexists. split; [done|].
  apply Forall_forall. intros r Hr.
  apply list_elem_of_omap in Hr as (region & Hin & Hreq).
  exists region. split; [done|]. split; [done|].
  pose proof (region_request_Some _ _ _ _ _ _ _ Hreq)
    as (Hreader & Haccess & Hch & Hrate & Hov1 & Hov2 & Hof).
  cbv zeta in *. rewrite Hof. do 5 (split; [done|]).
  intros Hun Ht HN.
  assert (i64_add timeInSamples numSamplesInBuffer
          = timeInSamples + numSamplesInBuffer) as Hend.
  { unfold i64_add. apply wrap64_id. unfold in_song_range, INT_MAX in *.
    assert (2 ^ 60 = 1152921504606846976) as E60 by reflexivity.
    rewrite E60 in *. lia. }
  rewrite Hend in Hov1.
  rewrite (region_request_exact readers numChannels sampleRate timeInSamples
             numSamplesInBuffer region Hreader Haccess Hch Hrate Hun Ht HN
             Hov1 Hov2) in Hreq.
  injection Hreq as <-.
  cbn [readerOf startSample numSamples nextReadPosition].
  destruct Hun as (Hms & Hme & Hlt & Hdur & Hrs & Hre & Hcount).
  repeat split; lia.
Qed.

Variable createBufferingAudioSourceReader : @AudioSource Rate → Z → Reader.
Variable prepareToPlay : Z → Rate → Reader → Reader.
Variable maxSamplesPerBlock : Z.

(** X24. [didAddPlaybackRegion] creates and prepares a reader when the
    audio source of the region has none and leaves the readers alone
    otherwise, so that the audio sources with a reader remain the audio
    sources of the regions of the renderer. *)
Theorem didAddPlaybackRegion_adds_reader region
    (regions regions' : list (@PlaybackRegion Rate)) readers :
  readers_match regions readers →
  (∀ x, x ∈ regions' ↔ x ∈ regions ∨ x = region) →
  let audioSource := getAudioSource region in
  let readers' :=
    didAddPlaybackRegion createBufferingAudioSourceReader prepareToPlay
                         maxSamplesPerBlock region readers in
  readers_match regions' readers'
  ∧ (is_Some (readers !! sourceAddress audioSource) → readers' = readers)
  ∧ (readers !! sourceAddress audioSource = None →
     readers' !! sourceAddress audioSource
     = Some (prepareToPlay maxSamplesPerBlock (getSampleRate audioSource)
               (createBufferingAudioSourceReader audioSource
                                                 maxSamplesPerBlock)))
  ∧ (∀ address, address ≠ sourceAddress audioSource →
     readers' !! address = readers !! address).
Proof.
  intros Hmatch Hregions audioSource readers'.
  unfold readers', didAddPlaybackRegion. fold audioSource.
  case_bool_decide as Hnone.
  - split; [|split; [|split]].
    + intros address.
      destruct (decide (address = sourceAddress audioSource)) as [->|Hne].
      * rewrite lookup_alter_eq, lookup_insert_eq. cbn. split; [|by eexists].
        intros _. exists region. split; [|done]. apply Hregions. by right.
      * rewrite lookup_alter_ne, lookup_insert_ne by done.
        rewrite (Hmatch address). split.
        -- intros (x & Hx & Hsrc). exists x. split; [|done].
           apply Hregions. by left.
        -- intros (x & Hx & Hsrc). apply Hregions in Hx as [Hx| ->].
           ++ by exists x.
           ++ by destruct Hne.
    + rewrite Hnone. by intros [? ?].
    + intros _. by rewrite lookup_alter_eq, lookup_insert_eq.
    + intros address Hne. by rewrite lookup_alter_ne, lookup_insert_ne.
  - split; [|split; [done|split; [done|done]]].
    intros address. rewrite (Hmatch address). split.
    + intros (x & Hx & Hsrc). exists x. split; [|done].
      apply Hregions. by left.
    + intros (x & Hx & Hsrc). apply Hregions in Hx as [Hx| ->].
      * by exists x.
      * apply (Hmatch address). rewrite <- Hsrc. fold audioSource.
        by destruct (readers !! sourceAddress audioSource); [eexists|].
Qed.

Lemma shares_audio_source_true region (regions : list (@PlaybackRegion Rate)) :
  shares_audio_source region regions = true
  ↔ ∃ other, other ∈ regions
      ∧ regionAddress region ≠ regionAddress other
      ∧ sourceAddress (getAudioSource other)
        = sourceAddress (getAudioSource region).
Proof.
  induction regions as [|o rest IH]; cbn [shares_audio_source].
  - split; [done|]. intros (other & Hin & _). by apply elem_of_nil in Hin.
  - destruct (bool_decide (regionAddress region ≠ regionAddress o)
              && bool_decide (sourceAddress (getAudioSource o)
                              = sourceAddress (getAudioSource region)))
      eqn:Hhere.
    + apply andb_true_iff in Hhere as [H1 H2].
      apply bool_decide_eq_true in H1, H2.
      split; [|done]. intros _. exists o. split; [by left|done].
    + rewrite IH. split.
      * intros (other & Hin & H1 & H2). exists other. split; [by right|done].
      * intros (other & Hin & H1 & H2).
        apply elem_of_cons in Hin as [->|Hin]; [|by exists other].
        apply andb_false_iff in Hhere as [Hf|Hf];
          apply bool_decide_eq_false in Hf; by destruct Hf.
Qed.

(** X25. [willRemovePlaybackRegion] erases the reader of the audio source
    of the region unless another region of the renderer uses the same
    audio source, so that the audio sources with a reader are the audio
    sources of the regions that remain. *)
Theorem willRemovePlaybackRegion_keeps_shared_readers region
    (regions regions' : list (@PlaybackRegion Rate)) readers :
  readers_match regions readers →
  told_apart_by_address regions →
  region ∈ regions →
  (∀ x, x ∈ regions' ↔ x ∈ regions ∧ regionAddress x ≠ regionAddress region) →
  let readers' := willRemovePlaybackRegion region regions readers in
  readers_match regions' readers'
  ∧ (∀ address,
       address ≠ sourceAddress (getAudioSource region) →
       readers' !! address = readers !! address)
  ∧ (is_Some (readers' !! sourceAddress (getAudioSource region))
     ↔ ∃ other, other ∈ regions'
         ∧ sourceAddress (getAudioSource other)
           = sourceAddress (getAudioSource region)).
Proof.
  intros Hmatch Hid Hin Hregions readers'.
  assert (readers_match regions' readers'
          ∧ ∀ address, address ≠ sourceAddress (getAudioSource region) →
              readers' !! address = readers !! address) as [Hmatch' Hframe].
  { unfold readers', willRemovePlaybackRegion.
    destruct (shares_audio_source region regions) eqn:Hshares.
    - apply shares_audio_source_true in Hshares as (other & Ho & Hne & Hsrc).
      split; [|done]. intros address. rewrite (Hmatch address). split.
      + intros (x & Hx & Hxs).
        destruct (decide (regionAddress x = regionAddress region)) as [He|Hd].
        * apply (Hid x region Hx Hin) in He. subst x.
          exists other. split; [apply Hregions; split; [done|congruence]|].
          congruence.
        * exists x. split; [by apply Hregions|done].
      + intros (x & Hx & Hxs). apply Hregions in Hx as [Hx _]. by exists x.
    - split.
      + intros address.
        destruct (decide (address = sourceAddress (getAudioSource region)))
          as [->|Hne].
        * rewrite lookup_delete_eq. split; [by intros [? ?]|].
          intros (x & Hx & Hxs). apply Hregions in Hx as [Hx Hd].
          assert (shares_audio_source region regions = true) as Htrue
            by (apply shares_audio_source_true; exists x;
                split; [done|split; [congruence|done]]).
          congruence.
        * rewrite lookup_delete_ne by done. rewrite (Hmatch address). split.
          -- intros (x & Hx & Hxs). exists x. split; [|done].
             apply Hregions. split; [done|]. intros He.
             apply (Hid x region Hx Hin) in He. subst x. by destruct Hne.
          -- intros (x & Hx & Hxs). apply Hregions in Hx as [Hx _].
             by exists x.
      + intros address Hne. by rewrite lookup_delete_ne. }
  split; [done|]. split; [done|]. apply Hmatch'.
Qed.

End Rendering.

(** A block of 128 samples at the start of the song and a region that starts at sample 100. *)
Lemma region_request_is_the_overlap_witness :
  plays_unstretched region_at_100
  ∧ ∃ r, region_request rate_differs ({[ 7%nat := 0 ]} : gmap nat Z) 2 44100 0
           (i64_add 0 128) region_at_100 = Some r
         ∧ startSample r = 100 ∧ numSamples r = 28
         ∧ nextReadPosition r = 50.
Proof.
  assert (plays_unstretched region_at_100) as H1
    by (unfold plays_unstretched, in_song_range; cbn; lia).
  split; [exact H1|].
  destruct (region_request_is_the_overlap rate_differs
              ({[ 7%nat := 0 ]} : gmap nat Z) 2 44100 0 128 region_at_100)
    as (r & Hreq & _ & Hs & He & _ & _ & _ & Hn & _);
    [by eexists | reflexivity | reflexivity | reflexivity | exact H1
    | by vm_compute | by vm_compute | cbn; lia | cbn; lia |].
  exists r. split; [exact Hreq|]. cbn in Hs, He, Hn. lia.
Defined.

(** Two regions of one audio source and its reader, and a block of 512
    samples at the start of the song. *)
Lemma processBlock_requests_witness :
  plays_unstretched region_at_100 ∧ plays_unstretched region_at_400
  ∧ in_song_range 0 ∧ 0 < 512 ≤ INT_MAX
  ∧ ∃ requests,
      processBlock rate_differs ({[ 7%nat := 0 ]} : gmap nat Z)
        [region_at_100; region_at_400] 2 512 44100 0 true = Reads requests
      ∧ length requests = 2%nat
      ∧ Forall (λ r, is_Some (({[ 7%nat := 0 ]} : gmap nat Z) !! readerOf r)
                     ∧ 0 ≤ startSample r ∧ 0 < numSamples r
                     ∧ startSample r + numSamples r ≤ 512
                     ∧ 0 ≤ nextReadPosition r
                     ∧ nextReadPosition r + numSamples r ≤ 1000)
               requests.
Proof.
  assert (plays_unstretched region_at_100) as U1
    by (unfold plays_unstretched, in_song_range; cbn; lia).
  assert (plays_unstretched region_at_400) as U2
    by (unfold plays_unstretched, in_song_range; cbn; lia).
  assert (in_song_range 0) as H1 by (by vm_compute).
  assert (0 < 512 ≤ INT_MAX) as H2 by (by vm_compute).
  split; [exact U1|]. split; [exact U2|]. split; [exact H1|]. split; [exact H2|].
  destruct (processBlock_requests rate_differs ({[ 7%nat := 0 ]} : gmap nat Z)
              [region_at_100; region_at_400] 2 512 44100 0)
    as (requests & Hp & Hall).
  exists requests. split; [exact Hp|]. split.
  - vm_compute in Hp. injection Hp as <-. reflexivity.
  - eapply Forall_impl; [exact Hall|].
    intros r (region & Hin & _ & _ & Hreader & _ & _ & _ & Hfit).
    split; [exact Hreader|].
    assert (plays_unstretched region) as Hun.
    { apply elem_of_cons in Hin as [->|Hin]; [exact U1|].
      apply list_elem_of_singleton in Hin as ->. exact U2. }
    assert (getSampleCount (getAudioSource region) = 1000) as Hcount.
    { apply elem_of_cons in Hin as [->|Hin]; [reflexivity|].
      apply list_elem_of_singleton in Hin as ->. reflexivity. }
    rewrite <- Hcount. exact (Hfit Hun H1 H2).
Defined.

(** The first region of a renderer gets its audio source a prepared reader. *)
Lemma didAddPlaybackRegion_adds_reader_witness :
  readers_match ([] : list (@PlaybackRegion Z)) (∅ : gmap nat Z)
  ∧ readers_match [region_at_100]
      (didAddPlaybackRegion (λ _ _, 0) (λ _ _ reader, reader + 1) 512
                            region_at_100 ∅)
  ∧ didAddPlaybackRegion (λ _ _, 0) (λ _ _ reader, reader + 1) 512
                         region_at_100 ∅ !! 7%nat = Some 1.
Proof.
  assert (readers_match ([] : list (@PlaybackRegion Z)) (∅ : gmap nat Z)) as H1.
  { intros address. rewrite lookup_empty. split; [by intros [? ?]|].
    intros (x & Hx & _). by apply elem_of_nil in Hx. }
  split; [exact H1|].
  destruct (didAddPlaybackRegion_adds_reader (λ _ _, 0)
              (λ _ _ reader, reader + 1) 512 region_at_100 []
              [region_at_100] ∅ H1)
    as (Hmatch & _ & Hnew & _).
  { intros x. rewrite list_elem_of_singleton. split; [by right|].
    intros [Hx| ->]; [by apply elem_of_nil in Hx|done]. }
  split; [exact Hmatch|]. apply Hnew. reflexivity.
Defined.

(** Removing one of two regions that share an audio source keeps the reader. *)
Lemma willRemovePlaybackRegion_keeps_shared_readers_witness :
  readers_match [region_at_100; region_at_400] ({[ 7%nat := 0 ]} : gmap nat Z)
  ∧ told_apart_by_address [region_at_100; region_at_400]
  ∧ readers_match [region_at_400]
      (willRemovePlaybackRegion region_at_100 [region_at_100; region_at_400]
                                ({[ 7%nat := 0 ]} : gmap nat Z))
  ∧ is_Some (willRemovePlaybackRegion region_at_100
               [region_at_100; region_at_400]
               ({[ 7%nat := 0 ]} : gmap nat Z) !! 7%nat).
Proof.
  assert (readers_match [region_at_100; region_at_400]
            ({[ 7%nat := 0 ]} : gmap nat Z)) as H1.
  { intros address. split.
    - intros [rd Hrd]. apply lookup_singleton_Some in Hrd as [<- _].
      exists region_at_100. split; [by left|done].
    - intros (x & Hx & <-).
      apply elem_of_cons in Hx as [->|Hx]; [by eexists|].
      apply list_elem_of_singleton in Hx as ->. by eexists. }
  assert (told_apart_by_address [region_at_100; region_at_400]) as H2.
  { intros x y Hx Hy He.
    apply elem_of_cons in Hx as [->|Hx];
      [|apply list_elem_of_singleton in Hx as ->];
      (apply elem_of_cons in Hy as [->|Hy];
       [|apply list_elem_of_singleton in Hy as ->]);
      done. }
  split; [exact H1|]. split; [exact H2|].
  destruct (willRemovePlaybackRegion_keeps_shared_readers region_at_100
              [region_at_100; region_at_400] [region_at_400]
              ({[ 7%nat := 0 ]} : gmap nat Z) H1 H2)
    as (Hmatch & _ & Hshared).
  { by left. }
  { intros x. rewrite list_elem_of_singleton. split.
    - intros ->. split; [by right; left|done].
    - intros [Hx Hne]. apply elem_of_cons in Hx as [->|Hx]; [done|].
      by apply list_elem_of_singleton in Hx. }
  split; [exact Hmatch|]. apply Hshared.
  exists region_at_400. split; [by left|done].
Defined.
